(** * A shallow embedding of [pentomino.py]

    The genetic-algorithm pentomino solver: decoding of bit strings into a
    grid of [Node] objects, the neighbour lists, breadth-first counting,
    fitness, roulette selection, crossover, mutation, the board printer,
    the constructor and the driver [main].

    Conventions of the embedding.
    - Python [int] is [Z]. A Python [float] is idealised as an exact
      rational [Q] in [fitness], [selection] and the driver: rounding is not
      modelled there, and the value of a score stands for the float nearest
      to it. [selection], whose result is an index that rounding can move,
      is also given in binary64 ([selection64]), with sums and products
      rounded as the code rounds them.
    - [bitsize] takes the logarithm exactly. The float computation of the
      code, [ceil(log(area / 5, 2))], gives the same width for every area
      below [5 * 2 ^ 29]; at [5 * 2 ^ 29] it gives 30 where 29 is exact, and
      an area beyond the range of floats ends in an [OverflowError] that is
      not modelled.
    - A Python [str] is a [list ascii]; slicing follows Python's clamping
      rules ([py_slice]).
    - A call either returns, raises a Python exception, or is cut off by the
      model ([OutOfFuel] for a [while] loop that was not given enough
      iterations, [Dangling] for a reference that designates no object).
    - A [Node] object of a grid is designated by its coordinates [(r, c)]:
      the [neighbors] slot holds such references, and they are resolved in
      the grid the node belongs to.
    - [random.random()] reads the next draw of an explicit source;
      [random.randint] is a function of its bounds, numbered by call in
      the driver.
    - What [print] writes is a list of pieces, one for every call and one
      for every line break; what was written before an exception is not
      kept. *)

From Stdlib Require Import ZArith QArith Ascii String Lia Lqa Bool SpecFloat.
From stdpp Require Import base tactics option relations list strings.

Local Open Scope Z_scope.

(** ** Outcomes of a call *)

Inductive pyexn : Type :=
  | IndexError
  | ValueError
  | ZeroDivisionError
  | AttributeError.

Inductive outcome (A : Type) : Type :=
  | Ok (a : A)
  | Raise (e : pyexn)
  | OutOfFuel
  | Dangling.

Arguments Ok {A} a.
Arguments Raise {A} e.
Arguments OutOfFuel {A}.
Arguments Dangling {A}.

Definition obind {A B} (x : outcome A) (f : A -> outcome B) : outcome B :=
  match x with
  | Ok a => f a
  | Raise e => Raise e
  | OutOfFuel => OutOfFuel
  | Dangling => Dangling
  end.

Notation "'do' x <- e1 ; e2" := (obind e1 (fun x => e2))
  (at level 10, x name, e1 at level 100, e2 at level 200).
Notation "'do' ' p <- e1 ; e2" := (obind e1 (fun x => match x with p => e2 end))
  (at level 10, p pattern, e1 at level 100, e2 at level 200).

(** [for x in l: s = body(s, x)] *)
Fixpoint for_each {A St} (l : list A) (body : St -> A -> outcome St) (s : St) : outcome St :=
  match l with
  | [] => Ok s
  | x :: l' => do s' <- body s x; for_each l' body s'
  end.

(** ** Python sequences *)

Abbreviation pystr := (list ascii).

(** A string literal. *)
Definition py (s : string) : pystr := list_ascii_of_string s.

Definition len {A} (l : list A) : Z := Z.of_nat (length l).

(** [range(lo, hi)] *)
Definition range (lo hi : Z) : list Z :=
  fmap (fun k => lo + Z.of_nat k) (seq 0 (Z.to_nat (hi - lo))).

(** How a slice bound is brought into [0, len]. *)
Definition py_clamp (n i : Z) : Z :=
  if i <? 0 then Z.max 0 (i + n) else Z.min i n.

(** [s[i:j]] *)
Definition py_slice {A} (s : list A) (i j : Z) : list A :=
  let lo := py_clamp (len s) i in
  let hi := py_clamp (len s) j in
  take (Z.to_nat (hi - lo)) (drop (Z.to_nat lo) s).

(** The position [l[i]] designates, for a list of length [n]. *)
Definition py_index (n i : Z) : outcome nat :=
  if i <? 0
  then (if i + n <? 0 then Raise IndexError else Ok (Z.to_nat (i + n)))
  else (if i <? n then Ok (Z.to_nat i) else Raise IndexError).

(** [l[i]] *)
Definition getitem {A} (l : list A) (i : Z) : outcome A :=
  do j <- py_index (len l) i;
  match l !! j with
  | Some x => Ok x
  | None => Raise IndexError
  end.

(** ** Nodes and the solver object *)

(** A reference to a [Node] of the current grid. *)
Abbreviation ref := (Z * Z)%type.

Record Node : Type := mkNode {
  r : Z;
  c : Z;
  value : pystr;
  neighbors : list ref
}.

(** [Node.__init__] *)
Definition new_Node (r0 c0 : Z) (v : pystr) : Node := mkNode r0 c0 v [].

(** [Node.__eq__] between two nodes: the neighbour lists take no part. *)
Definition Node_eq (a b : Node) : bool :=
  (r a =? r b) && (c a =? c b) && bool_decide (value a = value b).

Definition ref_of (a : Node) : ref := (r a, c a).

Abbreviation Grid := (list (list Node)).

Record Pentomino : Type := mkPentomino {
  m : Z;
  n : Z;
  k : Z;
  population : list Grid;
  bitstrings : list pystr
}.

(** [self.reps] *)
Definition reps : list pystr :=
  [py "~"; py "*"; py "$"; py "^"; py "#"; py "@"; py ">"; py "<"].

Definition set_pop (self : Pentomino) (p : list Grid) : Pentomino :=
  mkPentomino (m self) (n self) (k self) p (bitstrings self).

(** [get_node]: [None] outside the board, the stored node inside. *)
Definition get_node (self : Pentomino) (idx row col : Z) : outcome (option Node) :=
  if (0 <=? row) && (0 <=? col) && (row <? n self) && (col <? m self)
  then
    do g <- getitem (population self) idx;
    do line <- getitem g row;
    do nd <- getitem line col;
    Ok (Some nd)
  else Ok None.

(** [bitsize]: [ceil(log((m * n) / 5, 2))], with [log] taken exactly, which
    is what the float computation gives for areas below [5 * 2 ^ 29].
    [log] of a non-positive number is a [ValueError]. *)
Definition bitsize (self : Pentomino) : outcome Z :=
  let area := m self * n self in
  if area <=? 0 then Raise ValueError
  else if 5 <=? area then Ok (Z.log2_up ((area + 4) / 5))
  else Ok (- Z.log2 (5 / area)).

(** The populate loops of [set_population] for one bit string: the pointer
    [i] moves by [bsize] for every cell, row after row. *)
Definition populate_row (bstring : pystr) (bsize row : Z) (cols : list Z) (i : Z)
  : list Node * Z :=
  fold_left
    (fun '(lst, i) col =>
       let idx := py_slice bstring i (i + bsize) in
       (lst ++ [new_Node row col idx], i + bsize))
    cols ([], i).

Definition populate_grid (bstring : pystr) (bsize : Z) (self : Pentomino) : Grid :=
  fst (fold_left
         (fun '(grid, i) row =>
            let '(lst, i') := populate_row bstring bsize row (range 0 (m self)) i in
            (grid ++ [lst], i'))
         (range 0 (n self)) ([], 0)).

Definition populate (bsize : Z) (self : Pentomino) (bs : list pystr) : list Grid :=
  fold_left (fun pop bstring => pop ++ [populate_grid bstring bsize self]) bs [].

(** [self.population[i][r][c].neighbors.append(nb)] *)
Definition append_neighbor (self : Pentomino) (i row col : Z) (nb : Node)
  : outcome Pentomino :=
  let pop := population self in
  do gi <- py_index (len pop) i;
  do g <- getitem pop i;
  do ri <- py_index (len g) row;
  do line <- getitem g row;
  do ci <- py_index (len line) col;
  do nd <- getitem line col;
  let nd' := mkNode (r nd) (c nd) (value nd) (neighbors nd ++ [ref_of nb]) in
  Ok (set_pop self (<[gi := <[ri := <[ci := nd']> line]> g]> pop)).

(** [if not nb == None and nb.value == self.get_node(i, r, c).value: ...append(nb)] *)
Definition link_if (self : Pentomino) (i row col : Z) (nb : option Node)
  : outcome Pentomino :=
  match nb with
  | None => Ok self
  | Some a =>
      do me <- get_node self i row col;
      match me with
      | None => Raise AttributeError
      | Some me =>
          if bool_decide (value a = value me)
          then append_neighbor self i row col a
          else Ok self
      end
  end.

(** The body of the neighbour loops, for cell [(row, col)] of grid [i]. *)
Definition link_cell (i row : Z) (self : Pentomino) (col : Z) : outcome Pentomino :=
  do above <- get_node self i (row - 1) col;
  do below <- get_node self i (row + 1) col;
  do left <- get_node self i row (col - 1);
  do right <- get_node self i row (col + 1);
  do self <- link_if self i row col above;
  do self <- link_if self i row col below;
  do self <- link_if self i row col left;
  link_if self i row col right.

Definition link_row (i : Z) (self : Pentomino) (row : Z) : outcome Pentomino :=
  for_each (range 0 (m self)) (link_cell i row) self.

Definition link_grid (self : Pentomino) (i : Z) : outcome Pentomino :=
  for_each (range 0 (n self)) (link_row i) self.

(** [set_population] *)
Definition set_population (self : Pentomino) (bs : list pystr) : outcome Pentomino :=
  let self := set_pop self [] in
  do bsize <- bitsize self;
  let self := set_pop self (populate bsize self bs) in
  for_each (range 0 (len bs)) link_grid self.

(** ** Breadth-first counting *)

(** The object a reference of grid [g] designates. *)
Definition deref (g : Grid) (p : ref) : outcome Node :=
  if (0 <=? p.1) && (0 <=? p.2)
  then match g !! Z.to_nat p.1 with
       | Some line =>
           match line !! Z.to_nat p.2 with
           | Some nd => Ok nd
           | None => Dangling
           end
       | None => Dangling
       end
  else Dangling.

(** [n in visited], through [Node.__eq__]. *)
Definition Node_in (nd : Node) (visited : list Node) : bool :=
  existsb (fun x => Node_eq x nd) visited.

(** [a in nbrs] for a list of references: every element is compared to
    [a] with [Node.__eq__], from the left. *)
Fixpoint refs_contain (g : Grid) (nbrs : list ref) (a : Node) : outcome bool :=
  match nbrs with
  | [] => Ok false
  | p :: nbrs' =>
      do x <- deref g p;
      if Node_eq x a then Ok true else refs_contain g nbrs' a
  end.

(** [Node.is_connected] *)
Definition is_connected (g : Grid) (self other : Node) : outcome bool :=
  do here <- refs_contain g (neighbors other) self;
  if here then refs_contain g (neighbors self) other else Ok false.

(** The body of [for n in neighbors]; the state is [(visited, q, count)]. *)
Definition bfs_visit (g : Grid) (st : list Node * list Node * Z) (p : ref)
  : outcome (list Node * list Node * Z) :=
  do nb <- deref g p;
  let '(visited, q, count) := st in
  if Node_in nb visited
  then Ok st
  else Ok (visited ++ [nb], q ++ [nb], count + 1).

(** [while not q.empty()], one unit of fuel for every iteration. *)
Fixpoint bfs_loop (fuel : nat) (g : Grid) (visited q : list Node) (count : Z)
  : outcome Z :=
  match q with
  | [] => Ok count
  | s :: q' =>
      match fuel with
      | O => OutOfFuel
      | S fuel' =>
          do '(visited', q'', count') <-
            for_each (neighbors s) (bfs_visit g) (visited, q', count);
          bfs_loop fuel' g visited' q'' count'
      end
  end.

(** [bfs], for a node of grid [g]. *)
Definition bfs (fuel : nat) (g : Grid) (node : Node) : outcome Z :=
  bfs_loop fuel g [node] [node] 1.

(** ** Fitness *)

(** A [dict] from strings to counts, in insertion order. *)
Definition dict : Type := list (pystr * Z).

Fixpoint dict_get (d : dict) (key : pystr) : option Z :=
  match d with
  | [] => None
  | (key', v') :: d' =>
      if bool_decide (key' = key) then Some v' else dict_get d' key
  end.

Fixpoint dict_set (d : dict) (key : pystr) (v : Z) : dict :=
  match d with
  | [] => [(key, v)]
  | (key', v') :: d' =>
      if bool_decide (key' = key) then (key', v) :: d'
      else (key', v') :: dict_set d' key v
  end.

Definition dict_values (d : dict) : list Z := fmap snd d.

(** The two updates made for one node whose component has [count] cells. *)
Definition tally (st : dict * dict) (node : Node) (count : Z) : dict * dict :=
  let '(connected_counts, total_counts) := st in
  let connected_counts :=
    match dict_get connected_counts (value node) with
    | Some old =>
        if Z.abs (count - 5) <? Z.abs (old - 5)
        then dict_set connected_counts (value node) count
        else connected_counts
    | None => dict_set connected_counts (value node) count
    end in
  let total_counts :=
    match dict_get total_counts (value node) with
    | Some old => dict_set total_counts (value node) (old + 1)
    | None => dict_set total_counts (value node) 1
    end in
  (connected_counts, total_counts).

Definition count_cell (fuel : nat) (self : Pentomino) (i row : Z)
  (st : dict * dict) (col : Z) : outcome (dict * dict) :=
  do g <- getitem (population self) i;
  do line <- getitem g row;
  do node <- getitem line col;
  do count <- bfs fuel g node;
  Ok (tally st node count).

(** The two dictionaries after the cell loops of candidate [i]. *)
Definition count_tables (fuel : nat) (self : Pentomino) (i : Z) : outcome (dict * dict) :=
  for_each (range 0 (n self))
    (fun st row => for_each (range 0 (m self)) (count_cell fuel self i row) st)
    ([], []).

(** [sm += 1 - abs(5 - x)/5] over the values of a dictionary. *)
Definition closeness (d : dict) : Q :=
  fold_left (fun sm x => (sm + (1 - inject_Z (Z.abs (5 - x)) / 5))%Q) (dict_values d) 0%Q.

(** [sm / len(d)] *)
Definition average (sm : Q) (d : dict) : outcome Q :=
  if len d =? 0 then Raise ZeroDivisionError
  else Ok (sm / inject_Z (len d))%Q.

(** [avgc + penalty * avgt], as an exact rational; the code returns this
    value rounded. When every entry of both dictionaries is 5, every
    operation of the code is exact and it returns the float [1 + penalty]. *)
Definition score_of (penalty : Q) (tables : dict * dict) : outcome Q :=
  do avgc <- average (closeness tables.1) tables.1;
  do avgt <- average (closeness tables.2) tables.2;
  Ok (avgc + penalty * avgt)%Q.

(** [fitness] *)
Definition fitness (fuel : nat) (self : Pentomino) (penalty : Q) : outcome (list Q) :=
  for_each (range 0 (k self))
    (fun scores i =>
       do tables <- count_tables fuel self i;
       do sc <- score_of penalty tables;
       Ok (scores ++ [sc]))
    [].

(** ** The source of random numbers *)

(** The draws [random.random()] will return, and how many were taken. *)
Record Rng : Type := mkRng {
  draws : nat -> Q;
  taken : nat
}.

(** [random.random()] *)
Definition random (g : Rng) : Q * Rng :=
  (draws g (taken g), mkRng (draws g) (S (taken g))).

Definition Qlt_bool (a b : Q) : bool := negb (Qle_bool b a).

(** ** Selection *)

(** [while sc < x], for one parent; one unit of fuel for every iteration.
    The sums are exact here; [roulette64] below is the same loop with the
    sums rounded. *)
Fixpoint roulette (fuel : nat) (scores : list Q) (x sc : Q) (score : Z) : outcome Z :=
  if Qlt_bool sc x
  then match fuel with
       | O => OutOfFuel
       | S fuel' =>
           do s <- getitem scores score;
           let sc := (sc + s)%Q in
           let score := if negb (Qle_bool x sc) then score + 1 else score in
           roulette fuel' scores x sc score
       end
  else Ok score.

(** [selection] *)
Definition selection (fuel : nat) (scores : list Q) (max_score : Q) (g : Rng)
  : outcome (list Z * Rng) :=
  for_each (range 0 2)
    (fun '(parents, g) _ =>
       let '(u, g) := random g in
       let x := (u * max_score)%Q in
       do score <- roulette fuel scores x 0%Q 0;
       Ok (parents ++ [score], g))
    ([], g).

(** ** Crossover *)

(** [crossover]; [randint lo hi] is what [random.randint(lo, hi)] returns. *)
Definition crossover (self : Pentomino) (parents : list Z) (randint : Z -> Z -> Z)
  : outcome (list pystr) :=
  do p0 <- getitem parents 0;
  do mom <- getitem (bitstrings self) p0;
  do p1 <- getitem parents 1;
  do dad <- getitem (bitstrings self) p1;
  let loc := randint 0 (len mom) in
  let children := [] in
  let children := children ++ [py_slice mom 0 loc ++ py_slice dad loc (len dad)] in
  let children := children ++ [py_slice dad 0 loc ++ py_slice mom loc (len mom)] in
  Ok children.

(** ** Mutation *)

(** The body of [for i in range(0, len(b))]: the local [b] is rebound. *)
Definition mutate_bit (mutation_rate : Q) (st : pystr * Rng) (i : Z)
  : outcome (pystr * Rng) :=
  let '(b, g) := st in
  let '(u, g) := random g in
  if Qlt_bool u mutation_rate
  then
    do ch <- getitem b i;
    if bool_decide ([ch] = py "1")
    then Ok (py_slice b 0 i ++ py "0" ++ py_slice b (i + 1) (len b), g)
    else Ok (py_slice b 0 i ++ py "1" ++ py_slice b (i + 1) (len b), g)
  else Ok (b, g).

(** [mutation]. Nothing is assigned to [self.bitstrings]: the object comes
    back as it was. The second component records, for every iteration of
    the outer loop, the string the local [b] was bound to when the iteration
    ended; the source reads it nowhere. *)
Definition mutation (self : Pentomino) (mutation_rate : Q) (g : Rng)
  : outcome (Pentomino * list pystr * Rng) :=
  for_each (bitstrings self)
    (fun '(self, locals, g) b =>
       do '(b', g') <- for_each (range 0 (len b)) (mutate_bit mutation_rate) (b, g);
       Ok (self, locals ++ [b'], g'))
    (self, [], g).

(** ** The board printer *)

(** [pents.index(idx)] *)
Fixpoint list_index (idx : pystr) (pents : list pystr) : outcome Z :=
  match pents with
  | [] => Raise ValueError
  | p :: pents' =>
      if bool_decide (p = idx) then Ok 0
      else do j <- list_index idx pents'; Ok (j + 1)
  end.

(** The first [while] loop: the distinct chunks in first-encounter order. *)
Fixpoint collect_pents (fuel : nat) (bitstring : pystr) (bitsize k0 : Z)
  (pents : list pystr) : outcome (list pystr) :=
  if k0 <? len bitstring
  then match fuel with
       | O => OutOfFuel
       | S fuel' =>
           let idx := py_slice bitstring k0 (k0 + bitsize) in
           let pents := if bool_decide (idx ∈ pents) then pents else pents ++ [idx] in
           collect_pents fuel' bitstring bitsize (k0 + bitsize) pents
       end
  else Ok pents.

Definition newline : pystr := [ascii_of_nat 10].

(** The second [while] loop; [out] is what has been printed. *)
Fixpoint print_cells (fuel : nat) (bitstring : pystr) (bitsize m0 k0 : Z)
  (pents out : list pystr) : outcome (list pystr) :=
  if k0 <? len bitstring
  then match fuel with
       | O => OutOfFuel
       | S fuel' =>
           let idx := py_slice bitstring k0 (k0 + bitsize) in
           do j <- list_index idx pents;
           do glyph <- getitem reps j;
           let out := out ++ [glyph ++ py " "] in
           let k0 := k0 + bitsize in
           if bitsize =? 0 then Raise ZeroDivisionError
           else if m0 =? 0 then Raise ZeroDivisionError
           else
             let out :=
               if (Z.quot k0 bitsize mod m0 =? 0) && negb (k0 =? 0)
               then out ++ [newline] else out in
             print_cells fuel' bitstring bitsize m0 k0 pents out
       end
  else Ok out.

(** [print_pentomino]; the result is the sequence of printed pieces. *)
Definition print_pentomino (fuel : nat) (bitstring : pystr) (m0 n0 : Z)
  : outcome (list pystr) :=
  let pents := [] in
  if m0 * n0 =? 0 then Raise ZeroDivisionError
  else
    let bitsize := Z.quot (len bitstring) (m0 * n0) in
    do pents <- collect_pents fuel bitstring bitsize 0 pents;
    print_cells fuel bitstring bitsize m0 0 pents [].

(** * Notions used to state the properties *)

(** The other bit, as [mutation] writes it: anything but ["1"] becomes ["1"]. *)
Definition flip (ch : ascii) : ascii :=
  if bool_decide (ch = "1"%char) then "0"%char else "1"%char.

(** The bitwise complement of a bit string. *)
Definition complement (b : pystr) : pystr := fmap flip b.

(** The sum of a list of scores, added from the left as a Python loop does. *)
Definition sumQ (l : list Q) : Q := fold_left Qplus l 0%Q.

(** The running sum [scores[0] + ... + scores[i]]. *)
Definition running (scores : list Q) (i : nat) : Q := sumQ (take (S i) scores).

(** [i] is the first index at which the running sum reaches [x]. *)
Definition first_reach (scores : list Q) (x : Q) (i : Z) : Prop :=
  0 <= i < len scores /\
  (x <= running scores (Z.to_nat i))%Q /\
  forall j, 0 <= j < i -> (running scores (Z.to_nat j) < x)%Q.

(** The cells of a board, by position. *)
Definition inside (self : Pentomino) (row col : Z) : Prop :=
  0 <= row < n self /\ 0 <= col < m self.

Definition insideb (self : Pentomino) (row col : Z) : bool :=
  (0 <=? row) && (row <? n self) && (0 <=? col) && (col <? m self).

(** The node stored at a position of a population, if there is one. *)
Definition node_at (pop : list Grid) (gi ri ci : nat) : option Node :=
  match pop !! gi with
  | Some g =>
      match g !! ri with
      | Some line => line !! ci
      | None => None
      end
  | None => None
  end.

(** The node of a grid at given coordinates. *)
Definition cell (g : Grid) (row col : Z) : option Node :=
  if (0 <=? row) && (0 <=? col) then node_at [g] 0 (Z.to_nat row) (Z.to_nat col) else None.

(** The [j]-th chunk of [w] bits of a bit string. *)
Definition chunk (b : pystr) (w : Z) (j : Z) : pystr :=
  take (Z.to_nat w) (drop (Z.to_nat (j * w)) b).

(** Where the pointer of the populate loops stands at a cell, and the slice
    taken there. *)
Definition pointer (self : Pentomino) (w row col : Z) : Z := (row * m self + col) * w.

Definition slice_at (self : Pentomino) (w : Z) (b : pystr) (row col : Z) : pystr :=
  py_slice b (pointer self w row col) (pointer self w row col + w).

(** What [Node.__eq__] looks at. *)
Definition erase (nd : Node) : Z * Z * pystr := (r nd, c nd, value nd).

Definition skeleton (pop : list Grid) : list (list (list (Z * Z * pystr))) :=
  fmap (M := list) (fmap (M := list) (fmap (M := list) erase)) pop.

(** The skeleton of the population decoded from [bs]. *)
Definition skeleton_of (self : Pentomino) (w : Z) (bs : list pystr)
  : list (list (list (Z * Z * pystr))) :=
  fmap (fun b =>
         fmap (fun row => fmap (fun col => (row, col, slice_at self w b row col))
                           (range 0 (m self)))
             (range 0 (n self)))
      bs.

(** The neighbour list the link loops build for a cell, from the values
    [v] of the cells of its grid: above, below, left, right, each one only
    if it is on the board and carries the same value. *)
Definition link_to (self : Pentomino) (v : Z -> Z -> pystr) (row col : Z) (p : ref)
  : list ref :=
  if insideb self p.1 p.2 && bool_decide (v p.1 p.2 = v row col) then [p] else [].

Definition links_of (self : Pentomino) (v : Z -> Z -> pystr) (row col : Z) : list ref :=
  link_to self v row col (row - 1, col) ++ link_to self v row col (row + 1, col)
  ++ link_to self v row col (row, col - 1) ++ link_to self v row col (row, col + 1).

(** [pop'] is [pop] with [l] appended to the neighbours of one node. *)
Definition appended (pop pop' : list Grid) (gi ri ci : nat) (l : list ref) : Prop :=
  skeleton pop' = skeleton pop /\
  forall gi' ri' ci',
    node_at pop' gi' ri' ci' =
    if decide ((gi', ri', ci') = (gi, ri, ci))
    then (fun nd => mkNode (r nd) (c nd) (value nd) (neighbors nd ++ l))
           <$> node_at pop gi ri ci
    else node_at pop gi' ri' ci'.

(** What [get_node] hands out at position [p] of the grid decoded from [b]. *)
Definition snapshot (self : Pentomino) (w : Z) (b : pystr) (p : ref) (nb : option Node)
  : Prop :=
  match nb with
  | None => insideb self p.1 p.2 = false
  | Some a => insideb self p.1 p.2 = true /\ erase a = (p.1, p.2, slice_at self w b p.1 p.2)
  end.

(** The object has the dimensions of [self0] and holds the nodes decoded
    from [bs], whatever their neighbour lists. *)
Definition coherent (self0 : Pentomino) (w : Z) (bs : list pystr) (self : Pentomino) : Prop :=
  m self = m self0 /\ n self = n self0 /\
  skeleton (population self) = skeleton_of self0 w bs /\
  k self = k self0 /\ bitstrings self = bitstrings self0.

(** The cells the link loops have dealt with when they reach cell
    [(row, col)] of grid [gi]. *)
Definition done_before (gi row col : Z) (gi' row' col' : Z) : Prop :=
  gi' < gi \/ (gi' = gi /\ (row' < row \/ (row' = row /\ col' < col))).

(** The state of the link loops: the cells in [D] carry their final
    neighbour lists, the others none yet. *)
Definition link_inv (self0 : Pentomino) (w : Z) (bs : list pystr)
    (D : Z -> Z -> Z -> Prop) (self : Pentomino) : Prop :=
  coherent self0 w bs self /\
  forall gi row col b,
    0 <= gi -> bs !! Z.to_nat gi = Some b -> inside self0 row col ->
    exists nd,
      node_at (population self) (Z.to_nat gi) (Z.to_nat row) (Z.to_nat col) = Some nd
      /\ (D gi row col -> neighbors nd = links_of self0 (slice_at self0 w b) row col)
      /\ (~ D gi row col -> neighbors nd = []).

(** The population [set_population] leaves behind: the dimensions of
    [self0], and for every bit string a grid whose node at [(row, col)] has
    these coordinates, the slice taken at that cell as value, and the links
    to its equal-valued neighbours. *)
Definition decoded (self0 : Pentomino) (w : Z) (bs : list pystr) (self : Pentomino) : Prop :=
  coherent self0 w bs self /\
  forall gi row col b,
    0 <= gi -> bs !! Z.to_nat gi = Some b -> inside self0 row col ->
    node_at (population self) (Z.to_nat gi) (Z.to_nat row) (Z.to_nat col)
    = Some (mkNode row col (slice_at self0 w b row col)
              (links_of self0 (slice_at self0 w b) row col)).

(** The invariant of the object: every grid of the population has a node
    at every position of the board. *)
Definition shaped (self : Pentomino) : Prop :=
  forall gi row col,
    0 <= gi < len (population self) -> inside self row col ->
    is_Some (node_at (population self) (Z.to_nat gi) (Z.to_nat row) (Z.to_nat col)).

(** The board of the header comment: two columns, five rows, and the
    candidate 1111100000, before and after [set_population]. *)
Definition P25 : Pentomino := mkPentomino 2 5 1 [] [py "1111100000"].

Definition P25_linked : Pentomino :=
  Eval vm_compute in
    match set_population P25 [py "1111100000"] with
    | Ok p => p
    | _ => P25
    end.

(** Two positions are 4-adjacent. *)
Definition adjacentb (p q : ref) : bool :=
  ((p.1 =? q.1) && (Z.abs (p.2 - q.2) =? 1))
  || ((p.2 =? q.2) && (Z.abs (p.1 - q.1) =? 1)).

(** Two cells of grid [g] are linked: both on the board, 4-adjacent, and
    carrying the same value. *)
Definition linked (self : Pentomino) (g : Grid) (p q : ref) : Prop :=
  inside self p.1 p.2 /\ inside self q.1 q.2 /\ adjacentb p q = true /\
  exists a b, cell g p.1 p.2 = Some a /\ cell g q.1 q.2 = Some b /\ value a = value b.

(** Grid [g] of an [m] by [n] board is linked up: there is a node at every
    position, it knows its coordinates, and its neighbour list holds
    exactly the positions it is linked to. *)
Definition linked_up (self : Pentomino) (g : Grid) : Prop :=
  forall p, inside self p.1 p.2 ->
    exists nd, cell g p.1 p.2 = Some nd /\ ref_of nd = p /\
      forall q, q ∈ neighbors nd <-> linked self g p q.

(** The positions of the board. *)
Definition all_cells (self : Pentomino) : list ref :=
  list_prod (range 0 (n self)) (range 0 (m self)).

(** A [visited] list of [bfs]: nodes of the grid, no position twice. *)
Definition visited_ok (self : Pentomino) (g : Grid) (visited : list Node) : Prop :=
  (forall x, x ∈ visited ->
     inside self (ref_of x).1 (ref_of x).2 /\ cell g (ref_of x).1 (ref_of x).2 = Some x)
  /\ NoDup (ref_of <$> visited).

(** The invariant of the [while] loop of [bfs] started at [start]. *)
Definition bfs_inv (self : Pentomino) (g : Grid) (start : ref)
    (visited q : list Node) (count : Z) : Prop :=
  visited_ok self g visited /\
  count = len visited /\
  (forall x, x ∈ q -> x ∈ visited) /\
  start ∈ ref_of <$> visited /\
  (forall p, p ∈ ref_of <$> visited -> rtc (linked self g) start p) /\
  (forall x, x ∈ visited -> x ∉ q ->
     forall p, linked self g (ref_of x) p -> p ∈ ref_of <$> visited).

(** The chunks of [w] bits the printer cuts a bit string into, the last
    one possibly shorter. *)
Definition chunk_count (b : pystr) (w : Z) : Z := (len b + w - 1) / w.

Definition chunks (b : pystr) (w : Z) : list pystr :=
  chunk b w <$> range 0 (chunk_count b w).

(** How many distinct values the chunks take. *)
Definition distinct_chunks (b : pystr) (w : Z) : nat :=
  length (remove_dups (chunks b w)).

(** The list [pents] after one more chunk, and after a list of chunks. *)
Definition add_pent (pents : list pystr) (idx : pystr) : list pystr :=
  if bool_decide (idx ∈ pents) then pents else pents ++ [idx].

Definition first_seen (l pents : list pystr) : list pystr := fold_left add_pent l pents.

(** Nine chunks of four bits, all different. *)
Definition nine_values : pystr := py "000000010010001101000101011001111000".

(** * Further notions, for the code around the claims *)

(** What the inner loop of [mutation] makes of [b] when its first draw is
    draw number [taken g]: bit [i] is flipped exactly when draw [i] of the
    loop falls below the rate. *)
Definition mutated (mutation_rate : Q) (g : Rng) (b : pystr) : pystr :=
  imap (fun i ch =>
          if Qlt_bool (draws g (taken g + i)) mutation_rate then flip ch else ch) b.

(** The same for a whole list of bit strings, the draws being taken one
    string after the other. *)
Fixpoint mutated_all (mutation_rate : Q) (g : Rng) (bs : list pystr) : list pystr :=
  match bs with
  | [] => []
  | b :: bs' =>
      mutated mutation_rate g b
      :: mutated_all mutation_rate (mkRng (draws g) (taken g + length b)) bs'
  end.

(** The number of stored bits. *)
Definition total_bits (bs : list pystr) : nat := length (concat bs).

(** [self.bitstrings = bs] *)
Definition set_bitstrings (self : Pentomino) (bs : list pystr) : Pentomino :=
  mkPentomino (m self) (n self) (k self) (population self) bs.


(** The four positions around a cell, in the order the link loops look at
    them: above, below, left, right. *)
Definition around (row col : Z) : list ref :=
  [(row - 1, col); (row + 1, col); (row, col - 1); (row, col + 1)].


(** The glyph the printer shows for a chunk, given the list [pents]. *)
Definition glyph_for (pents : list pystr) (idx : pystr) : pystr :=
  match list_index idx pents with
  | Ok j => match getitem reps j with Ok glyph => glyph | _ => [] end
  | _ => []
  end.

(** What is printed for a row of glyphs of which the first is cell number
    [j]: every glyph with a blank after it, and a line break after every
    cell whose number plus one is a multiple of [m0]. *)
Fixpoint layout (m0 j : Z) (glyphs : list pystr) : list pystr :=
  match glyphs with
  | [] => []
  | glyph :: glyphs' =>
      (glyph ++ py " ")
      :: (if (j + 1) mod m0 =? 0 then [newline] else []) ++ layout m0 (j + 1) glyphs'
  end.


(** The keys of a dictionary, in insertion order, and the sum of a list of
    counts. *)
Definition dict_keys (d : dict) : list pystr := fmap fst d.

Definition sumZ (l : list Z) : Z := foldr Z.add 0 l.

(** The two dictionaries of [fitness] after [seen] cells of a board of
    [cells] cells: the same keys in the same order, every cell seen counted
    once in [total_counts], every kept component size between 1 and
    [cells]. *)
Definition table_inv (cells seen : Z) (st : dict * dict) : Prop :=
  dict_keys st.1 = dict_keys st.2
  /\ sumZ (dict_values st.2) = seen
  /\ Forall (fun x => 1 <= x <= cells) (dict_values st.1).


(** ** The constructor *)

(** [ceil(log(area / 5, 2))], as [bitsize] takes it: exactly, as the float
    computation does for areas below [5 * 2 ^ 29]. *)
Definition ceil_log2_fifth (area : Z) : outcome Z :=
  if area <=? 0 then Raise ValueError
  else if 5 <=? area then Ok (Z.log2_up ((area + 4) / 5))
  else Ok (- Z.log2 (5 / area)).

(** The body of the inner loop of [init_random_representation]. *)
Definition random_bit (st : pystr * Rng) (_ : Z) : outcome (pystr * Rng) :=
  let '(bitstring, g) := st in
  let '(u, g) := random g in
  if Qlt_bool u (1 # 2)
  then Ok (bitstring ++ py "0", g)
  else Ok (bitstring ++ py "1", g).

(** [init_random_representation] *)
Definition init_random_representation (m0 n0 : Z) (g : Rng) : outcome (pystr * Rng) :=
  let bitstring := [] in
  do bitsize <- ceil_log2_fifth (m0 * n0);
  for_each (range 0 (m0 * n0))
    (fun st _ => for_each (range 0 bitsize) random_bit st)
    (bitstring, g).

(** The body of the first loop of the constructor: one more candidate. *)
Definition init_candidate (m0 n0 bsize : Z) (st : Pentomino * Rng) (_ : Z)
  : outcome (Pentomino * Rng) :=
  let '(self, g) := st in
  do '(bstring, g) <- init_random_representation m0 n0 g;
  let self := set_bitstrings self (bitstrings self ++ [bstring]) in
  let grid := populate_grid bstring bsize self in
  Ok (set_pop self (population self ++ [grid]), g).

(** [Pentomino.__init__]: the new object and what is left of the random
    source. *)
Definition Pentomino_init (m0 n0 k0 : Z) (g : Rng) : outcome (Pentomino * Rng) :=
  let self := mkPentomino m0 n0 k0 [] [] in
  do bsize <- bitsize self;
  do '(self, g) <- for_each (range 0 k0) (init_candidate m0 n0 bsize) (self, g);
  do self <- for_each (range 0 k0) link_grid self;
  Ok (self, g).

(** The bits [init_random_representation] writes for [cnt] draws from draw
    number [from] on: a ["0"] where the draw is below one half. *)
Definition random_bits (g : Rng) (from cnt : nat) : pystr :=
  (fun i => if Qlt_bool (draws g i) (1 # 2) then "0"%char else "1"%char)
    <$> seq from cnt.

(** The bit strings of [cnt] candidates of [bits] bits each. *)
Fixpoint random_strings (g : Rng) (from bits cnt : nat) : list pystr :=
  match cnt with
  | O => []
  | S cnt' => random_bits g from bits :: random_strings g (from + bits) bits cnt'
  end.


(** ** The driver *)

(** [max(scores)]: the first of the largest elements. *)
Definition py_max (scores : list Q) : outcome Q :=
  match scores with
  | [] => Raise ValueError
  | s :: rest => Ok (fold_left (fun best x => if Qlt_bool best x then x else best) rest s)
  end.

(** [scores.index(s)] *)
Fixpoint index_of (s : Q) (scores : list Q) : outcome Z :=
  match scores with
  | [] => Raise ValueError
  | x :: rest =>
      if Qeq_bool x s then Ok 0
      else do j <- index_of s rest; Ok (j + 1)
  end.

(** What a run of [main] carries along: the solver object, the source of
    [random.random()], how many times [random.randint] was called, and what
    was printed. *)
Record Run : Type := mkRun {
  obj : Pentomino;
  src : Rng;
  cuts : nat;
  out : list pystr
}.

(** The report of every tenth generation, lines 289 to 294 of [main].
    [str_int] and [str_float] stand for Python's [str] on an [int] and on a
    [float]. *)
Definition report (fuel : nat) (str_int : Z -> pystr) (str_float : Q -> pystr)
    (p : Pentomino) (m0 n0 c0 : Z) (scores : list Q) (printed : list pystr)
  : outcome (list pystr) :=
  do s <- py_max scores;
  do idx <- index_of s scores;
  let printed := printed ++ [py "c: " ++ str_int c0; newline] in
  let printed := printed ++ [py "Score: " ++ str_float s; newline] in
  do best <- getitem (bitstrings p) idx;
  do board <- print_pentomino fuel best m0 n0;
  Ok (printed ++ board ++ [newline]).

(** The body of the breeding loop: two parents, two children.
    [randints j lo hi] is what call number [j] of [random.randint(lo, hi)]
    returns. *)
Definition breed_pair (fuel : nat) (randints : nat -> Z -> Z -> Z)
    (p : Pentomino) (scores : list Q) (sm : Q)
    (st : list pystr * Rng * nat) (_ : Z) : outcome (list pystr * Rng * nat) :=
  let '(children, g, j) := st in
  do '(parents, g) <- selection fuel scores sm g;
  do pair <- crossover p parents (randints j);
  Ok (children ++ pair, g, S j).

(** The body of the [while] loop of [main], for generation counter [c0]. *)
Definition generation (fuel : nat) (randints : nat -> Z -> Z -> Z)
    (str_int : Z -> pystr) (str_float : Q -> pystr)
    (m0 n0 k0 c0 : Z) (st : Run) : outcome Run :=
  let p := obj st in
  do scores <- fitness fuel p (1 # 5);
  let sm := fold_left Qplus scores 0%Q in
  do printed <-
    (if c0 mod 10 =? 0
     then report fuel str_int str_float p m0 n0 c0 scores (out st)
     else Ok (out st));
  let children := [] in
  do '(children, g, j) <-
    for_each (range 0 (Z.quot k0 2)) (breed_pair fuel randints p scores sm)
      (children, src st, cuts st);
  let p := set_bitstrings p children in
  do '(p, _, g) <- mutation p (1 # 20) g;
  do p <- set_population p children;
  Ok (mkRun p g j printed).

(** [while (c < g)], one unit of [gens] for every generation. *)
Fixpoint main_loop (gens fuel : nat) (randints : nat -> Z -> Z -> Z)
    (str_int : Z -> pystr) (str_float : Q -> pystr)
    (m0 n0 k0 g0 c0 : Z) (st : Run) : outcome Run :=
  if c0 <? g0
  then match gens with
       | O => OutOfFuel
       | S gens' =>
           do st <- generation fuel randints str_int str_float m0 n0 k0 c0 st;
           main_loop gens' fuel randints str_int str_float m0 n0 k0 g0 (c0 + 1) st
       end
  else Ok st.

(** [main] *)
Definition main (gens fuel : nat) (randints : nat -> Z -> Z -> Z)
    (str_int : Z -> pystr) (str_float : Q -> pystr)
    (m0 n0 k0 g0 : Z) (g : Rng) : outcome Run :=
  do '(p, g) <- Pentomino_init m0 n0 k0 g;
  let c0 := 1 in
  main_loop gens fuel randints str_int str_float m0 n0 k0 g0 c0 (mkRun p g 0 []).

(** The object holds [cnt] bit strings of [L] characters and the
    population decoded from them, on a board with cells. *)
Definition bred (L : nat) (cnt : Z) (p : Pentomino) : Prop :=
  0 < m p /\ 0 < n p
  /\ len (bitstrings p) = cnt
  /\ Forall (fun b => length b = L) (bitstrings p)
  /\ set_population p (bitstrings p) = Ok p.

(** Every character of [child] stands, at the same position, in one of the
    strings of [pool]. *)
Definition drawn_from (pool : list pystr) (child : pystr) : Prop :=
  forall i ch, child !! i = Some ch -> exists parent, parent ∈ pool /\ parent !! i = Some ch.


(** A string of ["0"]s and ["1"]s, and all such strings of [w] characters. *)
Definition binary (b : pystr) : Prop :=
  Forall (fun ch => ch = "0"%char \/ ch = "1"%char) b.

Fixpoint bit_words (w : nat) : list pystr :=
  match w with
  | O => [[]]
  | S w' => (cons "0"%char <$> bit_words w') ++ (cons "1"%char <$> bit_words w')
  end.

(** What a generation of an even population leaves as it found it: [k0]
    strings of [L] characters with their decoding, every character taken
    from the same position of a string of [pool]. *)
Definition steady (m0 n0 k0 : Z) (L : nat) (pool : list pystr) (draws0 : nat -> Q)
    (st : Run) : Prop :=
  bred L k0 (obj st)
  /\ m (obj st) = m0 /\ n (obj st) = n0 /\ k (obj st) = k0
  /\ Forall (drawn_from pool) (bitstrings (obj st))
  /\ draws (src st) = draws0.

(** The board of the header comment with two candidates, 1111100000 and
    0000011111, after [set_population]. *)
Definition P25_pair : Pentomino :=
  Eval vm_compute in
    match set_population (mkPentomino 2 5 2 [] [py "1111100000"; py "0000011111"])
            [py "1111100000"; py "0000011111"] with
    | Ok p => p
    | _ => P25
    end.


(** ** Solutions *)

(** The value a grid carries at a position, and the cells of [ps] that
    carry value [v]. *)
Definition value_at (g : Grid) (p : ref) : pystr :=
  match cell g p.1 p.2 with
  | Some nd => value nd
  | None => []
  end.

Definition carrying (g : Grid) (v : pystr) (ps : list ref) : list ref :=
  filter (fun p => value_at g p = v) ps.

(** The cells that can be reached from [p] through linked cells are [x]. *)
Definition piece_size (self : Pentomino) (g : Grid) (p : ref) (x : Z) : Prop :=
  exists comp,
    NoDup comp /\ (forall q, q ∈ comp <-> rtc (linked self g) p q) /\ x = len comp.

(** Grid [g] is a solution: the cells that carry the value of a cell are
    five, and they hang together. *)
Definition solved (self : Pentomino) (g : Grid) : Prop :=
  forall p, inside self p.1 p.2 ->
    piece_size self g p 5
    /\ forall q, inside self q.1 q.2 -> value_at g q = value_at g p ->
         rtc (linked self g) p q.

(** The two dictionaries of [fitness] after the cells [ps]: under every
    value seen, [total_counts] holds the number of cells that carry it and
    [connected_counts] the size of the piece of one of them. *)
Definition tables_of (self : Pentomino) (g : Grid) (ps : list ref) (st : dict * dict)
  : Prop :=
  NoDup (dict_keys st.1) /\ NoDup (dict_keys st.2)
  /\ (forall v x, dict_get st.2 v = Some x <-> x = len (carrying g v ps) /\ 0 < x)
  /\ (forall v x, dict_get st.1 v = Some x ->
        exists p, p ∈ ps /\ value_at g p = v /\ piece_size self g p x)
  /\ (forall v, dict_get st.1 v = None -> forall p, p ∈ ps -> value_at g p <> v).

(** How far the entries of a dictionary are from 5, in all. *)
Definition gap (vals : list Z) : Z := sumZ ((fun x => Z.abs (5 - x)) <$> vals).

(** ** Selection in binary64 *)

(** A Python [float] is an IEEE 754 binary64 number. [spec_float] with 53
    bits of precision is its specification: sums and products are rounded
    to the nearest float, ties to even, and a comparison with a value that
    is not a number is false. *)
Abbreviation float64 := spec_float.

Definition fadd : float64 -> float64 -> float64 := SFadd 53 1024.

Definition fmul : float64 -> float64 -> float64 := SFmul 53 1024.

Definition fzero : float64 := S754_zero false.

(** [a < b] and [a >= b] *)
Definition flt (a b : float64) : bool := SFltb a b.

Definition fge (a b : float64) : bool := SFleb b a.

(** The float nearest to [mant * 2 ^ e], and the number a finite float
    stands for. *)
Definition b64 (mant e : Z) : float64 := binary_normalize 53 1024 mant e false.

Definition value64 (f : float64) : Q :=
  match f with
  | S754_finite s mant e =>
      ((if s then - inject_Z (Zpos mant) else inject_Z (Zpos mant)) * 2 ^ e)%Q
  | _ => 0%Q
  end.

(** The draws of [random.random()] as floats. *)
Record Rng64 : Type := mkRng64 {
  draws64 : nat -> float64;
  taken64 : nat
}.

Definition random64 (g : Rng64) : float64 * Rng64 :=
  (draws64 g (taken64 g), mkRng64 (draws64 g) (S (taken64 g))).

(** [while sc < x] of [selection], on floats: [sc] starts at [0] and
    [sc += scores[score]] rounds every sum. *)
Fixpoint roulette64 (fuel : nat) (scores : list float64) (x sc : float64) (score : Z)
  : outcome Z :=
  if flt sc x
  then match fuel with
       | O => OutOfFuel
       | S fuel' =>
           do s <- getitem scores score;
           let sc := fadd sc s in
           let score := if negb (fge sc x) then score + 1 else score in
           roulette64 fuel' scores x sc score
       end
  else Ok score.

(** [selection] on floats *)
Definition selection64 (fuel : nat) (scores : list float64) (max_score : float64)
    (g : Rng64) : outcome (list Z * Rng64) :=
  for_each (range 0 2)
    (fun '(parents, g) _ =>
       let '(u, g) := random64 g in
       let x := fmul u max_score in
       do score <- roulette64 fuel scores x fzero 0;
       Ok (parents ++ [score], g))
    ([], g).

(** The sum of the scores as the code adds them up, from the left, and the
    running sum [scores[0] + ... + scores[i]]. *)
Definition total64 (scores : list float64) : float64 := fold_left fadd scores fzero.

Definition running64 (scores : list float64) (i : nat) : float64 :=
  total64 (take (S i) scores).

(** [i] is the first index at which the running sum reaches [x]. *)
Definition first_reach64 (scores : list float64) (x : float64) (i : Z) : Prop :=
  0 <= i < len scores /\
  fge (running64 scores (Z.to_nat i)) x = true /\
  forall j, 0 <= j < i -> fge (running64 scores (Z.to_nat j)) x = false.

(** A float that is a number and not negative. *)
Definition nonneg64 (f : float64) : Prop :=
  match f with
  | S754_nan => False
  | S754_zero _ => True
  | S754_infinity s => s = false
  | S754_finite s _ _ => s = false
  end.

(** The scores 1, 2^-53, 2^-53, 2^-53, 2^-53: their sum as numbers is
    1 + 2^-51, but every float sum [1 + 2^-53] is rounded back to 1. *)
Definition tiny_scores : list float64 :=
  [b64 1 0; b64 1 (-53); b64 1 (-53); b64 1 (-53); b64 1 (-53)].

(** * Properties *)

(** ** Loops and sequences *)

Lemma range_nil lo hi : hi <= lo -> range lo hi = [].
Proof. intros H. unfold range. by replace (Z.to_nat (hi - lo)) with O by lia. Qed.

Lemma range_snoc lo hi : lo <= hi -> range lo (hi + 1) = range lo hi ++ [hi].
Proof.
  intros H. unfold range.
  replace (Z.to_nat (hi + 1 - lo)) with (S (Z.to_nat (hi - lo))) by lia.
  rewrite seq_S, fmap_app. simpl. do 2 f_equal. lia.
Qed.

Lemma elem_of_range lo hi x : x ∈ range lo hi <-> lo <= x < hi.
Proof.
  unfold range. rewrite list_elem_of_fmap. split.
  - intros (j & -> & Hj). apply elem_of_seq in Hj. lia.
  - intros H. exists (Z.to_nat (x - lo)). split; [lia |]. apply elem_of_seq. lia.
Qed.

Lemma length_range lo hi : length (range lo hi) = Z.to_nat (hi - lo).
Proof. unfold range. by rewrite length_fmap, length_seq. Qed.

Lemma for_each_app {A St} (l1 l2 : list A) (body : St -> A -> outcome St) (s : St) :
  for_each (l1 ++ l2) body s = do s' <- for_each l1 body s; for_each l2 body s'.
Proof.
  revert s. induction l1 as [|x l1 IH]; intros s; simpl; [done |].
  destruct (body s x); simpl; auto.
Qed.

(** A counting loop: the invariant may mention the counter. *)
Lemma for_range_inv {St} (I : Z -> St -> Prop) (hi : Z) (body : St -> Z -> outcome St) (s : St) :
  0 <= hi ->
  I 0 s ->
  (forall j s0, 0 <= j < hi -> I j s0 -> exists s1, body s0 j = Ok s1 /\ I (j + 1) s1) ->
  exists s', for_each (range 0 hi) body s = Ok s' /\ I hi s'.
Proof.
  intros Hhi H0 Hstep.
  assert (forall j : nat, Z.of_nat j <= hi ->
            exists s', for_each (range 0 (Z.of_nat j)) body s = Ok s' /\ I (Z.of_nat j) s') as Hall.
  { induction j as [|j IH]; intros Hj.
    - exists s. by rewrite range_nil.
    - destruct IH as (s1 & Hrun & Hs1); [lia |].
      destruct (Hstep (Z.of_nat j) s1) as (s2 & Hb & Hs2); [lia | done |].
      exists s2. replace (Z.of_nat (S j)) with (Z.of_nat j + 1) by lia.
      rewrite range_snoc, for_each_app, Hrun by lia. simpl. rewrite Hb. done. }
  destruct (Hall (Z.to_nat hi)) as (s' & Hrun & Hs'); [lia |].
  rewrite Z2Nat.id in * by done. eauto.
Qed.

Lemma len_nonneg {A} (l : list A) : 0 <= len l.
Proof. unfold len. lia. Qed.

Lemma len_app {A} (l1 l2 : list A) : len (l1 ++ l2) = len l1 + len l2.
Proof. unfold len. rewrite length_app. lia. Qed.

(** The slice [s[i:i+w]] for a pointer and a width that are not negative. *)
Lemma py_slice_chunk {A} (s : list A) (i w : Z) :
  0 <= i -> 0 <= w ->
  py_slice s i (i + w) = take (Z.to_nat w) (drop (Z.to_nat i) s).
Proof.
  intros Hi Hw. unfold py_slice, py_clamp, len.
  destruct (Z.ltb_spec i 0); [lia |]. destruct (Z.ltb_spec (i + w) 0); [lia |].
  destruct (Z.le_gt_cases i (Z.of_nat (length s))).
  - rewrite (Z.min_l i) by done.
    destruct (Z.le_gt_cases (i + w) (Z.of_nat (length s))).
    + rewrite Z.min_l by done. f_equal. lia.
    + rewrite Z.min_r by lia.
      rewrite (take_ge _ (Z.to_nat w)) by (rewrite length_drop; lia).
      apply take_ge. rewrite length_drop. lia.
  - rewrite !Z.min_r by lia. rewrite Z.sub_diag. simpl.
    by rewrite (drop_ge s (Z.to_nat i)), take_nil by lia.
Qed.

(** [s[0:p]] *)
Lemma py_slice_prefix {A} (s : list A) (p : Z) :
  0 <= p -> py_slice s 0 p = take (Z.to_nat p) s.
Proof. intros Hp. by rewrite <- (Z.add_0_l p), py_slice_chunk by lia. Qed.

(** [s[p:len(s)]] *)
Lemma py_slice_suffix {A} (s : list A) (p : Z) :
  0 <= p -> py_slice s p (len s) = drop (Z.to_nat p) s.
Proof.
  intros Hp. unfold py_slice, py_clamp.
  pose proof (len_nonneg s) as Hl. unfold len in *.
  destruct (Z.ltb_spec p 0); [lia |]. destruct (Z.ltb_spec (Z.of_nat (length s)) 0); [lia |].
  rewrite Z.min_id. destruct (Z.le_gt_cases p (Z.of_nat (length s))).
  - rewrite Z.min_l by done. apply take_ge. rewrite length_drop. lia.
  - rewrite Z.min_r by lia. rewrite !drop_ge by lia. by rewrite take_nil.
Qed.

Lemma getitem_lookup {A} (l : list A) (i : Z) (x : A) :
  0 <= i -> l !! Z.to_nat i = Some x -> getitem l i = Ok x.
Proof.
  intros Hi Hx. unfold getitem, py_index, len.
  apply lookup_lt_Some in Hx as Hlt.
  destruct (Z.ltb_spec i 0); [lia |]. destruct (Z.ltb_spec i (Z.of_nat (length l))); [| lia].
  simpl. by rewrite Hx.
Qed.

(** ** Crossover *)

(** C7. For two parents of the same length and a cut index [p] between [0]
    and that length, [crossover] returns exactly two children: the first [p]
    characters of the mother followed by the father's from [p] on, and the
    first [p] of the father followed by the mother's from [p] on; both have
    the parents' length. *)
Theorem crossover_children (self : Pentomino) (randint : Z -> Z -> Z)
    (i j : Z) (mom dad : pystr) :
  getitem (bitstrings self) i = Ok mom ->
  getitem (bitstrings self) j = Ok dad ->
  length mom = length dad ->
  0 <= randint 0 (len mom) <= len mom ->
  let p := Z.to_nat (randint 0 (len mom)) in
  crossover self [i; j] randint
    = Ok [take p mom ++ drop p dad; take p dad ++ drop p mom]
  /\ length (take p mom ++ drop p dad) = length mom
  /\ length (take p dad ++ drop p mom) = length mom.
Proof.
  intros Hmom Hdad Hlen Hp p. split.
  - unfold crossover. change (getitem [i; j] 0) with (Ok (A:=Z) i).
    change (getitem [i; j] 1) with (Ok (A:=Z) j). simpl.
    rewrite Hmom. simpl. rewrite Hdad. simpl.
    rewrite !py_slice_prefix, !py_slice_suffix by lia. done.
  - unfold len in Hp. rewrite !length_app, !length_take, !length_drop. lia.
Qed.

Lemma crossover_children_witness :
  crossover (mkPentomino 2 5 2 [] [py "11111"; py "00000"]) [0; 1] (fun _ _ => 2)
  = Ok [py "11000"; py "00111"]
  /\ length (py "11000") = 5%nat /\ length (py "00111") = 5%nat.
Proof.
  refine (crossover_children (mkPentomino 2 5 2 [] [py "11111"; py "00000"])
            (fun _ _ => 2) 0 1 (py "11111") (py "00000") _ _ _ _).
  - reflexivity.
  - reflexivity.
  - reflexivity.
  - vm_compute. split; discriminate.
Defined.

(** ** Selection *)

Lemma Qlt_bool_true (a b : Q) : Qlt_bool a b = true <-> (a < b)%Q.
Proof.
  unfold Qlt_bool. rewrite negb_true_iff, <- not_true_iff_false, Qle_bool_iff.
  split; [apply Qnot_le_lt | apply Qlt_not_le].
Qed.

Lemma Qlt_bool_false (a b : Q) : Qlt_bool a b = false <-> (b <= a)%Q.
Proof. unfold Qlt_bool. by rewrite negb_false_iff, Qle_bool_iff. Qed.

Lemma sumQ_snoc (l : list Q) (x : Q) : sumQ (l ++ [x]) = (sumQ l + x)%Q.
Proof. unfold sumQ. by rewrite fold_left_app. Qed.

Lemma running_step (scores : list Q) (j : nat) (s : Q) :
  scores !! j = Some s -> running scores j = (sumQ (take j scores) + s)%Q.
Proof. intros Hs. unfold running. by rewrite (take_S_r _ _ _ Hs), sumQ_snoc. Qed.

(** From index [j] on, the walk stops at the first index that reaches [x]. *)
Lemma roulette_from (scores : list Q) (x : Q) (i : Z) (d : nat) :
  forall (fuel j : nat),
    first_reach scores x i ->
    Z.of_nat j + Z.of_nat d = i ->
    (d < fuel)%nat ->
    (sumQ (take j scores) < x)%Q ->
    roulette fuel scores x (sumQ (take j scores)) (Z.of_nat j) = Ok i.
Proof.
  induction d as [|d IH]; intros fuel j Hfirst Hj Hfuel Hlow;
    destruct Hfirst as (Hi & Hreach & Hbefore);
    (destruct fuel as [|fuel]; [lia |]); simpl;
    (rewrite (proj2 (Qlt_bool_true _ _) Hlow));
    (destruct (lookup_lt_is_Some_2 scores j) as [s Hs]; [unfold len in Hi; lia |]);
    (rewrite (getitem_lookup scores (Z.of_nat j) s) by (rewrite ?Nat2Z.id; done || lia));
    simpl; rewrite <- (running_step scores j s Hs).
  - replace i with (Z.of_nat j) in Hreach by lia. rewrite Nat2Z.id in Hreach.
    rewrite (proj2 (Qle_bool_iff _ _) Hreach). simpl.
    destruct fuel; simpl; rewrite (proj2 (Qlt_bool_false _ _) Hreach); f_equal; lia.
  - assert (running scores j < x)%Q as Hlt.
    { rewrite <- (Nat2Z.id j). apply Hbefore. lia. }
    replace (Qle_bool x (running scores j)) with false
      by (symmetry; apply not_true_iff_false; rewrite Qle_bool_iff; by apply Qlt_not_le).
    simpl. replace (Z.of_nat j + 1) with (Z.of_nat (S j)) by lia.
    unfold running in *. apply IH; [done | lia | lia | done].
Qed.

Lemma roulette_first_reach (fuel : nat) (scores : list Q) (x : Q) (i : Z) :
  first_reach scores x i -> (0 < x)%Q -> (Z.to_nat i < fuel)%nat ->
  roulette fuel scores x 0%Q 0 = Ok i.
Proof.
  intros Hfirst Hx Hfuel.
  apply (roulette_from scores x i (Z.to_nat i) fuel O);
    [done | destruct Hfirst; lia | done | done].
Qed.

(** Either no running sum below index [b] reaches [x], or one of them is the first. *)
Lemma first_reach_search (scores : list Q) (x : Q) (b : nat) :
  (b <= length scores)%nat ->
  (forall j, (j < b)%nat -> (running scores j < x)%Q)
  \/ exists i, first_reach scores x i.
Proof.
  induction b as [|b IH]; intros Hb.
  - left. intros j Hj. lia.
  - destruct IH as [Hall | Hex]; [lia | | by right].
    destruct (Qlt_le_dec (running scores b) x) as [Hlt | Hle].
    + left. intros j Hj. destruct (decide (j = b)) as [-> |]; [done |]. apply Hall. lia.
    + right. exists (Z.of_nat b). unfold first_reach, len. rewrite Nat2Z.id.
      split; [lia |]. split; [done |]. intros j Hj.
      apply Hall. lia.
Qed.

Lemma first_reach_exists (scores : list Q) (x : Q) :
  (0 < x)%Q -> (x <= sumQ scores)%Q -> exists i, first_reach scores x i.
Proof.
  intros Hx Htot.
  destruct (first_reach_search scores x (length scores)) as [Hall | Hex]; [done | | done].
  exfalso. destruct scores as [|s scores].
  - apply (Qlt_irrefl x). by apply Qle_lt_trans with 0%Q.
  - specialize (Hall (length scores)). unfold running in Hall.
    rewrite take_ge in Hall by (simpl; lia).
    apply (Qlt_irrefl x). apply Qle_lt_trans with (sumQ (s :: scores)); [done |].
    apply Hall. simpl. lia.
Qed.

Lemma selection_unfold (fuel : nat) (scores : list Q) (max_score : Q) (g : Rng) :
  selection fuel scores max_score g =
  do i1 <- roulette fuel scores (draws g (taken g) * max_score)%Q 0%Q 0;
  do i2 <- roulette fuel scores (draws g (S (taken g)) * max_score)%Q 0%Q 0;
  Ok ([i1; i2], mkRng (draws g) (S (S (taken g)))).
Proof.
  unfold selection. change (range 0 2) with [0; 1]. simpl.
  destruct (roulette fuel scores (draws g (taken g) * max_score)%Q 0%Q 0); simpl; try done.
  destruct (roulette fuel scores (draws g (S (taken g)) * max_score)%Q 0%Q 0); simpl; done.
Qed.

(** ** Selection in binary64 *)

Lemma SFcompare_antisym (a b : float64) :
  SFcompare b a = option_map CompOpp (SFcompare a b).
Proof.
  destruct a as [sa | sa | | sa ma ea], b as [sb | sb | | sb mb eb]; simpl; try done;
    try (by destruct sa); try (by destruct sb); try (by destruct sa, sb).
  f_equal. destruct sa, sb; try done.
  - rewrite (Z.compare_antisym eb ea). destruct (eb ?= ea); simpl; try done.
    pose proof (Pos.compare_cont_antisym ma mb Eq) as Hanti. simpl in Hanti. by rewrite Hanti.
  - rewrite (Z.compare_antisym eb ea). destruct (eb ?= ea); simpl; try done.
    pose proof (Pos.compare_cont_antisym ma mb Eq) as Hanti. simpl in Hanti. by rewrite Hanti.
Qed.

(** [sc >= x] excludes [sc < x]. *)
Lemma fge_not_flt (s x : float64) : fge s x = true -> flt s x = false.
Proof.
  unfold fge, flt, SFleb, SFltb. rewrite (SFcompare_antisym x s).
  by destruct (SFcompare x s) as [[]|].
Qed.

(** Between numbers, [sc < x] holds when [sc >= x] does not. *)
Lemma flt_of_not_fge (s x : float64) :
  s <> S754_nan -> x <> S754_nan -> fge s x = false -> flt s x = true.
Proof.
  intros Hs Hx. unfold fge, flt, SFleb, SFltb. rewrite (SFcompare_antisym x s).
  destruct (SFcompare x s) as [[]|] eqn:Hc; try done.
  by destruct x, s.
Qed.

Lemma flt_fzero (x : float64) : flt fzero x = true -> nonneg64 x /\ x <> S754_nan.
Proof. destruct x as [s | s | | s mant e]; try done; by destruct s. Qed.

(** Rounding a mantissa that is not negative gives a number of the sign
    asked for. *)
Lemma shr_1_nonneg (mrs : shr_record) : 0 <= shr_m mrs -> 0 <= shr_m (shr_1 mrs).
Proof. destruct mrs as [[|[p|p|]|p] r s]; simpl; lia. Qed.

Lemma iter_pos_shr_1_nonneg (p : positive) :
  forall mrs, 0 <= shr_m mrs -> 0 <= shr_m (SpecFloat.iter_pos shr_1 p mrs).
Proof.
  induction p as [p IH | p IH |]; intros mrs Hm; simpl.
  - by apply IH, IH, shr_1_nonneg.
  - by apply IH, IH.
  - by apply shr_1_nonneg.
Qed.

Lemma shr_fexp_nonneg (mant e : Z) (l : location) :
  0 <= mant -> 0 <= shr_m (shr_fexp 53 1024 mant e l).1.
Proof.
  intros Hm. unfold shr_fexp, shr.
  assert (shr_m (shr_record_of_loc mant l) = mant) as Hrec by (by destruct l as [|[]]).
  destruct (fexp 53 1024 (Zdigits2 mant + e) - e) as [|p|p]; cbn [fst]; try lia.
  apply iter_pos_shr_1_nonneg. lia.
Qed.

Lemma round_nearest_even_nonneg (mant : Z) (l : location) :
  0 <= mant -> 0 <= round_nearest_even mant l.
Proof.
  intros Hm. destruct l as [|[]]; simpl; try lia. destruct (Z.even mant); lia.
Qed.

Lemma binary_round_aux_nonneg (mant e : Z) (l : location) :
  0 <= mant -> nonneg64 (binary_round_aux 53 1024 false mant e l).
Proof.
  intros Hm. unfold binary_round_aux.
  pose proof (shr_fexp_nonneg mant e l Hm) as H1.
  destruct (shr_fexp 53 1024 mant e l) as [mrs' e']. cbn [fst] in H1.
  pose proof (shr_fexp_nonneg _ e' loc_Exact
                (round_nearest_even_nonneg _ (loc_of_shr_record mrs') H1)) as H2.
  destruct (shr_fexp 53 1024 _ e' loc_Exact) as [mrs'' e'']. cbn [fst] in H2.
  destruct (shr_m mrs'') as [|p|p]; [done | | lia].
  by destruct (e'' <=? 1024 - 53).
Qed.

Lemma binary_round_nonneg (mant : positive) (e : Z) :
  nonneg64 (binary_round 53 1024 false mant e).
Proof.
  unfold binary_round. destruct (shl_align _ _ _) as [mz ez].
  by apply binary_round_aux_nonneg.
Qed.

(** The sum of two floats that are numbers and not negative is one. *)
Lemma fadd_nonneg (a b : float64) : nonneg64 a -> nonneg64 b -> nonneg64 (fadd a b).
Proof.
  destruct a as [sa | sa | | sa ma ea], b as [sb | sb | | sb mb eb]; simpl; try done;
    try (by intros -> ->); try (by intros ->); try (by destruct sa, sb).
  intros -> ->. cbn [cond_Zopp]. unfold binary_normalize.
  destruct (_ + _) as [|p|p] eqn:Hsum; [done | apply binary_round_nonneg | lia].
Qed.

Lemma nonneg64_not_nan (f : float64) : nonneg64 f -> f <> S754_nan.
Proof. by destruct f. Qed.

Lemma total64_snoc (l : list float64) (s : float64) :
  total64 (l ++ [s]) = fadd (total64 l) s.
Proof. unfold total64. by rewrite fold_left_app. Qed.

Lemma running64_step (scores : list float64) (j : nat) (s : float64) :
  scores !! j = Some s -> running64 scores j = fadd (total64 (take j scores)) s.
Proof. intros Hs. unfold running64. by rewrite (take_S_r _ _ _ Hs), total64_snoc. Qed.

(** The sums of scores that are not negative are numbers. *)
Lemma total64_nonneg (scores : list float64) :
  Forall nonneg64 scores -> nonneg64 (total64 scores).
Proof.
  induction scores as [|s scores IH] using rev_ind; intros Hall; [done |].
  apply Forall_app in Hall as [Hall Hs]. rewrite total64_snoc.
  apply fadd_nonneg; [by apply IH | by apply (Forall_singleton nonneg64)].
Qed.

(** From index [j] on, the walk stops at the first index that reaches [x]. *)
Lemma roulette64_from (scores : list float64) (x : float64) (i : Z) (d : nat) :
  forall (fuel j : nat),
    Forall nonneg64 scores -> x <> S754_nan ->
    first_reach64 scores x i ->
    Z.of_nat j + Z.of_nat d = i ->
    (d < fuel)%nat ->
    flt (total64 (take j scores)) x = true ->
    roulette64 fuel scores x (total64 (take j scores)) (Z.of_nat j) = Ok i.
Proof.
  induction d as [|d IH]; intros fuel j Hall Hx Hfirst Hj Hfuel Hlow;
    destruct Hfirst as (Hi & Hreach & Hbefore);
    (destruct fuel as [|fuel]; [lia |]); cbn [roulette64];
    rewrite Hlow;
    (destruct (lookup_lt_is_Some_2 scores j) as [s Hs]; [unfold len in Hi; lia |]);
    (rewrite (getitem_lookup scores (Z.of_nat j) s) by (rewrite ?Nat2Z.id; done || lia));
    cbn [obind]; rewrite <- (running64_step scores j s Hs).
  - replace i with (Z.of_nat j) in Hreach by lia. rewrite Nat2Z.id in Hreach.
    rewrite Hreach. cbn [negb].
    destruct fuel; cbn [roulette64]; rewrite (fge_not_flt _ _ Hreach); f_equal; lia.
  - assert (fge (running64 scores j) x = false) as Hlt.
    { rewrite <- (Nat2Z.id j). apply Hbefore. lia. }
    rewrite Hlt. cbn [negb]. replace (Z.of_nat j + 1) with (Z.of_nat (S j)) by lia.
    unfold running64 in *. apply IH; [done | done | done | lia | lia |].
    apply flt_of_not_fge; [| done | done].
    apply nonneg64_not_nan, total64_nonneg, Forall_take. done.
Qed.

Lemma roulette64_first_reach (fuel : nat) (scores : list float64) (x : float64) (i : Z) :
  Forall nonneg64 scores -> first_reach64 scores x i -> flt fzero x = true ->
  (Z.to_nat i < fuel)%nat ->
  roulette64 fuel scores x fzero 0 = Ok i.
Proof.
  intros Hall Hfirst Hx Hfuel.
  apply (roulette64_from scores x i (Z.to_nat i) fuel O);
    [done | by apply flt_fzero | done | destruct Hfirst; lia | done | done].
Qed.

(** Either no running sum below index [b] reaches [x], or one of them is
    the first. *)
Lemma first_reach64_search (scores : list float64) (x : float64) (b : nat) :
  (b <= length scores)%nat ->
  (forall j, (j < b)%nat -> fge (running64 scores j) x = false)
  \/ exists i, first_reach64 scores x i.
Proof.
  induction b as [|b IH]; intros Hb.
  - left. intros j Hj. lia.
  - destruct IH as [Hall | Hex]; [lia | | by right].
    destruct (fge (running64 scores b) x) eqn:Hreach.
    + right. exists (Z.of_nat b). unfold first_reach64, len. rewrite Nat2Z.id.
      split; [lia |]. split; [done |]. intros j Hj.
      apply Hall. lia.
    + left. intros j Hj. destruct (decide (j = b)) as [-> |]; [done |]. apply Hall. lia.
Qed.

Lemma first_reach64_exists (scores : list float64) (x : float64) :
  flt fzero x = true -> fge (total64 scores) x = true ->
  exists i, first_reach64 scores x i.
Proof.
  intros Hx Htot.
  destruct (first_reach64_search scores x (length scores)) as [Hall | Hex]; [done | | done].
  exfalso. destruct scores as [|s scores _] using rev_ind.
  - apply fge_not_flt in Htot. unfold total64 in Htot. simpl in Htot. congruence.
  - rewrite length_app in Hall. simpl in Hall.
    specialize (Hall (length scores) ltac:(lia)). unfold running64 in Hall.
    rewrite take_ge in Hall by (rewrite length_app; simpl; lia). congruence.
Qed.

Lemma selection64_unfold (fuel : nat) (scores : list float64) (max_score : float64)
    (g : Rng64) :
  selection64 fuel scores max_score g =
  do i1 <- roulette64 fuel scores (fmul (draws64 g (taken64 g)) max_score) fzero 0;
  do i2 <- roulette64 fuel scores (fmul (draws64 g (S (taken64 g))) max_score) fzero 0;
  Ok ([i1; i2], mkRng64 (draws64 g) (S (S (taken64 g)))).
Proof.
  unfold selection64. change (range 0 2) with [0; 1]. simpl.
  destruct (roulette64 fuel scores (fmul (draws64 g (taken64 g)) max_score) fzero 0);
    simpl; try done.
  destruct (roulette64 fuel scores (fmul (draws64 g (S (taken64 g))) max_score) fzero 0);
    simpl; done.
Qed.

(** C6, as amended. With the sums taken as the code takes them, in binary64
    and from the left: when every score is positive and both drawn values lie
    in (0, total], the total being the sum of all scores so added up,
    [selection] returns for each draw the smallest index at which the running
    sum of the scores reaches the drawn value, and that index is within the
    bounds of the score sequence. *)
Theorem selection_first_reach (fuel : nat) (scores : list float64) (max_score : float64)
    (g : Rng64) :
  Forall (fun s => flt fzero s = true) scores ->
  let x1 := fmul (draws64 g (taken64 g)) max_score in
  let x2 := fmul (draws64 g (S (taken64 g))) max_score in
  flt fzero x1 = true /\ fge (total64 scores) x1 = true ->
  flt fzero x2 = true /\ fge (total64 scores) x2 = true ->
  (length scores < fuel)%nat ->
  exists i1 i2 g',
    selection64 fuel scores max_score g = Ok ([i1; i2], g')
    /\ first_reach64 scores x1 i1 /\ first_reach64 scores x2 i2.
Proof.
  intros Hpos x1 x2 [Hx1 Ht1] [Hx2 Ht2] Hfuel.
  assert (Forall nonneg64 scores) as Hall.
  { eapply Forall_impl; [exact Hpos |]. intros s Hs. by apply flt_fzero. }
  destruct (first_reach64_exists scores x1 Hx1 Ht1) as [i1 H1].
  destruct (first_reach64_exists scores x2 Hx2 Ht2) as [i2 H2].
  exists i1, i2, (mkRng64 (draws64 g) (S (S (taken64 g)))).
  rewrite selection64_unfold. fold x1 x2.
  rewrite (roulette64_first_reach fuel scores x1 i1),
          (roulette64_first_reach fuel scores x2 i2); try done.
  - destruct H2 as [Hb _]. unfold len in Hb. lia.
  - destruct H1 as [Hb _]. unfold len in Hb. lia.
Qed.

Lemma selection_first_reach_witness :
  exists i1 i2 g',
    selection64 4 [b64 1 0; b64 1 (-1); b64 3 0] (b64 9 (-1))
      (mkRng64 (fun i => if Nat.even i then b64 1 (-2) else b64 3 (-2)) 0)
    = Ok ([i1; i2], g')
    /\ first_reach64 [b64 1 0; b64 1 (-1); b64 3 0] (fmul (b64 1 (-2)) (b64 9 (-1))) i1
    /\ first_reach64 [b64 1 0; b64 1 (-1); b64 3 0] (fmul (b64 3 (-2)) (b64 9 (-1))) i2.
Proof.
  refine (selection_first_reach 4 [b64 1 0; b64 1 (-1); b64 3 0] (b64 9 (-1))
            (mkRng64 (fun i => if Nat.even i then b64 1 (-2) else b64 3 (-2)) 0) _ _ _ _).
  - repeat constructor.
  - split; vm_compute; reflexivity.
  - split; vm_compute; reflexivity.
  - simpl. lia.
Defined.

(** C6, as stated, fails. The scores 1, 2^-53, 2^-53, 2^-53, 2^-53 are
    positive and add up, as numbers, to 1 + 2^-51; the drawn value
    (1 - 2^-53) * (1 + 2^-51) is the float 1 + 2^-52, which lies in
    (0, 1 + 2^-51]. But every sum the walk takes is rounded back to 1, no
    running sum reaches the drawn value, and [selection] ends with an
    [IndexError] at [scores[5]]. *)
Lemma selection_exact_total_raises :
  Forall (fun s => (0 < value64 s)%Q) tiny_scores
  /\ (sumQ (value64 <$> tiny_scores) == value64 (b64 (2 ^ 51 + 1) (-51)))%Q
  /\ (0 < value64 (fmul (b64 (2 ^ 53 - 1) (-53)) (b64 (2 ^ 51 + 1) (-51))))%Q
  /\ (value64 (fmul (b64 (2 ^ 53 - 1) (-53)) (b64 (2 ^ 51 + 1) (-51)))
      <= sumQ (value64 <$> tiny_scores))%Q
  /\ selection64 6 tiny_scores (b64 (2 ^ 51 + 1) (-51))
       (mkRng64 (fun _ => b64 (2 ^ 53 - 1) (-53)) 0)
     = Raise IndexError.
Proof.
  split; [repeat constructor |]. split; [vm_compute; reflexivity |].
  split; [vm_compute; reflexivity |]. split; [vm_compute; discriminate |].
  vm_compute. reflexivity.
Qed.

Lemma roulette_nonpositive (fuel : nat) (scores : list Q) (x : Q) :
  (x <= 0)%Q -> roulette fuel scores x 0%Q 0 = Ok 0.
Proof.
  intros Hx. destruct fuel; simpl; by rewrite (proj2 (Qlt_bool_false _ _) Hx).
Qed.

Lemma Qmult_nonneg_nonpos (u t : Q) : (0 <= u)%Q -> (t <= 0)%Q -> (u * t <= 0)%Q.
Proof.
  intros Hu Ht. unfold Qle in *. destruct u as [un ud], t as [tn td]. simpl in *. nia.
Qed.

(** C8, as amended. When the total handed to [selection] is not positive
    and the draws are not negative, there is no test and no error: both
    drawn values are at most zero, the accumulation loop is never entered,
    and index 0 is returned for both parents, whatever the scores are. *)
Theorem selection_nonpositive_total (fuel : nat) (scores : list Q) (max_score : Q) (g : Rng) :
  (max_score <= 0)%Q ->
  (0 <= draws g (taken g))%Q ->
  (0 <= draws g (S (taken g)))%Q ->
  selection fuel scores max_score g = Ok ([0; 0], mkRng (draws g) (S (S (taken g)))).
Proof.
  intros Hmax Hu1 Hu2. rewrite selection_unfold.
  rewrite !roulette_nonpositive by (by apply Qmult_nonneg_nonpos). done.
Qed.

Lemma selection_nonpositive_total_witness :
  selection 3 [-1#1; -2#1]%Q (-3#1)%Q (mkRng (fun _ => 1#2) 0)
  = Ok ([0; 0], mkRng (fun _ => 1#2) 2).
Proof.
  refine (selection_nonpositive_total 3 [-1#1; -2#1]%Q (-3#1)%Q (mkRng (fun _ => 1#2) 0) _ _ _).
  - vm_compute. discriminate.
  - vm_compute. discriminate.
  - vm_compute. discriminate.
Defined.

(** C8, as stated, fails: with scores [-1, -2] (total -3) the call neither
    raises nor falls back on a choice that depends on the draws; it returns
    index 0 twice, for a low draw and for a high one alike. *)
Lemma selection_nonpositive_silent :
  selection 3 [-1#1; -2#1]%Q (-3#1)%Q (mkRng (fun _ => 1#10) 0)
    = Ok ([0; 0], mkRng (fun _ => 1#10) 2)
  /\ selection 3 [-1#1; -2#1]%Q (-3#1)%Q (mkRng (fun _ => 9#10) 0)
    = Ok ([0; 0], mkRng (fun _ => 9#10) 2)
  /\ (forall e, selection 3 [-1#1; -2#1]%Q (-3#1)%Q (mkRng (fun _ => 1#10) 0) <> Raise e).
Proof.
  split; [reflexivity |]. split; [reflexivity |]. intros e. discriminate.
Qed.

(** ** Mutation *)

Lemma getitem_middle {A} (l1 l2 : list A) (x : A) :
  getitem (l1 ++ x :: l2) (len l1) = Ok x.
Proof.
  apply getitem_lookup; [apply len_nonneg |]. unfold len. rewrite Nat2Z.id.
  by rewrite list_lookup_middle.
Qed.

(** A draw below the rate flips the bit under the index. *)
Lemma mutate_bit_flip (rate : Q) (pre suf : pystr) (ch : ascii) (g : Rng) :
  Qlt_bool (draws g (taken g)) rate = true ->
  mutate_bit rate (pre ++ ch :: suf, g) (len pre)
  = Ok (pre ++ flip ch :: suf, mkRng (draws g) (S (taken g))).
Proof.
  intros Hlt. unfold mutate_bit, random. simpl. rewrite Hlt.
  rewrite getitem_middle. simpl.
  pose proof (len_nonneg pre) as Hpre.
  rewrite py_slice_prefix, py_slice_suffix by lia.
  unfold len. rewrite Nat2Z.id.
  replace (Z.to_nat (Z.of_nat (length pre) + 1)) with (length pre + 1)%nat by lia.
  rewrite take_app_length, drop_app_add. simpl. rewrite drop_0.
  unfold flip, py. simpl.
  destruct (bool_decide_reflect ([ch] = ["1"%char])) as [Heq | Hne].
  - injection Heq as ->. done.
  - by rewrite bool_decide_eq_false_2 by congruence.
Qed.

(** With rate 1 the inner loop rebinds the local [b] to the complement. *)
Lemma mutate_string_rate_one (b : pystr) (g : Rng) :
  (forall i, (draws g i < 1)%Q) ->
  for_each (range 0 (len b)) (mutate_bit 1%Q) (b, g)
  = Ok (complement b, mkRng (draws g) (taken g + length b)).
Proof.
  intros Hdraw.
  destruct (for_range_inv
    (fun j st => st = (complement (take (Z.to_nat j) b) ++ drop (Z.to_nat j) b,
                       mkRng (draws g) (taken g + Z.to_nat j)))
    (len b) (mutate_bit 1%Q) (b, g)) as (st & Hrun & Hst).
  - apply len_nonneg.
  - simpl. rewrite drop_0, Nat.add_0_r. by destruct g.
  - intros j st Hj ->. unfold len in Hj.
    destruct (lookup_lt_is_Some_2 b (Z.to_nat j)) as [ch Hch]; [lia |].
    pose (pre := complement (take (Z.to_nat j) b)).
    pose (suf := drop (S (Z.to_nat j)) b).
    assert (j = len pre) as Hpre.
    { unfold pre, complement, len. rewrite length_fmap, length_take. lia. }
    exists (pre ++ flip ch :: suf, mkRng (draws g) (S (taken g + Z.to_nat j))). split.
    + rewrite (drop_S _ _ _ Hch). fold pre suf.
      etrans; [| apply (mutate_bit_flip 1%Q pre suf ch
                          (mkRng (draws g) (taken g + Z.to_nat j)))].
      * by rewrite <- Hpre.
      * simpl. apply Qlt_bool_true, Hdraw.
    + replace (Z.to_nat (j + 1)) with (S (Z.to_nat j)) by lia.
      rewrite (take_S_r _ _ _ Hch). unfold complement. rewrite fmap_app, <- app_assoc.
      simpl. do 2 f_equal. lia.
  - etrans; [exact Hrun |]. rewrite Hst. unfold len. rewrite Nat2Z.id.
    by rewrite take_ge, drop_ge, app_nil_r by lia.
Qed.

(** With rate 0 the inner loop leaves the local [b] as it is. *)
Lemma mutate_string_rate_zero (b : pystr) (g : Rng) :
  (forall i, (0 <= draws g i)%Q) ->
  for_each (range 0 (len b)) (mutate_bit 0%Q) (b, g)
  = Ok (b, mkRng (draws g) (taken g + length b)).
Proof.
  intros Hdraw.
  destruct (for_range_inv
    (fun j st => st = (b, mkRng (draws g) (taken g + Z.to_nat j)))
    (len b) (mutate_bit 0%Q) (b, g)) as (st & Hrun & Hst).
  - apply len_nonneg.
  - simpl. rewrite Nat.add_0_r. by destruct g.
  - intros j st Hj ->. eexists. split; [| reflexivity].
    unfold mutate_bit, random. simpl.
    rewrite (proj2 (Qlt_bool_false _ _) (Hdraw _)).
    do 2 f_equal. f_equal. lia.
  - etrans; [exact Hrun |]. rewrite Hst. unfold len. by rewrite Nat2Z.id.
Qed.

(** Whatever the rate, a call whose inner loops rebind the local to
    [f b] returns the object it was given. *)
Lemma mutation_outer (self : Pentomino) (rate : Q) (f : pystr -> pystr) (bs : list pystr) :
  forall (locals : list pystr) (g : Rng),
    (forall b g', draws g' = draws g ->
       for_each (range 0 (len b)) (mutate_bit rate) (b, g')
       = Ok (f b, mkRng (draws g') (taken g' + length b))) ->
    exists g',
      for_each bs
        (fun '(self, locals, g) b =>
           do '(b', g') <- for_each (range 0 (len b)) (mutate_bit rate) (b, g);
           Ok (self, locals ++ [b'], g'))
        (self, locals, g)
      = Ok (self, locals ++ fmap f bs, g').
Proof.
  induction bs as [|b bs IH]; intros locals g Hin; simpl.
  - exists g. by rewrite app_nil_r.
  - rewrite Hin by done. simpl.
    destruct (IH (locals ++ [f b]) (mkRng (draws g) (taken g + length b))) as [g' Hg'].
    { intros b0 g0 Hg0. apply Hin. done. }
    exists g'. rewrite Hg'. by rewrite <- app_assoc.
Qed.

(** The first half of C1: with rate 0 nothing is changed. *)
Lemma mutation_rate_zero (self : Pentomino) (g : Rng) :
  (forall i, (0 <= draws g i)%Q) ->
  exists g', mutation self 0%Q g = Ok (self, bitstrings self, g').
Proof.
  intros Hdraw. unfold mutation.
  destruct (mutation_outer self 0%Q (fun b => b) (bitstrings self) [] g) as [g' Hg'].
  - intros b g' Hg'. apply mutate_string_rate_zero. intros i. rewrite Hg'. apply Hdraw.
  - exists g'. rewrite Hg'. simpl. by rewrite list_fmap_id.
Qed.

(** With rate 1 every complement is computed in the local variable, and the
    stored bit strings are the ones the call started with. *)
Lemma mutation_rate_one (self : Pentomino) (g : Rng) :
  (forall i, (draws g i < 1)%Q) ->
  exists g', mutation self 1%Q g = Ok (self, fmap complement (bitstrings self), g').
Proof.
  intros Hdraw. unfold mutation.
  destruct (mutation_outer self 1%Q complement (bitstrings self) [] g) as [g' Hg'].
  - intros b g' Hg'. apply mutate_string_rate_one. intros i. rewrite Hg'. apply Hdraw.
  - exists g'. by rewrite Hg'.
Qed.

(** C1 fails in the code for rate 1. For the stored bit string "0101" and
    rate 1 the claim asks for the stored string "1010"; the call computes
    "1010" in its local variable and returns with "0101" still stored. *)
Theorem mutation_rate_one_store_unchanged :
  let self := mkPentomino 2 2 1 [] [py "0101"] in
  exists self' locals g',
    mutation self 1%Q (mkRng (fun _ => 1#2) 0) = Ok (self', locals, g')
    /\ locals = [py "1010"]
    /\ bitstrings self' = [py "0101"]
    /\ bitstrings self' <> fmap complement (bitstrings self).
Proof.
  simpl. eexists _, _, _. split; [reflexivity |].
  split; [reflexivity |]. split; [reflexivity |]. discriminate.
Qed.

(** ** Decoding: the populate loops *)

Lemma range_0_nat_ind (P : Z -> Prop) :
  P 0 -> (forall hi, 0 <= hi -> P hi -> P (hi + 1)) -> forall hi, 0 <= hi -> P hi.
Proof.
  intros H0 Hstep hi Hhi. rewrite <- (Z2Nat.id hi) by done.
  induction (Z.to_nat hi) as [|j IH]; [done |].
  replace (Z.of_nat (S j)) with (Z.of_nat j + 1) by lia. apply Hstep; [lia | done].
Qed.

Lemma populate_row_spec (b : pystr) (w row i hi : Z) :
  0 <= hi ->
  populate_row b w row (range 0 hi) i
  = (fmap (fun col => new_Node row col (py_slice b (i + col * w) (i + col * w + w)))
         (range 0 hi),
     i + hi * w).
Proof.
  revert hi. apply range_0_nat_ind.
  - unfold populate_row. simpl. f_equal. lia.
  - intros hi Hhi IH. unfold populate_row in *.
    rewrite range_snoc, fold_left_app, IH, fmap_app by done. simpl.
    f_equal. lia.
Qed.

Lemma populate_grid_spec (b : pystr) (w : Z) (self : Pentomino) :
  0 <= m self ->
  populate_grid b w self
  = fmap (fun row => fmap (fun col => new_Node row col (slice_at self w b row col))
                      (range 0 (m self)))
        (range 0 (n self)).
Proof.
  intros Hm. unfold populate_grid.
  destruct (Z.le_gt_cases 0 (n self)) as [Hn | Hn]; [| by rewrite (range_nil 0 (n self)) by lia].
  set (rowf := fun row => fmap (fun col => new_Node row col (slice_at self w b row col))
                            (range 0 (m self))).
  set (step := fun '(grid, i) row =>
                 let '(lst, i') := populate_row b w row (range 0 (m self)) i in
                 (grid ++ [lst], i')).
  enough (forall hi, 0 <= hi ->
            fold_left step (range 0 hi) ([], 0) = (fmap rowf (range 0 hi), hi * m self * w))
    as Hall by (by rewrite Hall).
  apply range_0_nat_ind; [done |].
  intros hi Hhi IH. rewrite range_snoc, fold_left_app, IH, fmap_app by done. simpl.
  rewrite populate_row_spec by done. f_equal; [| lia]. do 2 f_equal.
  unfold rowf. apply list_fmap_ext. intros _ col _. unfold slice_at, pointer.
  replace (hi * m self * w + col * w) with ((hi * m self + col) * w) by lia. done.
Qed.

Lemma populate_spec (w : Z) (self : Pentomino) (bs : list pystr) :
  populate w self bs = fmap (fun b => populate_grid b w self) bs.
Proof.
  unfold populate.
  enough (forall acc, fold_left (fun pop b => pop ++ [populate_grid b w self]) bs acc
                      = acc ++ fmap (fun b => populate_grid b w self) bs) as H by apply H.
  induction bs as [|b bs IH]; intros acc; simpl; [by rewrite app_nil_r |].
  by rewrite IH, <- app_assoc.
Qed.

Lemma skeleton_populate (w : Z) (self : Pentomino) (bs : list pystr) :
  0 <= m self -> skeleton (populate w self bs) = skeleton_of self w bs.
Proof.
  intros Hm. unfold skeleton, skeleton_of. rewrite populate_spec, <- list_fmap_compose.
  apply list_fmap_ext. intros _ b _. simpl.
  rewrite populate_grid_spec, <- list_fmap_compose by done.
  apply list_fmap_ext. intros _ row _. simpl. by rewrite <- list_fmap_compose.
Qed.

Lemma lookup_range (hi : Z) (i : nat) :
  Z.of_nat i < hi -> range 0 hi !! i = Some (Z.of_nat i).
Proof.
  intros Hi. unfold range. rewrite list_lookup_fmap, lookup_seq_lt by lia. done.
Qed.

(** Freshly populated nodes have no neighbours. *)
Lemma node_at_populate (w : Z) (self : Pentomino) (bs : list pystr) (gi ri ci : nat) (nd : Node) :
  0 <= m self ->
  node_at (populate w self bs) gi ri ci = Some nd -> neighbors nd = [].
Proof.
  intros Hm. unfold node_at. rewrite populate_spec, list_lookup_fmap.
  destruct (bs !! gi) as [b|]; simpl; [| done].
  rewrite populate_grid_spec, list_lookup_fmap by done.
  destruct (range 0 (n self) !! ri) as [row|]; simpl; [| done].
  rewrite list_lookup_fmap. destruct (range 0 (m self) !! ci); simpl; [| done].
  by intros [= <-].
Qed.

(** ** Decoding: the neighbour loops *)

Lemma py_index_nonneg (len0 i : Z) :
  0 <= i < len0 -> py_index len0 i = Ok (Z.to_nat i).
Proof.
  intros Hi. unfold py_index.
  destruct (Z.ltb_spec i 0); [lia |]. by destruct (Z.ltb_spec i len0); [| lia].
Qed.

Lemma insideb_spec (self : Pentomino) (row col : Z) :
  insideb self row col = true <-> inside self row col.
Proof. unfold insideb, inside. rewrite !andb_true_iff. lia. Qed.

Lemma node_eta (nd : Node) : mkNode (r nd) (c nd) (value nd) (neighbors nd) = nd.
Proof. by destruct nd. Qed.

Lemma appended_refl (pop : list Grid) (gi ri ci : nat) :
  appended pop pop gi ri ci [].
Proof.
  split; [done |]. intros gi' ri' ci'. case_decide as Heq; [| done].
  injection Heq as -> -> ->. destruct (node_at pop gi ri ci) as [nd|]; simpl; [| done].
  by rewrite app_nil_r, node_eta.
Qed.

Lemma appended_trans (pop1 pop2 pop3 : list Grid) (gi ri ci : nat) (l1 l2 : list ref) :
  appended pop1 pop2 gi ri ci l1 -> appended pop2 pop3 gi ri ci l2 ->
  appended pop1 pop3 gi ri ci (l1 ++ l2).
Proof.
  intros [Hs1 H1] [Hs2 H2]. split; [congruence |].
  intros gi' ri' ci'. rewrite H2. case_decide as Heq.
  - rewrite H1. rewrite decide_True by done.
    destruct (node_at pop1 gi ri ci); simpl; [| done]. by rewrite <- app_assoc.
  - rewrite H1. by rewrite decide_False by done.
Qed.

Lemma append_neighbor_spec (self : Pentomino) (gi row col : Z) (nb nd : Node) :
  0 <= gi -> 0 <= row -> 0 <= col ->
  node_at (population self) (Z.to_nat gi) (Z.to_nat row) (Z.to_nat col) = Some nd ->
  exists pop',
    append_neighbor self gi row col nb = Ok (set_pop self pop')
    /\ appended (population self) pop' (Z.to_nat gi) (Z.to_nat row) (Z.to_nat col) [ref_of nb].
Proof.
  intros Hgi Hrow Hcol Hnd. unfold node_at in Hnd.
  destruct (population self !! Z.to_nat gi) as [g|] eqn:Hg; [| done].
  destruct (g !! Z.to_nat row) as [line|] eqn:Hline; [| done].
  apply lookup_lt_Some in Hg as Hglt. apply lookup_lt_Some in Hline as Hrlt.
  apply lookup_lt_Some in Hnd as Hclt.
  unfold append_neighbor.
  rewrite py_index_nonneg by (unfold len; lia). simpl.
  rewrite (getitem_lookup _ _ _ Hgi Hg). simpl.
  rewrite py_index_nonneg by (unfold len; lia). simpl.
  rewrite (getitem_lookup _ _ _ Hrow Hline). simpl.
  rewrite py_index_nonneg by (unfold len; lia). simpl.
  rewrite (getitem_lookup _ _ _ Hcol Hnd). simpl.
  eexists. split; [reflexivity |]. split.
  - unfold skeleton. rewrite list_fmap_insert. apply list_insert_id.
    rewrite list_lookup_fmap, Hg. simpl. f_equal. symmetry.
    rewrite list_fmap_insert. apply list_insert_id.
    rewrite list_lookup_fmap, Hline. simpl. f_equal. symmetry.
    rewrite list_fmap_insert. apply list_insert_id.
    by rewrite list_lookup_fmap, Hnd.
  - intros gi' ri' ci'. unfold node_at.
    destruct (decide (gi' = Z.to_nat gi)) as [-> | Hne1].
    + rewrite list_lookup_insert_eq, Hg by done.
      destruct (decide (ri' = Z.to_nat row)) as [-> | Hne2].
      * rewrite list_lookup_insert_eq, Hline by done.
        destruct (decide (ci' = Z.to_nat col)) as [-> | Hne3].
        -- rewrite list_lookup_insert_eq, decide_True, Hnd by done. done.
        -- rewrite list_lookup_insert_ne, decide_False by congruence. done.
      * rewrite list_lookup_insert_ne, decide_False by congruence. done.
    + rewrite list_lookup_insert_ne, decide_False by congruence. done.
Qed.

Lemma get_node_outside (self : Pentomino) (gi row col : Z) :
  ~ inside self row col -> get_node self gi row col = Ok None.
Proof.
  intros Hout. unfold get_node.
  destruct ((0 <=? row) && (0 <=? col) && (row <? n self) && (col <? m self)) eqn:Hc; [| done].
  exfalso. apply Hout. rewrite !andb_true_iff in Hc. unfold inside. lia.
Qed.

Lemma get_node_inside (self : Pentomino) (gi row col : Z) (nd : Node) :
  0 <= gi -> inside self row col ->
  node_at (population self) (Z.to_nat gi) (Z.to_nat row) (Z.to_nat col) = Some nd ->
  get_node self gi row col = Ok (Some nd).
Proof.
  intros Hgi [Hrow Hcol] Hnd. unfold get_node.
  replace ((0 <=? row) && (0 <=? col) && (row <? n self) && (col <? m self)) with true
    by (symmetry; rewrite !andb_true_iff; lia).
  unfold node_at in Hnd.
  destruct (population self !! Z.to_nat gi) as [g|] eqn:Hg; [| done].
  destruct (g !! Z.to_nat row) as [line|] eqn:Hline; [| done].
  rewrite (getitem_lookup _ _ _ Hgi Hg). simpl.
  rewrite (getitem_lookup _ _ _ (proj1 Hrow) Hline). simpl.
  by rewrite (getitem_lookup _ _ _ (proj1 Hcol) Hnd).
Qed.

Section Linking.
Variables (self0 : Pentomino) (w : Z) (bs : list pystr).

Lemma skeleton_node (pop : list Grid) (gi row col : Z) (b : pystr) :
  skeleton pop = skeleton_of self0 w bs ->
  0 <= gi -> bs !! Z.to_nat gi = Some b -> inside self0 row col ->
  exists nd,
    node_at pop (Z.to_nat gi) (Z.to_nat row) (Z.to_nat col) = Some nd
    /\ erase nd = (row, col, slice_at self0 w b row col).
Proof.
  intros Hskel Hgi Hb [Hrow Hcol].
  apply (f_equal (fun l => l !! Z.to_nat gi)) in Hskel. revert Hskel.
  unfold skeleton, skeleton_of, node_at. rewrite !list_lookup_fmap, Hb.
  destruct (pop !! Z.to_nat gi) as [g|]; simpl; [| done]. intros [= Hg].
  apply (f_equal (fun l => l !! Z.to_nat row)) in Hg. revert Hg.
  rewrite !list_lookup_fmap, lookup_range by lia.
  destruct (g !! Z.to_nat row) as [line|]; simpl; [| done]. intros [= Hline].
  apply (f_equal (fun l => l !! Z.to_nat col)) in Hline. revert Hline.
  rewrite !list_lookup_fmap, lookup_range by lia.
  destruct (line !! Z.to_nat col) as [nd|]; simpl; [| done]. intros Hnd.
  exists nd. split; [done |]. injection Hnd as H1 H2 H3.
  unfold erase. rewrite H1, H2, H3, !Z2Nat.id by lia. done.
Qed.

Lemma coherent_set_pop (self : Pentomino) (pop' : list Grid) :
  coherent self0 w bs self -> skeleton pop' = skeleton (population self) ->
  coherent self0 w bs (set_pop self pop').
Proof. intros (Hm & Hn & Hs & Hk & Hb) Hs'. repeat split; simpl; congruence. Qed.

Lemma get_node_snapshot (self : Pentomino) (gi row col : Z) (b : pystr) :
  coherent self0 w bs self ->
  0 <= gi -> bs !! Z.to_nat gi = Some b ->
  exists nb, get_node self gi row col = Ok nb /\ snapshot self0 w b (row, col) nb.
Proof.
  intros (Hm & Hn & Hs & _) Hgi Hb.
  destruct (insideb self0 row col) eqn:Hin.
  - apply insideb_spec in Hin as Hin'.
    destruct (skeleton_node _ gi row col b Hs Hgi Hb Hin') as (nd & Hnd & Her).
    exists (Some nd). split; [| by split].
    apply get_node_inside; [done | | done]. unfold inside in *. by rewrite Hm, Hn.
  - exists None. split; [| done]. apply get_node_outside.
    intros Hin'. unfold inside in Hin'. rewrite Hm, Hn in Hin'.
    apply insideb_spec in Hin'. congruence.
Qed.

Lemma link_if_spec (self : Pentomino) (gi row col : Z) (b : pystr) (p : ref)
    (nb : option Node) :
  coherent self0 w bs self ->
  0 <= gi -> bs !! Z.to_nat gi = Some b -> inside self0 row col ->
  snapshot self0 w b p nb ->
  exists pop',
    link_if self gi row col nb = Ok (set_pop self pop')
    /\ appended (population self) pop' (Z.to_nat gi) (Z.to_nat row) (Z.to_nat col)
         (link_to self0 (slice_at self0 w b) row col p).
Proof.
  intros Hco Hgi Hb Hin Hsnap.
  assert (set_pop self (population self) = self) as Hself by (by destruct self).
  unfold link_to. destruct nb as [a|]; simpl in *.
  - destruct Hsnap as [Hp Ha]. rewrite Hp. simpl.
    destruct Hco as (Hm & Hn & Hs & _).
    destruct (skeleton_node _ gi row col b Hs Hgi Hb Hin) as (me & Hme & Her).
    rewrite (get_node_inside self gi row col me);
      [| done | unfold inside in *; by rewrite Hm, Hn | done]. simpl.
    injection Ha as Har Hac Hav. injection Her as _ _ Hmv. rewrite Hav, Hmv.
    destruct (bool_decide (slice_at self0 w b p.1 p.2 = slice_at self0 w b row col)).
    + destruct (append_neighbor_spec self gi row col a me) as (pop' & Hrun & Happ);
        [lia | unfold inside in Hin; lia | unfold inside in Hin; lia | done |].
      exists pop'. split; [done |].
      replace [p] with [ref_of a]; [done |]. unfold ref_of. rewrite Har, Hac. by destruct p.
    + exists (population self). rewrite Hself. split; [done | apply appended_refl].
  - rewrite Hsnap. simpl. exists (population self). rewrite Hself.
    split; [done | apply appended_refl].
Qed.

Lemma link_cell_spec (self : Pentomino) (gi row col : Z) (b : pystr) :
  coherent self0 w bs self ->
  0 <= gi -> bs !! Z.to_nat gi = Some b -> inside self0 row col ->
  exists pop',
    link_cell gi row self col = Ok (set_pop self pop')
    /\ appended (population self) pop' (Z.to_nat gi) (Z.to_nat row) (Z.to_nat col)
         (links_of self0 (slice_at self0 w b) row col).
Proof.
  intros Hco Hgi Hb Hin. unfold link_cell, links_of.
  destruct (get_node_snapshot self gi (row - 1) col b Hco Hgi Hb) as (above & -> & Ha).
  destruct (get_node_snapshot self gi (row + 1) col b Hco Hgi Hb) as (below & -> & Hbe).
  destruct (get_node_snapshot self gi row (col - 1) b Hco Hgi Hb) as (left & -> & Hl).
  destruct (get_node_snapshot self gi row (col + 1) b Hco Hgi Hb) as (right & -> & Hr).
  simpl.
  destruct (link_if_spec self gi row col b _ above Hco Hgi Hb Hin Ha) as (pop1 & -> & H1).
  simpl. pose proof (coherent_set_pop self pop1 Hco (proj1 H1)) as Hco1.
  destruct (link_if_spec _ gi row col b _ below Hco1 Hgi Hb Hin Hbe) as (pop2 & -> & H2).
  simpl in *. pose proof (coherent_set_pop _ pop2 Hco1 (proj1 H2)) as Hco2.
  destruct (link_if_spec _ gi row col b _ left Hco2 Hgi Hb Hin Hl) as (pop3 & -> & H3).
  simpl in *. pose proof (coherent_set_pop _ pop3 Hco2 (proj1 H3)) as Hco3.
  destruct (link_if_spec _ gi row col b _ right Hco3 Hgi Hb Hin Hr) as (pop4 & -> & H4).
  simpl in *. exists pop4. split; [done |].
  eapply appended_trans; [exact H1 |]. eapply appended_trans; [exact H2 |].
  eapply appended_trans; [exact H3 | exact H4].
Qed.

Lemma link_inv_ext (D D' : Z -> Z -> Z -> Prop) (self : Pentomino) :
  (forall gi row col, 0 <= gi -> inside self0 row col -> (D gi row col <-> D' gi row col)) ->
  link_inv self0 w bs D self -> link_inv self0 w bs D' self.
Proof.
  intros Hiff [Hco Hall]. split; [done |]. intros gi row col b Hgi Hb Hin.
  destruct (Hall gi row col b Hgi Hb Hin) as (nd & Hnd & Hd & Hnd').
  exists nd. split; [done |]. rewrite <- (Hiff gi row col Hgi Hin). done.
Qed.

Lemma link_cell_inv (D : Z -> Z -> Z -> Prop) (self : Pentomino) (gi row col : Z) :
  link_inv self0 w bs D self ->
  0 <= gi < len bs -> inside self0 row col -> ~ D gi row col ->
  exists self',
    link_cell gi row self col = Ok self'
    /\ link_inv self0 w bs
         (fun gi' row' col' => D gi' row' col' \/ (gi', row', col') = (gi, row, col)) self'.
Proof.
  intros [Hco Hall] Hgi Hin Hfresh.
  destruct (lookup_lt_is_Some_2 bs (Z.to_nat gi)) as [b Hb]; [unfold len in Hgi; lia |].
  destruct (link_cell_spec self gi row col b Hco (proj1 Hgi) Hb Hin) as (pop' & Hrun & Hs & Happ).
  exists (set_pop self pop'). split; [done |]. split; [by apply coherent_set_pop |].
  intros gi' row' col' b' Hgi' Hb' Hin'. simpl. rewrite Happ.
  destruct (Hall gi' row' col' b' Hgi' Hb' Hin') as (nd' & Hnd' & Hd' & Hnd'').
  case_decide as Heq.
  - injection Heq as Hg Hr Hc.
    assert (gi' = gi /\ row' = row /\ col' = col) as (-> & -> & ->)
      by (unfold inside in *; lia).
    rewrite Hnd'. simpl. eexists. split; [reflexivity |]. simpl.
    rewrite (Hnd'' Hfresh). simpl. split; [| tauto].
    intros _. congruence.
  - exists nd'. split; [done |]. split.
    + intros [Hd | Hk]; [by apply Hd' |]. injection Hk as -> -> ->. done.
    + intros Hnot. apply Hnd''. tauto.
Qed.

Hypothesis Hm0 : 0 <= m self0.
Hypothesis Hn0 : 0 <= n self0.

Lemma link_row_inv (self : Pentomino) (gi row : Z) :
  link_inv self0 w bs (done_before gi row 0) self ->
  0 <= gi < len bs -> 0 <= row < n self0 ->
  exists self',
    link_row gi self row = Ok self'
    /\ link_inv self0 w bs (done_before gi (row + 1) 0) self'.
Proof.
  intros Hinv Hgi Hrow. unfold link_row.
  rewrite (proj1 (proj1 Hinv)).
  destruct (for_range_inv (fun j s => link_inv self0 w bs (done_before gi row j) s)
              (m self0) (link_cell gi row) self) as (self' & Hrun & Hinv'); [done | done | |].
  - intros j s Hj Hs0.
    destruct (link_cell_inv _ s gi row j Hs0 Hgi) as (s1 & Hrun & Hs1);
      [done | unfold done_before; lia |].
    exists s1. split; [done |]. revert Hs1. apply link_inv_ext.
    intros gi' row' col' _ _. unfold done_before. split.
    + intros [Hd | Hk]; [lia |]. injection Hk as -> -> ->. lia.
    + intros Hd. destruct (decide (gi' = gi /\ row' = row /\ col' = j)) as [(-> & -> & ->) | Hne];
        [by right | left; lia].
  - exists self'. split; [done |]. revert Hinv'. apply link_inv_ext.
    intros gi' row' col' _ [_ Hcol']. unfold done_before. lia.
Qed.

Lemma link_grid_inv (self : Pentomino) (gi : Z) :
  link_inv self0 w bs (done_before gi 0 0) self ->
  0 <= gi < len bs ->
  exists self',
    link_grid self gi = Ok self'
    /\ link_inv self0 w bs (done_before (gi + 1) 0 0) self'.
Proof.
  intros Hinv Hgi. unfold link_grid.
  rewrite (proj1 (proj2 (proj1 Hinv))).
  destruct (for_range_inv (fun j s => link_inv self0 w bs (done_before gi j 0) s)
              (n self0) (link_row gi) self) as (self' & Hrun & Hinv'); [done | done | |].
  - intros j s Hj Hs0. by apply link_row_inv.
  - exists self'. split; [done |]. revert Hinv'. apply link_inv_ext.
    intros gi' row' col' _ [Hrow' Hcol']. unfold done_before. lia.
Qed.

Lemma link_all_inv (self : Pentomino) :
  link_inv self0 w bs (done_before 0 0 0) self ->
  exists self',
    for_each (range 0 (len bs)) link_grid self = Ok self'
    /\ link_inv self0 w bs (done_before (len bs) 0 0) self'.
Proof.
  intros Hinv.
  apply (for_range_inv (fun j s => link_inv self0 w bs (done_before j 0 0) s));
    [apply len_nonneg | done |].
  intros j s Hj Hs0. by apply link_grid_inv.
Qed.

End Linking.

(** [set_population] returns, and what it returns is the decoded population. *)
Lemma set_population_spec (self : Pentomino) (bs : list pystr) (w : Z) :
  0 <= m self -> 0 <= n self -> bitsize self = Ok w ->
  exists self', set_population self bs = Ok self' /\ decoded self w bs self'.
Proof.
  intros Hm Hn Hw. unfold set_population.
  change (bitsize (set_pop self [])) with (bitsize self). rewrite Hw. simpl.
  set (self1 := set_pop (set_pop self []) (populate w (set_pop self []) bs)).
  assert (link_inv self w bs (done_before 0 0 0) self1) as Hinv.
  { assert (coherent self w bs self1) as Hco.
    { repeat split; try done. simpl. by rewrite skeleton_populate. }
    split; [done |]. intros gi row col b Hgi Hb Hin.
    destruct (skeleton_node self w bs _ gi row col b (proj1 (proj2 (proj2 Hco))) Hgi Hb Hin)
      as (nd & Hnd & _).
    exists nd. split; [done |]. split.
    - unfold done_before, inside in *. lia.
    - intros _. exact (node_at_populate w (set_pop self []) bs _ _ _ nd Hm Hnd). }
  clearbody self1.
  destruct (link_all_inv self w bs Hm Hn self1 Hinv) as (self' & Hrun & [Hco Hall]).
  exists self'. split; [done |]. split; [done |].
  intros gi row col b Hgi Hb Hin.
  destruct (Hall gi row col b Hgi Hb Hin) as (nd & Hnd & Hd & _).
  destruct (skeleton_node self w bs _ gi row col b (proj1 (proj2 (proj2 Hco))) Hgi Hb Hin)
    as (nd' & Hnd' & Her).
  rewrite Hnd. f_equal. rewrite Hnd' in Hnd. injection Hnd as ->.
  rewrite <- (node_eta nd). injection Her as -> -> ->. f_equal.
  apply Hd. unfold done_before. apply lookup_lt_Some in Hb. unfold len. lia.
Qed.

Lemma decoded_length (self self' : Pentomino) (w : Z) (bs : list pystr) :
  decoded self w bs self' -> length (population self') = length bs.
Proof.
  intros [(_ & _ & Hs & _) _]. apply (f_equal length) in Hs.
  unfold skeleton, skeleton_of in Hs. by rewrite !length_fmap in Hs.
Qed.

Lemma decoded_shaped (self self' : Pentomino) (w : Z) (bs : list pystr) :
  decoded self w bs self' -> shaped self'.
Proof.
  intros Hdec gi row col Hgi Hin. pose proof (decoded_length _ _ _ _ Hdec) as Hlen.
  destruct Hdec as [(Hm & Hn & _) Hall].
  destruct (lookup_lt_is_Some_2 bs (Z.to_nat gi)) as [b Hb]; [unfold len in Hgi; lia |].
  rewrite (Hall gi row col b); [done | lia | done |].
  unfold inside in *. by rewrite <- Hm, <- Hn.
Qed.

(** ** [get_node] *)

(** C10. On an object whose grids have a node at every position of the
    board, and for the index of one of its candidates, [get_node] always
    returns: [None] exactly when [row < 0], [col < 0], [row >= n] or
    [col >= m], and otherwise the node stored at that row and column of
    that candidate's grid. It never raises. *)
Theorem get_node_total (self : Pentomino) (idx row col : Z) :
  shaped self ->
  0 <= idx < len (population self) ->
  exists res,
    get_node self idx row col = Ok res
    /\ (res = None <-> row < 0 \/ col < 0 \/ row >= n self \/ col >= m self)
    /\ (forall nd, res = Some nd ->
          node_at (population self) (Z.to_nat idx) (Z.to_nat row) (Z.to_nat col) = Some nd).
Proof.
  intros Hshape Hidx.
  destruct (decide (inside self row col)) as [Hin | Hout].
  - destruct (Hshape idx row col Hidx Hin) as [nd Hnd].
    exists (Some nd). split; [apply get_node_inside; [lia | done | done] |].
    split; [| congruence]. unfold inside in Hin. split; [done | lia].
  - exists None. split; [by apply get_node_outside |]. split; [| done].
    split; [| done]. intros _. unfold inside in Hout. lia.
Qed.

Lemma P25_set_population : set_population P25 [py "1111100000"] = Ok P25_linked.
Proof. vm_compute. reflexivity. Qed.

Lemma P25_decoded : decoded P25 1 [py "1111100000"] P25_linked.
Proof.
  destruct (set_population_spec P25 [py "1111100000"] 1) as (self' & Hrun & Hdec);
    [simpl; lia | simpl; lia | reflexivity |].
  rewrite P25_set_population in Hrun. by injection Hrun as <-.
Qed.

Lemma get_node_total_witness :
  exists res,
    get_node P25_linked 0 2 1 = Ok res
    /\ (res = None <-> 2 < 0 \/ 1 < 0 \/ 2 >= n P25_linked \/ 1 >= m P25_linked)
    /\ (forall nd, res = Some nd ->
          node_at (population P25_linked) (Z.to_nat 0) (Z.to_nat 2) (Z.to_nat 1) = Some nd).
Proof.
  apply (get_node_total P25_linked 0 2 1).
  - exact (decoded_shaped _ _ _ _ P25_decoded).
  - vm_compute. split; [discriminate | reflexivity].
Defined.

(** ** Decoding: the round trip *)

Lemma range_app (a b : Z) :
  0 <= a -> 0 <= b -> range 0 (a + b) = range 0 a ++ ((fun j => a + j) <$> range 0 b).
Proof.
  intros Ha. revert b. apply range_0_nat_ind.
  - rewrite Z.add_0_r. simpl. by rewrite app_nil_r.
  - intros b Hb IH. rewrite Z.add_assoc, !range_snoc, IH, fmap_app by lia.
    by rewrite <- app_assoc.
Qed.

Lemma fmap_concat {A B} (f : A -> B) (ls : list (list A)) :
  f <$> concat ls = concat (fmap (M := list) f <$> ls).
Proof. induction ls as [|l ls IH]; simpl; [done |]. by rewrite fmap_app, IH. Qed.

(** Rows of [cols] cells, one after the other, enumerate the cells in
    row-major order. *)
Lemma concat_rows {A} (f : Z -> A) (cols rows : Z) :
  0 <= cols -> 0 <= rows ->
  concat ((fun row => (fun col => f (row * cols + col)) <$> range 0 cols) <$> range 0 rows)
  = f <$> range 0 (rows * cols).
Proof.
  intros Hc. revert rows. apply range_0_nat_ind; [done |].
  intros rows Hr IH. rewrite range_snoc, fmap_app, concat_app, IH by done. simpl.
  replace ((rows + 1) * cols) with (rows * cols + cols) by lia.
  rewrite range_app, fmap_app, app_nil_r by lia. f_equal.
  by rewrite <- list_fmap_compose.
Qed.

Lemma concat_chunks (b : pystr) (w cells : Z) :
  0 <= w -> 0 <= cells ->
  concat (chunk b w <$> range 0 cells) = take (Z.to_nat (cells * w)) b.
Proof.
  intros Hw. revert cells. apply range_0_nat_ind; [done |].
  intros cells Hc IH. rewrite range_snoc, fmap_app, concat_app, IH by done. simpl.
  rewrite app_nil_r. unfold chunk. rewrite take_take_drop. f_equal. lia.
Qed.

Lemma slice_at_chunk (self : Pentomino) (w : Z) (b : pystr) (row col : Z) :
  0 <= w -> 0 <= row -> 0 <= col -> 0 <= m self ->
  slice_at self w b row col = chunk b w (row * m self + col).
Proof.
  intros Hw Hrow Hcol Hm. unfold slice_at, pointer, chunk. apply py_slice_chunk; nia.
Qed.

Lemma cell_node_at (pop : list Grid) (gi : nat) (g : Grid) (row col : Z) :
  pop !! gi = Some g -> 0 <= row -> 0 <= col ->
  cell g row col = node_at pop gi (Z.to_nat row) (Z.to_nat col).
Proof.
  intros Hg Hrow Hcol. unfold cell, node_at. rewrite Hg. simpl.
  destruct (Z.leb_spec 0 row); [| lia]. by destruct (Z.leb_spec 0 col); [| lia].
Qed.

(** The values of the cells of a decoded grid, row after row. *)
Lemma decoded_values (self self' : Pentomino) (w : Z) (bs : list pystr)
    (gi : nat) (b : pystr) (g : Grid) :
  0 <= w -> 0 <= m self -> 0 <= n self ->
  decoded self w bs self' -> bs !! gi = Some b -> population self' !! gi = Some g ->
  value <$> concat g = chunk b w <$> range 0 (n self * m self).
Proof.
  intros Hw Hm Hn [(_ & _ & Hs & _) _] Hb Hg.
  apply (f_equal (fun l => l !! gi)) in Hs. revert Hs.
  unfold skeleton, skeleton_of. rewrite !list_lookup_fmap, Hb, Hg. simpl. intros [= Hs].
  rewrite <- concat_rows by done.
  transitivity (snd <$> (erase <$> concat g)).
  { rewrite <- list_fmap_compose. done. }
  rewrite !fmap_concat, Hs, <- !list_fmap_compose. f_equal.
  apply list_fmap_ext. intros i row Hrow. simpl.
  apply list_elem_of_lookup_2, elem_of_range in Hrow.
  rewrite <- list_fmap_compose. apply list_fmap_ext. intros j col Hcol. simpl.
  apply list_elem_of_lookup_2, elem_of_range in Hcol.
  apply slice_at_chunk; lia.
Qed.

(** C3. For a bit string of length [m * n * w], the decoded grid has
    [m * n] cells, the cell at row [row] and column [col] carries exactly
    the chunk of [w] bits at its row-major position [row * m + col], and
    putting the values of the cells one after the other, row by row, gives
    the bit string back. *)
Theorem decode_round_trip (self : Pentomino) (bs : list pystr) (w : Z)
    (gi : nat) (b : pystr) :
  0 < m self -> 0 < n self -> bitsize self = Ok w ->
  bs !! gi = Some b -> len b = m self * n self * w ->
  exists self' g,
    set_population self bs = Ok self'
    /\ population self' !! gi = Some g
    /\ length (concat g) = Z.to_nat (m self * n self)
    /\ (forall row col, inside self row col ->
          exists nd, cell g row col = Some nd /\ r nd = row /\ c nd = col
                     /\ value nd = chunk b w (row * m self + col))
    /\ concat (value <$> concat g) = b.
Proof.
  intros Hm Hn Hw Hb Hlen.
  assert (0 <= w) as Hw0 by (pose proof (len_nonneg b); nia).
  destruct (set_population_spec self bs w) as (self' & Hrun & Hdec); [lia | lia | done |].
  pose proof (decoded_length _ _ _ _ Hdec) as Hl.
  destruct (lookup_lt_is_Some_2 (population self') gi) as [g Hg].
  { rewrite Hl. by apply lookup_lt_Some in Hb. }
  pose proof (decoded_values self self' w bs gi b g Hw0 ltac:(lia) ltac:(lia) Hdec Hb Hg)
    as Hvals.
  exists self', g. split; [done |]. split; [done |]. split; [| split].
  - apply (f_equal length) in Hvals. rewrite !length_fmap, length_range in Hvals.
    rewrite Hvals. f_equal. lia.
  - intros row col Hin. destruct Hdec as [_ Hall].
    specialize (Hall (Z.of_nat gi) row col b). rewrite Nat2Z.id in Hall.
    specialize (Hall ltac:(lia) Hb Hin).
    unfold inside in Hin.
    rewrite (cell_node_at _ gi g row col Hg) by lia. rewrite Hall.
    eexists. split; [reflexivity |]. simpl. repeat split.
    apply slice_at_chunk; lia.
  - rewrite Hvals, concat_chunks by lia.
    apply take_ge. unfold len in Hlen. lia.
Qed.

Lemma decode_round_trip_witness :
  exists self' g,
    set_population P25 [py "1111100000"] = Ok self'
    /\ population self' !! 0%nat = Some g
    /\ length (concat g) = Z.to_nat (m P25 * n P25)
    /\ (forall row col, inside P25 row col ->
          exists nd, cell g row col = Some nd /\ r nd = row /\ c nd = col
                     /\ value nd = chunk (py "1111100000") 1 (row * m P25 + col))
    /\ concat (value <$> concat g) = py "1111100000".
Proof.
  apply (decode_round_trip P25 [py "1111100000"] 1 0 (py "1111100000")).
  - simpl. lia.
  - simpl. lia.
  - reflexivity.
  - reflexivity.
  - reflexivity.
Defined.

(** ** The neighbour relation *)

Lemma elem_of_link_to (self : Pentomino) (v : Z -> Z -> pystr) (row col : Z) (p q : ref) :
  q ∈ link_to self v row col p <-> q = p /\ inside self p.1 p.2 /\ v p.1 p.2 = v row col.
Proof.
  unfold link_to. destruct (insideb self p.1 p.2) eqn:Hin; simpl.
  - apply insideb_spec in Hin. case_bool_decide as Hv.
    + rewrite list_elem_of_singleton. tauto.
    + rewrite elem_of_nil. tauto.
  - rewrite elem_of_nil. split; [done |]. intros (_ & Hin' & _).
    apply insideb_spec in Hin'. congruence.
Qed.

Lemma elem_of_links_of (self : Pentomino) (v : Z -> Z -> pystr) (row col : Z) (q : ref) :
  q ∈ links_of self v row col <->
  inside self q.1 q.2 /\ adjacentb (row, col) q = true /\ v q.1 q.2 = v row col.
Proof.
  unfold links_of. rewrite !elem_of_app, !elem_of_link_to.
  unfold adjacentb. rewrite orb_true_iff, !andb_true_iff, !Z.eqb_eq.
  destruct q as [qr qc]. simpl. split.
  - intros [(Hq & Hin & Hv) | [(Hq & Hin & Hv) | [(Hq & Hin & Hv) | (Hq & Hin & Hv)]]];
      injection Hq as -> ->; (split; [done |]); (split; [lia | done]).
  - intros (Hin & Hadj & Hv).
    assert ((qr = row - 1 /\ qc = col) \/ (qr = row + 1 /\ qc = col)
            \/ (qr = row /\ qc = col - 1) \/ (qr = row /\ qc = col + 1))
      as [[-> ->] | [[-> ->] | [[-> ->] | [-> ->]]]] by lia; tauto.
Qed.

(** Every grid [set_population] builds is linked up. *)
Lemma decoded_linked_up (self self' : Pentomino) (w : Z) (bs : list pystr)
    (gi : nat) (g : Grid) :
  decoded self w bs self' -> population self' !! gi = Some g -> linked_up self g.
Proof.
  intros Hdec Hg. pose proof (decoded_length _ _ _ _ Hdec) as Hl.
  destruct (lookup_lt_is_Some_2 bs gi) as [b Hb].
  { rewrite <- Hl. by apply lookup_lt_Some in Hg. }
  destruct Hdec as [_ Hall].
  assert (forall p, inside self p.1 p.2 ->
            cell g p.1 p.2 = Some (mkNode p.1 p.2 (slice_at self w b p.1 p.2)
                                     (links_of self (slice_at self w b) p.1 p.2))) as Hcell.
  { intros p Hin. specialize (Hall (Z.of_nat gi) p.1 p.2 b). rewrite Nat2Z.id in Hall.
    rewrite (cell_node_at _ gi g _ _ Hg) by (unfold inside in Hin; lia).
    apply Hall; [lia | done | done]. }
  intros p Hin. eexists. split; [by apply Hcell |]. split; [by destruct p |].
  intros q. simpl. rewrite elem_of_links_of. unfold linked. split.
  - intros (Hq & Hadj & Hv). split; [done |]. split; [done |]. split.
    + by destruct p.
    + eexists _, _. split; [by apply Hcell |]. split; [by apply Hcell |]. done.
  - intros (_ & Hq & Hadj & a & b' & Ha & Hb' & Hv).
    rewrite Hcell in Ha, Hb' by done. injection Ha as <-. injection Hb' as <-.
    split; [done |]. split; [by destruct p | done].
Qed.

Lemma adjacentb_sym (p q : ref) : adjacentb p q = adjacentb q p.
Proof.
  unfold adjacentb. rewrite (Z.eqb_sym p.1 q.1), (Z.eqb_sym p.2 q.2).
  by replace (p.2 - q.2) with (- (q.2 - p.2)) by lia; replace (p.1 - q.1) with (- (q.1 - p.1)) by lia;
    rewrite !Z.abs_opp.
Qed.

Lemma bool_decide_as (P : Prop) `{Decision P} (b : bool) :
  (P <-> b = true) -> bool_decide P = b.
Proof.
  intros HP. destruct b.
  - apply bool_decide_eq_true_2, HP. done.
  - apply bool_decide_eq_false_2. intros HP'. by apply HP in HP'.
Qed.

Lemma deref_cell (g : Grid) (p : ref) :
  deref g p = match cell g p.1 p.2 with Some nd => Ok nd | None => Dangling end.
Proof.
  unfold deref, cell, node_at. destruct ((0 <=? p.1) && (0 <=? p.2)); [| done]. simpl.
  destruct (g !! Z.to_nat p.1) as [line|]; [| done]. by destruct (line !! Z.to_nat p.2).
Qed.

Section Graph.
Variables (self : Pentomino) (g : Grid).
Hypothesis Hup : linked_up self g.

(** Two nodes of the grid are equal for [Node.__eq__] exactly when they
    are the same node. *)
Lemma Node_eq_same (x y : Node) :
  cell g (ref_of x).1 (ref_of x).2 = Some x ->
  cell g (ref_of y).1 (ref_of y).2 = Some y ->
  Node_eq x y = bool_decide (ref_of x = ref_of y).
Proof.
  intros Hx Hy. symmetry. apply bool_decide_as. unfold Node_eq.
  rewrite !andb_true_iff, !Z.eqb_eq, bool_decide_eq_true. split.
  - intros Heq. rewrite Heq, Hy in Hx. injection Hx as ->. done.
  - intros ((Hr & Hc) & _). unfold ref_of. congruence.
Qed.

Lemma deref_inside (p : ref) :
  inside self p.1 p.2 ->
  exists nd, deref g p = Ok nd /\ cell g p.1 p.2 = Some nd /\ ref_of nd = p.
Proof.
  intros Hin. destruct (Hup p Hin) as (nd & Hnd & Href & _).
  exists nd. rewrite deref_cell, Hnd. done.
Qed.

Lemma refs_contain_spec (l : list ref) (a : Node) :
  cell g (ref_of a).1 (ref_of a).2 = Some a ->
  (forall q, q ∈ l -> inside self q.1 q.2) ->
  refs_contain g l a = Ok (bool_decide (ref_of a ∈ l)).
Proof.
  intros Ha. induction l as [|q l IH]; intros Hl; simpl.
  - done.
  - destruct (deref_inside q) as (x & -> & Hx & Href); [apply Hl; left |]. simpl.
    rewrite Node_eq_same by (by rewrite ?Href). rewrite Href.
    destruct (decide (q = ref_of a)) as [Heq | Hne].
    + rewrite (bool_decide_eq_true_2 (q = ref_of a)) by done.
      f_equal. symmetry. apply bool_decide_eq_true_2. rewrite Heq. left.
    + rewrite (bool_decide_eq_false_2 (q = ref_of a)) by done.
      rewrite IH by (intros q' Hq'; apply Hl; by right). f_equal.
      apply bool_decide_ext. rewrite elem_of_cons.
      split; [by right | intros [Heq | Hin]; [congruence | done]].
Qed.

(** Membership in a neighbour list, decided by position and value. *)
Lemma refs_contain_neighbors (p q : ref) (a b : Node) :
  inside self p.1 p.2 -> inside self q.1 q.2 ->
  cell g p.1 p.2 = Some a -> cell g q.1 q.2 = Some b ->
  refs_contain g (neighbors b) a
  = Ok (adjacentb p q && bool_decide (value a = value b)).
Proof.
  intros Hp Hq Ha Hb.
  destruct (Hup p Hp) as (a' & Ha' & Hrefa & _).
  destruct (Hup q Hq) as (b' & Hb' & Hrefb & Hnb).
  assert (a' = a) as -> by congruence. assert (b' = b) as -> by congruence.
  rewrite refs_contain_spec.
  - f_equal. apply bool_decide_as. rewrite Hrefa, Hnb.
    rewrite andb_true_iff, bool_decide_eq_true, (adjacentb_sym p q). unfold linked. split.
    + intros (_ & _ & Hadj & b0 & a0 & Hb0 & Ha0 & Hv). split; [done | congruence].
    + intros [Hadj Hv]. split; [done |]. split; [done |]. split; [done |].
      exists b, a. done.
  - by rewrite Hrefa.
  - intros q' Hq'. apply Hnb in Hq'. apply Hq'.
Qed.

(** [Node.is_connected] gives the same answer whichever node it is called on. *)
Lemma is_connected_spec (p q : ref) (a b : Node) :
  inside self p.1 p.2 -> inside self q.1 q.2 ->
  cell g p.1 p.2 = Some a -> cell g q.1 q.2 = Some b ->
  is_connected g a b = Ok (adjacentb p q && bool_decide (value a = value b)).
Proof.
  intros Hp Hq Ha Hb. unfold is_connected.
  rewrite (refs_contain_neighbors p q a b) by done. simpl.
  destruct (adjacentb p q && bool_decide (value a = value b)) eqn:Hlink; [| done].
  rewrite (refs_contain_neighbors q p b a) by done.
  rewrite adjacentb_sym, <- Hlink. do 2 f_equal. apply bool_decide_ext. done.
Qed.

End Graph.

(** C4. In every grid [set_population] builds, for any two cells [A] and
    [B] of the board, [A] appears in the neighbour list of [B] exactly when
    [B] appears in the neighbour list of [A]; both happen exactly when the
    two cells are 4-adjacent and carry the same value. *)
Theorem neighbors_symmetric (self : Pentomino) (bs : list pystr) (w : Z)
    (gi : nat) (p q : ref) :
  0 <= m self -> 0 <= n self -> bitsize self = Ok w ->
  (gi < length bs)%nat ->
  inside self p.1 p.2 -> inside self q.1 q.2 ->
  exists self' g A B,
    set_population self bs = Ok self'
    /\ population self' !! gi = Some g
    /\ cell g p.1 p.2 = Some A /\ cell g q.1 q.2 = Some B
    /\ refs_contain g (neighbors B) A = Ok (adjacentb p q && bool_decide (value A = value B))
    /\ refs_contain g (neighbors A) B = Ok (adjacentb p q && bool_decide (value A = value B)).
Proof.
  intros Hm Hn Hw Hgi Hp Hq.
  destruct (set_population_spec self bs w Hm Hn Hw) as (self' & Hrun & Hdec).
  destruct (lookup_lt_is_Some_2 (population self') gi) as [g Hg].
  { by rewrite (decoded_length _ _ _ _ Hdec). }
  pose proof (decoded_linked_up _ _ _ _ _ _ Hdec Hg) as Hup.
  destruct (Hup p Hp) as (A & HA & _). destruct (Hup q Hq) as (B & HB & _).
  exists self', g, A, B. repeat (split; [done |]). split.
  - by apply (refs_contain_neighbors self g Hup p q).
  - rewrite (refs_contain_neighbors self g Hup q p B A) by done.
    rewrite adjacentb_sym. do 2 f_equal. apply bool_decide_ext. done.
Qed.

Lemma neighbors_symmetric_witness :
  exists self' g A B,
    set_population P25 [py "1111100000"] = Ok self'
    /\ population self' !! 0%nat = Some g
    /\ cell g 1 0 = Some A /\ cell g 2 0 = Some B
    /\ refs_contain g (neighbors B) A
        = Ok (adjacentb (1, 0) (2, 0) && bool_decide (value A = value B))
    /\ refs_contain g (neighbors A) B
        = Ok (adjacentb (1, 0) (2, 0) && bool_decide (value A = value B)).
Proof.
  apply (neighbors_symmetric P25 [py "1111100000"] 1 0 (1, 0) (2, 0)).
  - simpl. lia.
  - simpl. lia.
  - reflexivity.
  - simpl. lia.
  - vm_compute. repeat split; discriminate.
  - vm_compute. repeat split; discriminate.
Defined.

(** ** Breadth-first counting *)

Section Bfs.
Variables (self : Pentomino) (g : Grid).
Hypothesis Hup : linked_up self g.

Lemma visited_length (visited : list Node) :
  visited_ok self g visited ->
  (length visited <= Z.to_nat (n self) * Z.to_nat (m self))%nat.
Proof.
  intros [Hnodes Hnodup].
  rewrite <- (length_fmap ref_of visited).
  replace (Z.to_nat (n self) * Z.to_nat (m self))%nat with (length (all_cells self)).
  - apply submseteq_length, NoDup_submseteq; [done |].
    intros p Hp. apply list_elem_of_fmap in Hp as (x & -> & Hx).
    destruct (Hnodes x Hx) as [[Hr Hc] _].
    apply list_elem_of_In. destruct (ref_of x) as [xr xc]. apply in_prod_iff.
    split; apply list_elem_of_In, elem_of_range; simpl in *; lia.
  - unfold all_cells. rewrite length_prod, !length_range. f_equal; lia.
Qed.

Lemma Node_in_spec (visited : list Node) (nb : Node) :
  visited_ok self g visited ->
  cell g (ref_of nb).1 (ref_of nb).2 = Some nb ->
  Node_in nb visited = bool_decide (ref_of nb ∈ ref_of <$> visited).
Proof.
  intros [Hnodes _] Hnb. symmetry. apply bool_decide_as.
  unfold Node_in. rewrite existsb_exists, list_elem_of_fmap. split.
  - intros (x & Href & Hx). exists x. split; [by apply list_elem_of_In |].
    rewrite (Node_eq_same g); [by apply bool_decide_eq_true_2 | by apply Hnodes | done].
  - intros (x & Hx & Heq). apply list_elem_of_In in Hx. exists x. split; [| done].
    rewrite (Node_eq_same g) in Heq; [| by apply Hnodes | done].
    by apply bool_decide_eq_true_1 in Heq.
Qed.

(** The [for] loop over a neighbour list adds the positions not yet
    visited, each once. *)
Lemma bfs_visit_loop (L : list ref) :
  forall (v q : list Node) (count : Z),
    visited_ok self g v ->
    (forall p, p ∈ L -> inside self p.1 p.2) ->
    exists new,
      for_each L (bfs_visit g) (v, q, count) = Ok (v ++ new, q ++ new, count + len new)
      /\ visited_ok self g (v ++ new)
      /\ (forall x, x ∈ new -> ref_of x ∈ L)
      /\ (forall p, p ∈ L -> p ∈ ref_of <$> (v ++ new)).
Proof.
  induction L as [|p L IH]; intros v q count Hv HL.
  - exists []. simpl. rewrite !app_nil_r, Z.add_0_r.
    split; [done |]. split; [done |]. split; intros x Hx; by apply elem_of_nil in Hx.
  - destruct (deref_inside self g Hup p) as (nb & Hde & Hnb & Href); [apply HL; left |].
    simpl. unfold bfs_visit at 1. rewrite Hde. simpl.
    rewrite Node_in_spec by (by rewrite ?Href). rewrite Href.
    destruct (decide (p ∈ ref_of <$> v)) as [Hseen | Hnew].
    + rewrite bool_decide_eq_true_2 by done.
      destruct (IH v q count Hv) as (new & Hrun & Hok & Hsub & Hall);
        [intros p' Hp'; apply HL; by right |].
      exists new. split; [done |]. split; [done |]. split.
      * intros x Hx. right. by apply Hsub.
      * intros p' [-> | Hp']%elem_of_cons; [| by apply Hall].
        rewrite fmap_app. apply elem_of_app. by left.
    + rewrite bool_decide_eq_false_2 by done.
      assert (visited_ok self g (v ++ [nb])) as Hv'.
      { destruct Hv as [Hnodes Hnodup]. split.
        - intros x [Hx | Hx]%elem_of_app; [by apply Hnodes |].
          apply list_elem_of_singleton in Hx as ->. rewrite Href. split; [| done].
          apply HL. left.
        - rewrite fmap_app. apply NoDup_app. split; [done |]. split.
          + intros x Hx Hx'. simpl in Hx'. apply list_elem_of_singleton in Hx'. congruence.
          + simpl. apply NoDup_singleton. }
      destruct (IH (v ++ [nb]) (q ++ [nb]) (count + 1) Hv') as (new & Hrun & Hok & Hsub & Hall);
        [intros p' Hp'; apply HL; by right |].
      exists (nb :: new). simpl. rewrite Hrun, <- !app_assoc. simpl.
      split; [do 2 f_equal; unfold len; simpl length; lia |].
      rewrite <- !app_assoc in Hok, Hall. simpl in Hok, Hall.
      split; [done |]. split.
      * intros x [-> | Hx]%elem_of_cons; [rewrite Href; left | right; by apply Hsub].
      * intros p' [-> | Hp']%elem_of_cons; [| by apply Hall].
        rewrite fmap_app. apply elem_of_app. right. simpl. rewrite Href. left.
Qed.

(** The [while] loop, given fuel for the nodes still to be taken out of
    the queue, ends with the count of a set of positions that holds the
    start and is closed under the linked relation. *)
Lemma bfs_loop_spec (start : ref) (fuel : nat) :
  forall (v q : list Node) (count : Z),
    bfs_inv self g start v q count ->
    (length q + (Z.to_nat (n self) * Z.to_nat (m self) - length v) < fuel)%nat ->
    exists vf,
      bfs_loop fuel g v q count = Ok (len vf)
      /\ visited_ok self g vf
      /\ start ∈ ref_of <$> vf
      /\ (forall p, p ∈ ref_of <$> vf -> rtc (linked self g) start p)
      /\ (forall p p', p ∈ ref_of <$> vf -> linked self g p p' -> p' ∈ ref_of <$> vf).
Proof.
  induction fuel as [|fuel IH]; intros v q count Hinv Hfuel; [lia |].
  destruct Hinv as (Hv & Hcount & Hq & Hstart & Hreach & Hclosed).
  destruct q as [|s q]; simpl.
  - exists v. rewrite Hcount. repeat (split; [done |]).
    intros p p' Hp Hlink. apply list_elem_of_fmap in Hp as (x & -> & Hx).
    apply (Hclosed x Hx); [apply not_elem_of_nil | done].
  - assert (s ∈ v) as Hs by (apply Hq; left).
    destruct (proj1 Hv s Hs) as [Hsin Hscell].
    destruct (Hup (ref_of s) Hsin) as (s' & Hs' & _ & Hnbrs).
    assert (s' = s) as -> by congruence.
    destruct (bfs_visit_loop (neighbors s) v q count Hv)
      as (new & Hrun & Hok & Hsub & Hall).
    { intros p Hp. apply Hnbrs in Hp. apply Hp. }
    rewrite Hrun. simpl.
    pose proof (visited_length _ Hok) as Hbound. rewrite length_app in Hbound.
    apply IH.
    + split; [done |]. split; [rewrite len_app; lia |]. split; [| split; [| split]].
      * intros x [Hx | Hx]%elem_of_app; apply elem_of_app; [left; apply Hq; by right | by right].
      * rewrite fmap_app. apply elem_of_app. by left.
      * intros p. rewrite fmap_app. intros [Hp | Hp]%elem_of_app; [by apply Hreach |].
        apply list_elem_of_fmap in Hp as (x & -> & Hx).
        apply rtc_r with (ref_of s).
        -- apply Hreach. by apply list_elem_of_fmap_2.
        -- apply Hnbrs. by apply Hsub.
      * intros x Hx Hxq p Hlink.
        assert ((x ∉ q) /\ (x ∉ new)) as [Hxq' Hxnew].
        { split; intros Hin; apply Hxq, elem_of_app; [by left | by right]. }
        apply elem_of_app in Hx as [Hx | Hx]; [| done].
        destruct (decide (ref_of x = ref_of s)) as [Heq | Hne].
        -- apply Hall. apply Hnbrs. by rewrite <- Heq.
        -- rewrite fmap_app. apply elem_of_app. left.
           apply (Hclosed x Hx); [| done].
           intros [-> | Hin]%elem_of_cons; [done | by apply Hxq'].
    + rewrite !length_app. simpl in Hfuel. lia.
Qed.

(** [bfs] from the node at [start] counts the positions reachable from
    [start] through the linked relation. *)
Lemma bfs_spec (start : ref) (node : Node) (fuel : nat) :
  inside self start.1 start.2 ->
  cell g start.1 start.2 = Some node ->
  (Z.to_nat (n self) * Z.to_nat (m self) < fuel)%nat ->
  exists comp,
    bfs fuel g node = Ok (len comp)
    /\ NoDup comp
    /\ (forall p, p ∈ comp <-> rtc (linked self g) start p)
    /\ (1 <= length comp <= Z.to_nat (n self) * Z.to_nat (m self))%nat.
Proof.
  intros Hin Hnode Hfuel.
  destruct (Hup start Hin) as (node' & Hnode' & Href & _).
  assert (node' = node) as -> by congruence.
  destruct (bfs_loop_spec start fuel [node] [node] 1) as (vf & Hrun & Hok & Hstart & Hreach & Hclosed).
  - split; [| split; [done | split; [done | split; [| split]]]].
    + split; [| simpl; apply NoDup_singleton].
      intros x Hx. apply list_elem_of_singleton in Hx as ->. by rewrite Href.
    + simpl. rewrite Href. left.
    + intros p Hp. simpl in Hp. apply list_elem_of_singleton in Hp as ->.
      by rewrite Href.
    + intros x Hx Hxq. exfalso. by apply Hxq.
  - simpl. destruct Hin as [Hr Hc].
    assert (1 <= Z.to_nat (n self) * Z.to_nat (m self))%nat by nia. lia.
  - exists (ref_of <$> vf). unfold bfs. rewrite Hrun. unfold len. rewrite length_fmap.
    split; [done |]. split; [apply Hok |]. split; [| split].
    + intros p. split; [apply Hreach |].
      intros Hrtc. revert p Hrtc. apply (rtc_ind_r (fun p => p ∈ ref_of <$> vf)); [done |].
      intros p p' _ Hlink Hp. by eapply Hclosed.
    + apply list_elem_of_fmap in Hstart as (x & _ & Hx). destruct vf; [| simpl; lia].
      by apply elem_of_nil in Hx.
    + by apply visited_length.
Qed.

End Bfs.

(** C5. In a grid [set_population] builds for an [m] by [n] board, [bfs]
    from any cell returns, once it has fuel for more than [m * n]
    iterations; the count it returns is at least 1 and at most [m * n], and
    it is the number of distinct cells that can be reached from the start
    cell through the linked relation, the start cell included. *)
Theorem bfs_component (self : Pentomino) (bs : list pystr) (w : Z) (gi : nat)
    (start : ref) (fuel : nat) :
  0 <= m self -> 0 <= n self -> bitsize self = Ok w ->
  (gi < length bs)%nat ->
  inside self start.1 start.2 ->
  (Z.to_nat (m self * n self) < fuel)%nat ->
  exists self' g node comp,
    set_population self bs = Ok self'
    /\ population self' !! gi = Some g
    /\ cell g start.1 start.2 = Some node
    /\ bfs fuel g node = Ok (len comp)
    /\ NoDup comp
    /\ (forall p, p ∈ comp <-> rtc (linked self g) start p)
    /\ 1 <= len comp <= m self * n self.
Proof.
  intros Hm Hn Hw Hgi Hin Hfuel.
  destruct (set_population_spec self bs w Hm Hn Hw) as (self' & Hrun & Hdec).
  destruct (lookup_lt_is_Some_2 (population self') gi) as [g Hg].
  { by rewrite (decoded_length _ _ _ _ Hdec). }
  pose proof (decoded_linked_up _ _ _ _ _ _ Hdec Hg) as Hup.
  destruct (Hup start Hin) as (node & Hnode & _).
  destruct (bfs_spec self g Hup start node fuel Hin Hnode)
    as (comp & Hbfs & Hnodup & Hcomp & Hsize); [lia |].
  exists self', g, node, comp. repeat (split; [done |]). unfold len. lia.
Qed.

Lemma bfs_component_witness :
  exists self' g node comp,
    set_population P25 [py "1111100000"] = Ok self'
    /\ population self' !! 0%nat = Some g
    /\ cell g 2 1 = Some node
    /\ bfs 11 g node = Ok (len comp)
    /\ NoDup comp
    /\ (forall p, p ∈ comp <-> rtc (linked P25 g) (2, 1) p)
    /\ 1 <= len comp <= m P25 * n P25.
Proof.
  apply (bfs_component P25 [py "1111100000"] 1 0 (2, 1) 11).
  - simpl. lia.
  - simpl. lia.
  - reflexivity.
  - simpl. lia.
  - vm_compute. repeat split; discriminate.
  - simpl. lia.
Defined.

(** ** Fitness on the board of the header comment *)

Lemma P25_tables (extra : nat) :
  count_tables (11 + extra) P25_linked 0
  = Ok ([(py "1", 5); (py "0", 5)], [(py "1", 5); (py "0", 5)]).
Proof. vm_compute. reflexivity. Qed.

Lemma P25_average :
  average (closeness [(py "1", 5); (py "0", 5)]) [(py "1", 5); (py "0", 5)] = Ok (50 # 50).
Proof. vm_compute. reflexivity. Qed.

(** C2. On the board with two columns and five rows, for the single
    candidate 1111100000 and any penalty weight [p]: the best component
    size kept for each of the two identifiers is 5 (deviation 0 from 5),
    each identifier is carried by 5 cells, both averages are 1, and the
    fitness is [1 + p]. *)
Theorem fitness_perfect_board (penalty : Q) (extra : nat) :
  exists self' connected_counts total_counts avgc avgt score,
    set_population P25 [py "1111100000"] = Ok self'
    /\ count_tables (11 + extra) self' 0 = Ok (connected_counts, total_counts)
    /\ connected_counts = [(py "1", 5); (py "0", 5)]
    /\ Forall (fun kv => Z.abs (kv.2 - 5) = 0) connected_counts
    /\ total_counts = [(py "1", 5); (py "0", 5)]
    /\ average (closeness connected_counts) connected_counts = Ok avgc
    /\ average (closeness total_counts) total_counts = Ok avgt
    /\ (avgc == 1)%Q /\ (avgt == 1)%Q
    /\ fitness (11 + extra) self' penalty = Ok [score]
    /\ (score == 1 + penalty)%Q.
Proof.
  exists P25_linked, [(py "1", 5); (py "0", 5)], [(py "1", 5); (py "0", 5)],
    (50 # 50), (50 # 50), ((50 # 50) + penalty * (50 # 50))%Q.
  split; [exact P25_set_population |].
  split; [apply P25_tables |].
  split; [reflexivity |].
  split; [repeat constructor |].
  split; [reflexivity |].
  split; [exact P25_average |].
  split; [exact P25_average |].
  split; [reflexivity |].
  split; [reflexivity |].
  split.
  - unfold fitness. change (range 0 (k P25_linked)) with [0].
    cbn [for_each]. rewrite P25_tables. cbn [obind].
    unfold score_of. cbn [fst snd]. rewrite P25_average. reflexivity.
  - assert ((50 # 50) == 1)%Q as -> by reflexivity. ring.
Qed.

(** ** The board printer *)

Lemma chunk_count_spec (b : pystr) (w j : Z) :
  0 < w -> 0 <= j -> (j * w < len b <-> j < chunk_count b w).
Proof.
  intros Hw Hj. unfold chunk_count.
  pose proof (Z.mul_div_le (len b + w - 1) w Hw).
  pose proof (Z.mul_succ_div_gt (len b + w - 1) w Hw).
  split; intros Hlt; nia.
Qed.

Lemma chunk_count_bound (b : pystr) (w : Z) :
  0 < w -> 0 <= chunk_count b w <= len b.
Proof.
  intros Hw. unfold chunk_count. pose proof (len_nonneg b) as Hl.
  split; [apply Z.div_pos; lia |].
  pose proof (Z.mul_div_le (len b + w - 1) w Hw). nia.
Qed.

Lemma chunks_lookup (b : pystr) (w : Z) (j : nat) :
  0 < w -> Z.of_nat j < chunk_count b w ->
  chunks b w !! j = Some (py_slice b (Z.of_nat j * w) (Z.of_nat j * w + w)).
Proof.
  intros Hw Hj. unfold chunks. rewrite list_lookup_fmap, lookup_range by done. simpl.
  unfold chunk. by rewrite py_slice_chunk by lia.
Qed.

Lemma length_chunks (b : pystr) (w : Z) :
  length (chunks b w) = Z.to_nat (chunk_count b w).
Proof. unfold chunks. rewrite length_fmap, length_range. f_equal. lia. Qed.

(** The first loop collects the chunks in first-encounter order. *)
Lemma collect_pents_spec (b : pystr) (w : Z) (d : nat) :
  forall (fuel j : nat) (pents : list pystr),
    0 < w ->
    Z.of_nat j + Z.of_nat d = chunk_count b w ->
    (d < fuel)%nat ->
    collect_pents fuel b w (Z.of_nat j * w) pents
    = Ok (first_seen (drop j (chunks b w)) pents).
Proof.
  induction d as [|d IH]; intros fuel j pents Hw Hj Hfuel;
    (destruct fuel as [|fuel]; [lia |]); cbn [collect_pents].
  - destruct (Z.ltb_spec (Z.of_nat j * w) (len b)) as [Hlt | Hge].
    + apply chunk_count_spec in Hlt; lia.
    + rewrite drop_ge by (rewrite length_chunks; lia). done.
  - destruct (Z.ltb_spec (Z.of_nat j * w) (len b)) as [Hlt | Hge].
    + rewrite (drop_S _ _ _ (chunks_lookup b w j Hw ltac:(lia))).
      replace (Z.of_nat j * w + w) with (Z.of_nat (S j) * w) at 1 by lia.
      rewrite IH by lia. done.
    + exfalso. assert (~ Z.of_nat j * w < len b) as Hn by lia.
      apply Hn, chunk_count_spec; lia.
Qed.

Lemma elem_of_add_pent (pents : list pystr) (idx x : pystr) :
  x ∈ add_pent pents idx <-> x ∈ pents \/ x = idx.
Proof.
  unfold add_pent. case_bool_decide as Hin.
  - split; [by left | intros [Hx | ->]; done].
  - rewrite elem_of_app, list_elem_of_singleton. done.
Qed.

Lemma NoDup_add_pent (pents : list pystr) (idx : pystr) :
  NoDup pents -> NoDup (add_pent pents idx).
Proof.
  intros Hnd. unfold add_pent. case_bool_decide as Hin; [done |].
  apply NoDup_app. split; [done |]. split; [| apply NoDup_singleton].
  intros x Hx Hx'. apply list_elem_of_singleton in Hx'. congruence.
Qed.

Lemma first_seen_spec (l : list pystr) :
  forall pents,
    NoDup pents ->
    NoDup (first_seen l pents)
    /\ (forall x, x ∈ first_seen l pents <-> x ∈ pents \/ x ∈ l).
Proof.
  induction l as [|idx l IH]; intros pents Hnd; simpl.
  - split; [done |]. intros x. rewrite elem_of_nil. tauto.
  - destruct (IH (add_pent pents idx) (NoDup_add_pent _ _ Hnd)) as [Hnd' Hel].
    split; [done |]. intros x. rewrite Hel, elem_of_add_pent, elem_of_cons. tauto.
Qed.

(** The collected list has as many entries as the chunks have values. *)
Lemma length_first_seen (b : pystr) (w : Z) :
  length (first_seen (chunks b w) []) = distinct_chunks b w.
Proof.
  destruct (first_seen_spec (chunks b w) [] (NoDup_nil_2)) as [Hnd Hel].
  unfold distinct_chunks. apply Permutation_length, NoDup_Permutation.
  - done.
  - apply NoDup_remove_dups.
  - intros x. rewrite Hel, elem_of_remove_dups, elem_of_nil. tauto.
Qed.

Lemma list_index_elem (idx : pystr) (pents : list pystr) :
  idx ∈ pents ->
  exists i, list_index idx pents = Ok (Z.of_nat i) /\ pents !! i = Some idx.
Proof.
  induction pents as [|p pents IH]; intros Hin; [by apply elem_of_nil in Hin |].
  simpl. case_bool_decide as Heq.
  - exists O. by subst.
  - apply elem_of_cons in Hin as [-> | Hin]; [done |].
    destruct (IH Hin) as (i & -> & Hi). exists (S i). simpl. split; [f_equal; lia | done].
Qed.

Lemma getitem_reps (i : nat) :
  (exists glyph, getitem reps (Z.of_nat i) = Ok glyph /\ (i < 8)%nat)
  \/ (getitem reps (Z.of_nat i) = Raise IndexError /\ (8 <= i)%nat).
Proof.
  do 8 (destruct i as [|i]; [left; eexists; split; [reflexivity | lia] |]).
  right. split; [| lia]. unfold getitem, py_index.
  destruct (Z.ltb_spec (Z.of_nat (S (S (S (S (S (S (S (S i))))))))) 0); [lia |].
  change (len reps) with 8.
  by destruct (Z.ltb_spec (Z.of_nat (S (S (S (S (S (S (S (S i))))))))) 8); [lia |].
Qed.

Section Printer.
Variables (b : pystr) (w m0 : Z) (pents : list pystr).
Hypothesis Hw : 0 < w.
Hypothesis Hm0 : m0 <> 0.
Hypothesis Hnodup : NoDup pents.

(** One iteration of the second loop on a chunk that is in [pents]. *)
Lemma print_cells_step (fuel j : nat) (out : list pystr) :
  Z.of_nat j < chunk_count b w ->
  py_slice b (Z.of_nat j * w) (Z.of_nat j * w + w) ∈ pents ->
  exists i,
    pents !! i = Some (py_slice b (Z.of_nat j * w) (Z.of_nat j * w + w))
    /\ ((8 <= i)%nat /\ print_cells (S fuel) b w m0 (Z.of_nat j * w) pents out
                        = Raise IndexError
        \/ (i < 8)%nat /\ exists out',
              print_cells (S fuel) b w m0 (Z.of_nat j * w) pents out
              = print_cells fuel b w m0 (Z.of_nat (S j) * w) pents out').
Proof.
  intros Hj Hin. destruct (list_index_elem _ _ Hin) as (i & Hidx & Hi).
  exists i. split; [done |]. cbn [print_cells].
  destruct (Z.ltb_spec (Z.of_nat j * w) (len b)) as [Hlt | Hge];
    [| exfalso; assert (~ Z.of_nat j * w < len b) as Hn by lia;
       apply Hn, chunk_count_spec; lia].
  rewrite Hidx. cbn [obind].
  destruct (getitem_reps i) as [(glyph & -> & Hlt8) | [-> Hge8]]; cbn [obind].
  - right. split; [done |].
    destruct (Z.eqb_spec w 0); [lia |]. destruct (Z.eqb_spec m0 0); [done |].
    replace (Z.of_nat j * w + w) with (Z.of_nat (S j) * w) by lia. eauto.
  - left. done.
Qed.

(** With at most 8 entries in [pents] the second loop runs to its end. *)
Lemma print_cells_ok (d : nat) :
  forall (fuel j : nat) (out : list pystr),
    Z.of_nat j + Z.of_nat d = chunk_count b w ->
    (d < fuel)%nat ->
    (forall idx, idx ∈ drop j (chunks b w) -> idx ∈ pents) ->
    (length pents <= 8)%nat ->
    exists out', print_cells fuel b w m0 (Z.of_nat j * w) pents out = Ok out'.
Proof.
  induction d as [|d IH]; intros fuel j out Hj Hfuel Hall Hlen;
    (destruct fuel as [|fuel]; [lia |]).
  - cbn [print_cells].
    destruct (Z.ltb_spec (Z.of_nat j * w) (len b)) as [Hlt | Hge]; [| eauto].
    apply chunk_count_spec in Hlt; lia.
  - pose proof (chunks_lookup b w j Hw ltac:(lia)) as Hchunk.
    destruct (print_cells_step fuel j out) as (i & Hi & [[Hge8 _] | [_ [out' ->]]]);
      [lia | apply Hall; rewrite (drop_S _ _ _ Hchunk); left | |].
    + apply lookup_lt_Some in Hi. lia.
    + apply IH; [lia | lia | | done].
      intros idx Hidx. apply Hall. rewrite (drop_S _ _ _ Hchunk). by right.
Qed.

(** If some chunk still to come stands at position 8 or later in
    [pents], the second loop ends with an [IndexError]. *)
Lemma print_cells_overflow (d : nat) :
  forall (fuel j : nat) (out : list pystr),
    Z.of_nat j + Z.of_nat d = chunk_count b w ->
    (d < fuel)%nat ->
    (forall idx, idx ∈ drop j (chunks b w) -> idx ∈ pents) ->
    (exists idx i, idx ∈ drop j (chunks b w) /\ pents !! i = Some idx /\ (8 <= i)%nat) ->
    print_cells fuel b w m0 (Z.of_nat j * w) pents out = Raise IndexError.
Proof.
  induction d as [|d IH]; intros fuel j out Hj Hfuel Hall (bad & ib & Hbad & Hib & Hge);
    (destruct fuel as [|fuel]; [lia |]).
  - rewrite drop_ge in Hbad by (rewrite length_chunks; lia). by apply elem_of_nil in Hbad.
  - pose proof (chunks_lookup b w j Hw ltac:(lia)) as Hchunk.
    rewrite (drop_S _ _ _ Hchunk) in Hbad.
    destruct (print_cells_step fuel j out) as (i & Hi & [[_ ->] | [Hlt8 [out' ->]]]);
      [lia | apply Hall; rewrite (drop_S _ _ _ Hchunk); left | done |].
    apply IH; [lia | lia | |].
    + intros idx Hidx. apply Hall. rewrite (drop_S _ _ _ Hchunk). by right.
    + exists bad, ib. split; [| done].
      apply elem_of_cons in Hbad as [-> | Hbad]; [| done].
      pose proof (NoDup_lookup _ _ _ _ Hnodup Hi Hib). lia.
Qed.

End Printer.

(** C9, as amended. For a bit string cut into chunks of positive width:
    when the chunks take at most 8 distinct values, [print_pentomino] runs
    to its end, every glyph lookup being in bounds; when they take more than
    8, it raises [IndexError]. *)
Theorem print_pentomino_lookups (fuel : nat) (bitstring : pystr) (m0 n0 : Z) :
  let bitsize := Z.quot (len bitstring) (m0 * n0) in
  0 < bitsize ->
  (length bitstring < fuel)%nat ->
  ((distinct_chunks bitstring bitsize <= 8)%nat ->
     exists out, print_pentomino fuel bitstring m0 n0 = Ok out)
  /\ ((8 < distinct_chunks bitstring bitsize)%nat ->
       print_pentomino fuel bitstring m0 n0 = Raise IndexError).
Proof.
  intros bitsize Hw Hfuel.
  assert (m0 * n0 <> 0) as Harea.
  { intros H0. unfold bitsize in Hw. rewrite (Z.quot_0_r_ext _ _ H0) in Hw. lia. }
  assert (m0 <> 0) as Hm0 by nia.
  pose proof (chunk_count_bound bitstring bitsize Hw) as Hcnt.
  set (cnt := Z.to_nat (chunk_count bitstring bitsize)).
  set (pents := first_seen (chunks bitstring bitsize) []).
  assert (print_pentomino fuel bitstring m0 n0
          = print_cells fuel bitstring bitsize m0 0 pents []) as ->.
  { unfold print_pentomino. destruct (Z.eqb_spec (m0 * n0) 0); [done |]. fold bitsize.
    pose proof (collect_pents_spec bitstring bitsize cnt fuel 0 [] Hw) as Hc.
    rewrite drop_0 in Hc. change (Z.of_nat 0 * bitsize) with 0 in Hc.
    rewrite Hc by (unfold cnt, len in *; lia). done. }
  destruct (first_seen_spec (chunks bitstring bitsize) [] NoDup_nil_2) as [Hnd Hel].
  fold pents in Hnd, Hel.
  rewrite <- length_first_seen. fold pents. split; intros Hlen.
  - apply (print_cells_ok bitstring bitsize m0 pents Hw Hm0 cnt fuel 0 []);
      [unfold cnt; lia | unfold cnt, len in *; lia | | done].
    intros idx Hidx. apply Hel. by right.
  - apply (print_cells_overflow bitstring bitsize m0 pents Hw Hm0 Hnd cnt fuel 0 []);
      [unfold cnt; lia | unfold cnt, len in *; lia | |].
    + intros idx Hidx. apply Hel. by right.
    + destruct (lookup_lt_is_Some_2 pents 8) as [bad Hbad]; [lia |].
      exists bad, 8%nat. split; [| done].
      apply list_elem_of_lookup_2, Hel in Hbad as [Hbad | Hbad]; [| done].
      by apply elem_of_nil in Hbad.
Qed.

Lemma print_pentomino_lookups_witness :
  ((distinct_chunks (py "1111100000") (Z.quot (len (py "1111100000")) (2 * 5)) <= 8)%nat ->
     exists out, print_pentomino 11 (py "1111100000") 2 5 = Ok out)
  /\ ((8 < distinct_chunks (py "1111100000") (Z.quot (len (py "1111100000")) (2 * 5)))%nat ->
       print_pentomino 11 (py "1111100000") 2 5 = Raise IndexError).
Proof.
  apply (print_pentomino_lookups 11 (py "1111100000") 2 5).
  - reflexivity.
  - simpl. lia.
Defined.

(** C9, as stated, fails: nine chunks of four bits with nine different
    values make the printer look up position 8 of its 8 glyphs, and the call
    ends with an [IndexError]. *)
Lemma print_pentomino_nine_values :
  distinct_chunks nine_values (Z.quot (len nine_values) (9 * 1)) = 9%nat
  /\ print_pentomino 37 nine_values 9 1 = Raise IndexError.
Proof. split; vm_compute; reflexivity. Qed.

(** * The code around the claims *)

(** ** Mutation, for every rate *)

Lemma mutate_bit_keep (rate : Q) (b : pystr) (g : Rng) (i : Z) :
  Qlt_bool (draws g (taken g)) rate = false ->
  mutate_bit rate (b, g) i = Ok (b, mkRng (draws g) (S (taken g))).
Proof. intros Hge. unfold mutate_bit, random. simpl. by rewrite Hge. Qed.

(** The inner loop of [mutation], draw by draw. *)
Lemma mutate_string_spec (rate : Q) (b : pystr) (g : Rng) :
  for_each (range 0 (len b)) (mutate_bit rate) (b, g)
  = Ok (mutated rate g b, mkRng (draws g) (taken g + length b)).
Proof.
  destruct (for_range_inv
    (fun j st => st = (take (Z.to_nat j) (mutated rate g b) ++ drop (Z.to_nat j) b,
                       mkRng (draws g) (taken g + Z.to_nat j)))
    (len b) (mutate_bit rate) (b, g)) as (st & Hrun & Hst).
  - apply len_nonneg.
  - simpl. rewrite drop_0, Nat.add_0_r. by destruct g.
  - intros j st Hj ->. unfold len in Hj.
    destruct (lookup_lt_is_Some_2 b (Z.to_nat j)) as [ch Hch]; [lia |].
    pose (pre := take (Z.to_nat j) (mutated rate g b)).
    pose (suf := drop (S (Z.to_nat j)) b).
    assert (j = len pre) as Hpre.
    { unfold pre, mutated, len. rewrite length_take, length_imap. lia. }
    assert (mutated rate g b !! Z.to_nat j
            = Some (if Qlt_bool (draws g (taken g + Z.to_nat j)) rate then flip ch else ch))
      as Hmut.
    { unfold mutated. by rewrite list_lookup_imap, Hch. }
    exists (pre ++ (if Qlt_bool (draws g (taken g + Z.to_nat j)) rate then flip ch else ch)
                   :: suf,
            mkRng (draws g) (S (taken g + Z.to_nat j))). split.
    + rewrite (drop_S _ _ _ Hch). fold pre suf.
      destruct (Qlt_bool (draws g (taken g + Z.to_nat j)) rate) eqn:Hdraw.
      * etrans; [| apply (mutate_bit_flip rate pre suf ch
                           (mkRng (draws g) (taken g + Z.to_nat j)) Hdraw)].
        by rewrite <- Hpre.
      * apply (mutate_bit_keep rate _ (mkRng (draws g) (taken g + Z.to_nat j)) j Hdraw).
    + replace (Z.to_nat (j + 1)) with (S (Z.to_nat j)) by lia.
      rewrite (take_S_r _ _ _ Hmut). fold pre suf. rewrite <- app_assoc. simpl.
      by replace (taken g + S (Z.to_nat j))%nat with (S (taken g + Z.to_nat j)) by lia.
  - etrans; [exact Hrun |]. rewrite Hst. unfold len. rewrite Nat2Z.id.
    rewrite take_ge, drop_ge, app_nil_r by (unfold mutated; rewrite ?length_imap; lia).
    done.
Qed.

Lemma mutation_outer_spec (self : Pentomino) (rate : Q) (bs : list pystr) :
  forall (locals : list pystr) (g : Rng),
    for_each bs
      (fun '(self, locals, g) b =>
         do '(b', g') <- for_each (range 0 (len b)) (mutate_bit rate) (b, g);
         Ok (self, locals ++ [b'], g'))
      (self, locals, g)
    = Ok (self, locals ++ mutated_all rate g bs,
          mkRng (draws g) (taken g + total_bits bs)).
Proof.
  induction bs as [|b bs IH]; intros locals g; simpl.
  - rewrite app_nil_r. unfold total_bits. simpl. rewrite Nat.add_0_r. by destruct g.
  - rewrite mutate_string_spec. simpl. rewrite IH. simpl.
    rewrite <- app_assoc. simpl. do 3 f_equal.
    unfold total_bits. simpl. rewrite length_app. lia.
Qed.

(** X1. Whatever the rate and whatever the random source, [mutation]
    returns, and the object it leaves is the one it was given: the stored
    bit strings are never written. It takes one draw for every stored bit;
    the strings it builds in its local variable have bit [i] flipped exactly
    where the draw for that bit fell below the rate. *)
Theorem mutation_never_stores (self : Pentomino) (mutation_rate : Q) (g : Rng) :
  mutation self mutation_rate g
  = Ok (self, mutated_all mutation_rate g (bitstrings self),
        mkRng (draws g) (taken g + total_bits (bitstrings self))).
Proof. unfold mutation. apply (mutation_outer_spec self mutation_rate _ [] g). Qed.

(** ** Crossover, beyond parents of equal length *)

Lemma crossover_unfold (self : Pentomino) (randint : Z -> Z -> Z) (i j : Z) (mom dad : pystr) :
  getitem (bitstrings self) i = Ok mom ->
  getitem (bitstrings self) j = Ok dad ->
  0 <= randint 0 (len mom) ->
  crossover self [i; j] randint
  = Ok [take (Z.to_nat (randint 0 (len mom))) mom ++ drop (Z.to_nat (randint 0 (len mom))) dad;
        take (Z.to_nat (randint 0 (len mom))) dad ++ drop (Z.to_nat (randint 0 (len mom))) mom].
Proof.
  intros Hmom Hdad Hp. unfold crossover.
  change (getitem [i; j] 0) with (Ok (A:=Z) i). change (getitem [i; j] 1) with (Ok (A:=Z) j).
  simpl. rewrite Hmom. simpl. rewrite Hdad. simpl.
  by rewrite !py_slice_prefix, !py_slice_suffix by lia.
Qed.

(** X2. Whatever the lengths of the two parents and wherever the cut
    falls, the two children together have as many characters as the two
    parents together: slicing past the end of the shorter parent loses
    nothing and raises nothing. *)
Theorem crossover_conserves_length (self : Pentomino) (randint : Z -> Z -> Z)
    (i j : Z) (mom dad : pystr) :
  getitem (bitstrings self) i = Ok mom ->
  getitem (bitstrings self) j = Ok dad ->
  0 <= randint 0 (len mom) ->
  exists child1 child2,
    crossover self [i; j] randint = Ok [child1; child2]
    /\ (length child1 + length child2 = length mom + length dad)%nat.
Proof.
  intros Hmom Hdad Hp. eexists _, _. split; [by apply crossover_unfold |].
  rewrite !length_app, !length_take, !length_drop. lia.
Qed.

Lemma crossover_conserves_length_witness :
  exists child1 child2,
    crossover (mkPentomino 2 5 2 [] [py "11111"; py "00"]) [0; 1] (fun _ _ => 4)
    = Ok [child1; child2]
    /\ (length child1 + length child2 = length (py "11111") + length (py "00"))%nat.
Proof.
  apply (crossover_conserves_length (mkPentomino 2 5 2 [] [py "11111"; py "00"])
           (fun _ _ => 4) 0 1 (py "11111") (py "00")).
  - reflexivity.
  - reflexivity.
  - lia.
Defined.

(** X3. Crossing the two children again at the same cut gives the two
    parents back: for parents of equal length, storing the children as the
    bit strings and calling [crossover] on them with the same cut returns
    the mother and the father. *)
Theorem crossover_twice (self : Pentomino) (randint : Z -> Z -> Z)
    (i j : Z) (mom dad : pystr) :
  getitem (bitstrings self) i = Ok mom ->
  getitem (bitstrings self) j = Ok dad ->
  length mom = length dad ->
  0 <= randint 0 (len mom) <= len mom ->
  exists children,
    crossover self [i; j] randint = Ok children
    /\ crossover (set_bitstrings self children) [0; 1] randint = Ok [mom; dad].
Proof.
  intros Hmom Hdad Hlen Hp. eexists. split; [apply crossover_unfold; [done | done | lia] |].
  set (p := Z.to_nat (randint 0 (len mom))).
  assert (p <= length mom)%nat as Hple by (unfold p, len in *; lia).
  assert (len (take p mom ++ drop p dad) = len mom) as Hl1.
  { unfold len. rewrite length_app, length_take, length_drop. lia. }
  rewrite (crossover_unfold _ randint 0 1 (take p mom ++ drop p dad) (take p dad ++ drop p mom));
    [| reflexivity | reflexivity | rewrite Hl1; lia].
  rewrite Hl1. fold p.
  rewrite !take_app_length', !drop_app_length' by (rewrite length_take; lia).
  by rewrite !take_drop.
Qed.

Lemma crossover_twice_witness :
  exists children,
    crossover (mkPentomino 2 5 2 [] [py "11111"; py "00000"]) [0; 1] (fun _ _ => 2)
    = Ok children
    /\ crossover (set_bitstrings (mkPentomino 2 5 2 [] [py "11111"; py "00000"]) children)
         [0; 1] (fun _ _ => 2)
       = Ok [py "11111"; py "00000"].
Proof.
  apply (crossover_twice (mkPentomino 2 5 2 [] [py "11111"; py "00000"])
           (fun _ _ => 2) 0 1 (py "11111") (py "00000")).
  - reflexivity.
  - reflexivity.
  - reflexivity.
  - vm_compute. split; discriminate.
Defined.

(** X4. When both parents are the same bit string (the same candidate
    selected twice, or two equal candidates), both children are that bit
    string again, wherever the cut falls. *)
Theorem crossover_same_parents (self : Pentomino) (randint : Z -> Z -> Z)
    (i j : Z) (mom : pystr) :
  getitem (bitstrings self) i = Ok mom ->
  getitem (bitstrings self) j = Ok mom ->
  0 <= randint 0 (len mom) ->
  crossover self [i; j] randint = Ok [mom; mom].
Proof.
  intros Hi Hj Hp. rewrite (crossover_unfold self randint i j mom mom) by done.
  by rewrite take_drop.
Qed.

Lemma crossover_same_parents_witness :
  crossover (mkPentomino 2 5 2 [] [py "10110"; py "00000"]) [0; 0] (fun _ _ => 3)
  = Ok [py "10110"; py "10110"].
Proof.
  apply (crossover_same_parents (mkPentomino 2 5 2 [] [py "10110"; py "00000"])
           (fun _ _ => 3) 0 0 (py "10110")).
  - reflexivity.
  - reflexivity.
  - lia.
Defined.

(** ** Selection, as the driver calls it *)

Lemma Qmult_pos_total (u t : Q) : (0 <= u)%Q -> (0 < u * t)%Q -> (0 < t)%Q.
Proof.
  intros Hu Hx. unfold Qle, Qlt in *. destruct u as [un ud], t as [tn td]. simpl in *. nia.
Qed.

Lemma Qmult_below_total (u t : Q) : (u < 1)%Q -> (0 < t)%Q -> (u * t <= t)%Q.
Proof.
  intros Hu Ht. unfold Qle, Qlt in *. destruct u as [un ud], t as [tn td]. simpl in *. nia.
Qed.

Lemma roulette_in_bounds (fuel : nat) (scores : list Q) (u : Q) :
  scores <> [] -> (0 <= u)%Q -> (u < 1)%Q -> (length scores < fuel)%nat ->
  exists i, roulette fuel scores (u * sumQ scores)%Q 0%Q 0 = Ok i /\ 0 <= i < len scores.
Proof.
  intros Hne Hu0 Hu1 Hfuel.
  destruct (Qlt_le_dec 0 (u * sumQ scores)) as [Hpos | Hle].
  - pose proof (Qmult_pos_total _ _ Hu0 Hpos) as Htot.
    destruct (first_reach_exists scores _ Hpos (Qmult_below_total _ _ Hu1 Htot)) as [i Hi].
    exists i. split; [| apply Hi]. apply roulette_first_reach; [done | done |].
    destruct Hi as [Hb _]. unfold len in Hb. lia.
  - exists 0. rewrite roulette_nonpositive by done. split; [done |].
    destruct scores; [done |]. unfold len. simpl. lia.
Qed.






(** ** What [set_population] builds, cell by cell *)

Lemma link_to_sublist (self : Pentomino) (v : Z -> Z -> pystr) (row col : Z) (p : ref) :
  link_to self v row col p `sublist_of` [p].
Proof.
  unfold link_to. destruct (insideb self p.1 p.2 && bool_decide (v p.1 p.2 = v row col));
    [done | apply sublist_nil_l].
Qed.

Lemma links_of_sublist (self : Pentomino) (v : Z -> Z -> pystr) (row col : Z) :
  links_of self v row col `sublist_of` around row col.
Proof.
  unfold links_of, around.
  change [(row - 1, col); (row + 1, col); (row, col - 1); (row, col + 1)]
    with ([(row - 1, col)] ++ [(row + 1, col)] ++ [(row, col - 1)] ++ [(row, col + 1)]).
  repeat apply sublist_app; apply link_to_sublist.
Qed.

Lemma NoDup_around (row col : Z) : NoDup (around row col).
Proof.
  unfold around. repeat (apply NoDup_cons; split); try apply NoDup_nil_2;
    rewrite ?elem_of_cons, ?elem_of_nil; intros H;
    repeat (destruct H as [H | H]); try done; injection H; lia.
Qed.

(** X7. In every grid [set_population] builds, the neighbour list of the
    cell at [(row, col)] is taken, in order, from the positions above,
    below, left and right of it: it has at most four entries, no entry
    twice, and never the cell itself. *)
Theorem neighbor_list_shape (self : Pentomino) (bs : list pystr) (w : Z)
    (gi : nat) (row col : Z) :
  0 <= m self -> 0 <= n self -> bitsize self = Ok w ->
  (gi < length bs)%nat ->
  inside self row col ->
  exists self' g nd,
    set_population self bs = Ok self'
    /\ population self' !! gi = Some g
    /\ cell g row col = Some nd
    /\ neighbors nd `sublist_of` around row col
    /\ NoDup (neighbors nd)
    /\ (length (neighbors nd) <= 4)%nat
    /\ (row, col) ∉ neighbors nd.
Proof.
  intros Hm Hn Hw Hgi Hin.
  destruct (set_population_spec self bs w Hm Hn Hw) as (self' & Hrun & Hdec).
  destruct (lookup_lt_is_Some_2 (population self') gi) as [g Hg].
  { by rewrite (decoded_length _ _ _ _ Hdec). }
  destruct (lookup_lt_is_Some_2 bs gi Hgi) as [b Hb].
  destruct Hdec as [_ Hall]. specialize (Hall (Z.of_nat gi) row col b).
  rewrite Nat2Z.id in Hall. specialize (Hall ltac:(lia) Hb Hin).
  rewrite <- (cell_node_at _ gi g row col Hg) in Hall by (unfold inside in Hin; lia).
  eexists self', g, _. repeat (split; [done |]). simpl.
  pose proof (links_of_sublist self (slice_at self w b) row col) as Hsub.
  split; [done |]. split; [| split].
  - eapply sublist_NoDup; [apply NoDup_around | exact Hsub].
  - apply sublist_length in Hsub. simpl in Hsub. done.
  - intros Hself. eapply elem_of_sublist in Hself; [| exact Hsub].
    unfold around in Hself. rewrite !elem_of_cons, elem_of_nil in Hself.
    repeat (destruct Hself as [Hself | Hself]); try done; injection Hself; lia.
Qed.

Lemma neighbor_list_shape_witness :
  exists self' g nd,
    set_population P25 [py "1111100000"] = Ok self'
    /\ population self' !! 0%nat = Some g
    /\ cell g 1 0 = Some nd
    /\ neighbors nd `sublist_of` around 1 0
    /\ NoDup (neighbors nd)
    /\ (length (neighbors nd) <= 4)%nat
    /\ (1, 0) ∉ neighbors nd.
Proof.
  apply (neighbor_list_shape P25 [py "1111100000"] 1 0 1 0).
  - simpl. lia.
  - simpl. lia.
  - reflexivity.
  - simpl. lia.
  - vm_compute. repeat split; discriminate.
Defined.

(** X8. [set_population] takes bit strings of any length. The cell at
    [(row, col)] always carries what is left of the string from position
    [(row * m + col) * w] on, cut to [w] characters; so in a string that is
    too short, every cell that starts at or past its end carries the empty
    string, and nothing is raised. *)
Theorem short_bitstring_cells (self : Pentomino) (bs : list pystr) (w : Z)
    (gi : nat) (b : pystr) (row col : Z) :
  0 <= m self -> 0 <= n self -> bitsize self = Ok w -> 0 <= w ->
  bs !! gi = Some b ->
  inside self row col ->
  exists self' g nd,
    set_population self bs = Ok self'
    /\ population self' !! gi = Some g
    /\ cell g row col = Some nd
    /\ value nd = take (Z.to_nat w) (drop (Z.to_nat ((row * m self + col) * w)) b)
    /\ (len b <= (row * m self + col) * w -> value nd = []).
Proof.
  intros Hm Hn Hw Hw0 Hb Hin.
  destruct (set_population_spec self bs w Hm Hn Hw) as (self' & Hrun & Hdec).
  destruct (lookup_lt_is_Some_2 (population self') gi) as [g Hg].
  { rewrite (decoded_length _ _ _ _ Hdec). by apply lookup_lt_Some in Hb. }
  destruct Hdec as [_ Hall]. specialize (Hall (Z.of_nat gi) row col b).
  rewrite Nat2Z.id in Hall. specialize (Hall ltac:(lia) Hb Hin).
  rewrite <- (cell_node_at _ gi g row col Hg) in Hall by (unfold inside in Hin; lia).
  eexists self', g, _. repeat (split; [done |]). simpl.
  unfold inside in Hin. rewrite slice_at_chunk by lia. unfold chunk.
  split; [done |]. intros Hshort.
  rewrite drop_ge by (unfold len in Hshort; lia). apply take_nil.
Qed.

Lemma short_bitstring_cells_witness :
  exists self' g nd,
    set_population P25 [py "111"] = Ok self'
    /\ population self' !! 0%nat = Some g
    /\ cell g 3 1 = Some nd
    /\ value nd = take (Z.to_nat 1) (drop (Z.to_nat ((3 * m P25 + 1) * 1)) (py "111"))
    /\ (len (py "111") <= (3 * m P25 + 1) * 1 -> value nd = []).
Proof.
  apply (short_bitstring_cells P25 [py "111"] 1 0 (py "111") 3 1).
  - simpl. lia.
  - simpl. lia.
  - reflexivity.
  - lia.
  - reflexivity.
  - vm_compute. repeat split; discriminate.
Defined.

(** ** [get_node] and the candidate index *)

Lemma getitem_past_end {A} (l : list A) (i : Z) :
  len l <= i \/ i < - len l -> getitem l i = Raise IndexError.
Proof.
  intros Hi. unfold getitem, py_index. pose proof (len_nonneg l).
  destruct (Z.ltb_spec i 0).
  - by destruct (Z.ltb_spec (i + len l) 0); [| lia].
  - by destruct (Z.ltb_spec i (len l)); [lia |].
Qed.

Lemma getitem_negative {A} (l : list A) (i : Z) :
  - len l <= i < 0 -> getitem l i = getitem l (i + len l).
Proof.
  intros Hi. unfold getitem, py_index.
  destruct (Z.ltb_spec i 0); [| lia]. destruct (Z.ltb_spec (i + len l) 0); [lia |].
  destruct (Z.ltb_spec (i + len l) 0); [lia |].
  by destruct (Z.ltb_spec (i + len l) (len l)); [| lia].
Qed.

(** X9. For a position on the board, [get_node] does index the population:
    a candidate index at or past the number of grids, or below minus that
    number, ends in an [IndexError]; a negative index down to minus that
    number counts from the end, as Python lists do. *)
Theorem get_node_candidate_index (self : Pentomino) (idx row col : Z) :
  inside self row col ->
  (len (population self) <= idx \/ idx < - len (population self) ->
     get_node self idx row col = Raise IndexError)
  /\ (- len (population self) <= idx < 0 ->
        get_node self idx row col
        = get_node self (idx + len (population self)) row col).
Proof.
  intros [Hrow Hcol]. unfold get_node.
  replace ((0 <=? row) && (0 <=? col) && (row <? n self) && (col <? m self)) with true
    by (symmetry; rewrite !andb_true_iff; lia).
  split; intros Hidx.
  - by rewrite getitem_past_end.
  - by rewrite getitem_negative.
Qed.

Lemma get_node_candidate_index_witness :
  (len (population P25_linked) <= 1 \/ 1 < - len (population P25_linked) ->
     get_node P25_linked 1 2 1 = Raise IndexError)
  /\ (- len (population P25_linked) <= 1 < 0 ->
        get_node P25_linked 1 2 1
        = get_node P25_linked (1 + len (population P25_linked)) 2 1).
Proof.
  apply (get_node_candidate_index P25_linked 1 2 1).
  vm_compute. repeat split; discriminate.
Defined.

(** ** [Node.is_connected] *)

(** X10. In every grid [set_population] builds, [is_connected] gives the
    same answer whichever of two cells it is called on: true exactly when
    the two cells are 4-adjacent and carry the same value. A cell is not
    connected to itself. *)
Theorem is_connected_symmetric (self : Pentomino) (bs : list pystr) (w : Z)
    (gi : nat) (p q : ref) :
  0 <= m self -> 0 <= n self -> bitsize self = Ok w ->
  (gi < length bs)%nat ->
  inside self p.1 p.2 -> inside self q.1 q.2 ->
  exists self' g A B,
    set_population self bs = Ok self'
    /\ population self' !! gi = Some g
    /\ cell g p.1 p.2 = Some A /\ cell g q.1 q.2 = Some B
    /\ is_connected g A B = Ok (adjacentb p q && bool_decide (value A = value B))
    /\ is_connected g B A = Ok (adjacentb p q && bool_decide (value A = value B))
    /\ is_connected g A A = Ok false.
Proof.
  intros Hm Hn Hw Hgi Hp Hq.
  destruct (set_population_spec self bs w Hm Hn Hw) as (self' & Hrun & Hdec).
  destruct (lookup_lt_is_Some_2 (population self') gi) as [g Hg].
  { by rewrite (decoded_length _ _ _ _ Hdec). }
  pose proof (decoded_linked_up _ _ _ _ _ _ Hdec Hg) as Hup.
  destruct (Hup p Hp) as (A & HA & _). destruct (Hup q Hq) as (B & HB & _).
  exists self', g, A, B. repeat (split; [done |]). split; [| split].
  - by apply (is_connected_spec self g Hup p q).
  - rewrite (is_connected_spec self g Hup q p B A) by done.
    rewrite adjacentb_sym. do 2 f_equal. apply bool_decide_ext. done.
  - rewrite (is_connected_spec self g Hup p p A A) by done. f_equal.
    unfold adjacentb. rewrite !Z.sub_diag. simpl. by rewrite !andb_false_r.
Qed.

Lemma is_connected_symmetric_witness :
  exists self' g A B,
    set_population P25 [py "1111100000"] = Ok self'
    /\ population self' !! 0%nat = Some g
    /\ cell g 3 0 = Some A /\ cell g 3 1 = Some B
    /\ is_connected g A B = Ok (adjacentb (3, 0) (3, 1) && bool_decide (value A = value B))
    /\ is_connected g B A = Ok (adjacentb (3, 0) (3, 1) && bool_decide (value A = value B))
    /\ is_connected g A A = Ok false.
Proof.
  apply (is_connected_symmetric P25 [py "1111100000"] 1 0 (3, 0) (3, 1)).
  - simpl. lia.
  - simpl. lia.
  - reflexivity.
  - simpl. lia.
  - vm_compute. repeat split; discriminate.
  - vm_compute. repeat split; discriminate.
Defined.

(** ** [bfs] inside one component *)

Lemma linked_sym (self : Pentomino) (g : Grid) (p q : ref) :
  linked self g p q -> linked self g q p.
Proof.
  intros (Hp & Hq & Hadj & a & b & Ha & Hb & Hv).
  split; [done |]. split; [done |]. split; [by rewrite adjacentb_sym |].
  exists b, a. done.
Qed.

Lemma reachable_sym (self : Pentomino) (g : Grid) (p q : ref) :
  rtc (linked self g) p q -> rtc (linked self g) q p.
Proof.
  induction 1 as [|p p' q Hstep _ IH]; [done |].
  eapply rtc_r; [exact IH | by apply linked_sym].
Qed.

(** X11. In a grid [set_population] builds, [bfs] returns the same count
    from any two cells of one component: if [q] can be reached from [p]
    through linked cells, the counts from [p] and from [q] are equal. *)
Theorem bfs_same_in_component (self self' : Pentomino) (bs : list pystr) (w : Z)
    (gi : nat) (g : Grid) (p q : ref) (a b : Node) (fuel : nat) :
  0 <= m self -> 0 <= n self -> bitsize self = Ok w ->
  set_population self bs = Ok self' ->
  population self' !! gi = Some g ->
  inside self p.1 p.2 ->
  cell g p.1 p.2 = Some a -> cell g q.1 q.2 = Some b ->
  rtc (linked self g) p q ->
  (Z.to_nat (m self * n self) < fuel)%nat ->
  exists count, bfs fuel g a = Ok count /\ bfs fuel g b = Ok count.
Proof.
  intros Hm Hn Hw Hrun Hg Hp Ha Hb Hreach Hfuel.
  destruct (set_population_spec self bs w Hm Hn Hw) as (self1 & Hrun1 & Hdec).
  assert (self1 = self') as -> by congruence.
  pose proof (decoded_linked_up _ _ _ _ _ _ Hdec Hg) as Hup.
  assert (inside self q.1 q.2) as Hq.
  { revert Hreach. apply (rtc_ind_r (fun q => inside self q.1 q.2)); [done |].
    intros q1 q2 _ Hstep _. apply Hstep. }
  destruct (bfs_spec self g Hup p a fuel Hp Ha) as (cp & Hbp & Hndp & Hcp & _); [lia |].
  destruct (bfs_spec self g Hup q b fuel Hq Hb) as (cq & Hbq & Hndq & Hcq & _); [lia |].
  exists (len cp). split; [done |]. rewrite Hbq. f_equal. unfold len. f_equal.
  apply Permutation_length, NoDup_Permutation; [done | done |].
  intros x. rewrite Hcp, Hcq. split; intros Hx.
  - etrans; [exact Hreach | done].
  - etrans; [by apply reachable_sym | done].
Qed.

Lemma bfs_same_in_component_witness :
  exists count,
    bfs 11 (default [] (population P25_linked !! 0%nat)) (mkNode 0 0 (py "1") [(1, 0); (0, 1)])
    = Ok count
    /\ bfs 11 (default [] (population P25_linked !! 0%nat)) (mkNode 1 0 (py "1") [(0, 0); (2, 0); (1, 1)])
       = Ok count.
Proof.
  apply (bfs_same_in_component P25 P25_linked [py "1111100000"] 1 0
           (default [] (population P25_linked !! 0%nat)) (0, 0) (1, 0)).
  - simpl. lia.
  - simpl. lia.
  - reflexivity.
  - exact P25_set_population.
  - reflexivity.
  - vm_compute. repeat split; discriminate.
  - reflexivity.
  - reflexivity.
  - apply rtc_once. split; [vm_compute; repeat split; discriminate |].
    split; [vm_compute; repeat split; discriminate |]. split; [reflexivity |].
    eexists _, _. split; [reflexivity |]. split; [reflexivity |]. reflexivity.
  - simpl. lia.
Defined.

(** ** The board printer: what it prints, and when it does not stop *)

Lemma collect_pents_stuck (b : pystr) (w : Z) (fuel : nat) :
  forall (k0 : Z) (pents : list pystr),
    w <= 0 -> k0 <= 0 -> 0 < len b ->
    collect_pents fuel b w k0 pents = OutOfFuel.
Proof.
  induction fuel as [|fuel IH]; intros k0 pents Hw Hk Hb; cbn [collect_pents];
    (destruct (Z.ltb_spec k0 (len b)); [| lia]); [done |].
  apply IH; lia.
Qed.

(** X12. When the bit string is not empty but shorter than the number of
    cells, the chunk width [int(len(bitstring) / (m * n))] is zero, the
    position in the first loop never moves, and [print_pentomino] does not
    return: the call is still running after any number of iterations. The
    same holds when [m * n] is negative. *)
Theorem print_pentomino_hangs (fuel : nat) (bitstring : pystr) (m0 n0 : Z) :
  bitstring <> [] ->
  m0 * n0 <> 0 ->
  Z.quot (len bitstring) (m0 * n0) <= 0 ->
  print_pentomino fuel bitstring m0 n0 = OutOfFuel.
Proof.
  intros Hne Harea Hw. unfold print_pentomino.
  destruct (Z.eqb_spec (m0 * n0) 0); [done |].
  rewrite collect_pents_stuck; [done | done | lia |].
  destruct bitstring; [done |]. unfold len. simpl. lia.
Qed.

Lemma print_pentomino_hangs_witness :
  print_pentomino 1000 (py "111") 2 5 = OutOfFuel.
Proof.
  apply (print_pentomino_hangs 1000 (py "111") 2 5).
  - discriminate.
  - lia.
  - vm_compute. discriminate.
Defined.

Lemma NoDup_reps : NoDup reps.
Proof. apply (bool_decide_unpack _). vm_compute. exact I. Qed.

Lemma glyph_for_spec (pents : list pystr) (idx : pystr) :
  idx ∈ pents -> (length pents <= 8)%nat ->
  exists i glyph,
    pents !! i = Some idx /\ reps !! i = Some glyph
    /\ list_index idx pents = Ok (Z.of_nat i)
    /\ getitem reps (Z.of_nat i) = Ok glyph
    /\ glyph_for pents idx = glyph.
Proof.
  intros Hin Hlen. destruct (list_index_elem _ _ Hin) as (i & Hidx & Hi).
  apply lookup_lt_Some in Hi as Hlt.
  destruct (lookup_lt_is_Some_2 reps i) as [glyph Hg]; [simpl; lia |].
  exists i, glyph. split; [done |]. split; [done |]. split; [done |].
  assert (getitem reps (Z.of_nat i) = Ok glyph) as Hget.
  { apply getitem_lookup; [lia | by rewrite Nat2Z.id]. }
  split; [done |]. unfold glyph_for. by rewrite Hidx, Hget.
Qed.

Section PrinterOutput.
Variables (b : pystr) (w m0 : Z) (pents : list pystr).
Hypothesis Hw : 0 < w.
Hypothesis Hm0 : m0 <> 0.
Hypothesis Hlen : (length pents <= 8)%nat.

(** The second loop prints the glyphs of the chunks still to come. *)
Lemma print_cells_output (d : nat) :
  forall (fuel j : nat) (out : list pystr),
    Z.of_nat j + Z.of_nat d = chunk_count b w ->
    (d < fuel)%nat ->
    (forall idx, idx ∈ drop j (chunks b w) -> idx ∈ pents) ->
    print_cells fuel b w m0 (Z.of_nat j * w) pents out
    = Ok (out ++ layout m0 (Z.of_nat j) (glyph_for pents <$> drop j (chunks b w))).
Proof.
  induction d as [|d IH]; intros fuel j out Hj Hfuel Hall;
    (destruct fuel as [|fuel]; [lia |]); cbn [print_cells].
  - destruct (Z.ltb_spec (Z.of_nat j * w) (len b)) as [Hlt | Hge].
    + apply chunk_count_spec in Hlt; lia.
    + rewrite drop_ge by (rewrite length_chunks; lia). simpl. by rewrite app_nil_r.
  - pose proof (chunks_lookup b w j Hw ltac:(lia)) as Hchunk.
    destruct (Z.ltb_spec (Z.of_nat j * w) (len b)) as [Hlt | Hge];
      [| exfalso; assert (~ Z.of_nat j * w < len b) as Hn by lia;
         apply Hn, chunk_count_spec; lia].
    rewrite (drop_S _ _ _ Hchunk) in Hall |- *.
    set (idx := py_slice b (Z.of_nat j * w) (Z.of_nat j * w + w)) in *.
    destruct (glyph_for_spec pents idx)
      as (i & glyph & _ & _ & -> & Hget & Hglyph); [apply Hall; left | done |].
    cbn [obind]. rewrite Hget. cbn [obind].
    destruct (Z.eqb_spec w 0); [lia |]. destruct (Z.eqb_spec m0 0); [done |].
    replace (Z.of_nat j * w + w) with (Z.of_nat (S j) * w) by lia.
    rewrite IH; [| lia | lia | intros idx' Hidx; apply Hall; by right].
    rewrite Z.quot_mul by lia.
    replace (Z.of_nat (S j) * w =? 0) with false by (symmetry; apply Z.eqb_neq; nia).
    rewrite andb_true_r. rewrite fmap_cons. cbn [layout]. rewrite Hglyph.
    replace (Z.of_nat j + 1) with (Z.of_nat (S j)) by lia.
    destruct (Z.of_nat (S j) mod m0 =? 0); by rewrite <- !app_assoc.
Qed.

End PrinterOutput.

(** X13. When the chunks of positive width take at most 8 distinct values,
    [print_pentomino] prints one glyph of its alphabet, followed by a blank,
    for every chunk, and a line break after every [m]-th chunk. Two chunks
    get the same glyph exactly when they are equal. *)
Theorem print_pentomino_output (fuel : nat) (bitstring : pystr) (m0 n0 : Z) :
  let bitsize := Z.quot (len bitstring) (m0 * n0) in
  0 < bitsize ->
  (length bitstring < fuel)%nat ->
  (distinct_chunks bitstring bitsize <= 8)%nat ->
  exists glyphs,
    print_pentomino fuel bitstring m0 n0 = Ok (layout m0 0 glyphs)
    /\ length glyphs = length (chunks bitstring bitsize)
    /\ (forall glyph, glyph ∈ glyphs -> glyph ∈ reps)
    /\ (forall i j ci cj gi gj,
          chunks bitstring bitsize !! i = Some ci ->
          chunks bitstring bitsize !! j = Some cj ->
          glyphs !! i = Some gi -> glyphs !! j = Some gj ->
          (gi = gj <-> ci = cj)).
Proof.
  intros bitsize Hw Hfuel Hdist.
  assert (m0 * n0 <> 0) as Harea.
  { intros H0. unfold bitsize in Hw. rewrite (Z.quot_0_r_ext _ _ H0) in Hw. lia. }
  assert (m0 <> 0) as Hm0 by nia.
  pose proof (chunk_count_bound bitstring bitsize Hw) as Hcnt.
  set (cnt := Z.to_nat (chunk_count bitstring bitsize)).
  set (pents := first_seen (chunks bitstring bitsize) []).
  destruct (first_seen_spec (chunks bitstring bitsize) [] NoDup_nil_2) as [Hnd Hel].
  fold pents in Hnd, Hel.
  rewrite <- length_first_seen in Hdist. fold pents in Hdist.
  assert (forall idx, idx ∈ chunks bitstring bitsize -> idx ∈ pents) as Hall.
  { intros idx Hidx. apply Hel. by right. }
  exists (glyph_for pents <$> chunks bitstring bitsize).
  split; [| split; [by rewrite length_fmap | split]].
  - unfold print_pentomino. destruct (Z.eqb_spec (m0 * n0) 0); [done |]. fold bitsize.
    pose proof (collect_pents_spec bitstring bitsize cnt fuel 0 [] Hw) as Hc.
    rewrite drop_0 in Hc. change (Z.of_nat 0 * bitsize) with 0 in Hc.
    rewrite Hc by (unfold cnt, len in *; lia). cbn [obind]. fold pents.
    apply (print_cells_output bitstring bitsize m0 pents Hw Hm0 Hdist cnt fuel 0 []);
      [unfold cnt; lia | unfold cnt, len in *; lia | done].
  - intros glyph (idx & -> & Hidx)%list_elem_of_fmap.
    destruct (glyph_for_spec pents idx (Hall _ Hidx) Hdist) as (i & g & _ & Hg & _ & _ & ->).
    by eapply list_elem_of_lookup_2.
  - intros i j ci cj gi gj Hci Hcj Hgi Hgj.
    rewrite list_lookup_fmap, Hci in Hgi. rewrite list_lookup_fmap, Hcj in Hgj.
    injection Hgi as <-. injection Hgj as <-.
    split; [| by intros ->]. intros Heq.
    destruct (glyph_for_spec pents ci (Hall _ (list_elem_of_lookup_2 _ _ _ Hci)) Hdist)
      as (i1 & g1 & Hp1 & Hr1 & _ & _ & He1).
    destruct (glyph_for_spec pents cj (Hall _ (list_elem_of_lookup_2 _ _ _ Hcj)) Hdist)
      as (i2 & g2 & Hp2 & Hr2 & _ & _ & He2).
    assert (i1 = i2) as ->.
    { apply (NoDup_lookup reps i1 i2 g1 NoDup_reps Hr1). congruence. }
    congruence.
Qed.

Lemma print_pentomino_output_witness :
  exists glyphs,
    print_pentomino 11 (py "1111100000") 2 5 = Ok (layout 2 0 glyphs)
    /\ length glyphs = length (chunks (py "1111100000") (Z.quot (len (py "1111100000")) (2 * 5)))
    /\ (forall glyph, glyph ∈ glyphs -> glyph ∈ reps)
    /\ (forall i j ci cj gi gj,
          chunks (py "1111100000") (Z.quot (len (py "1111100000")) (2 * 5)) !! i = Some ci ->
          chunks (py "1111100000") (Z.quot (len (py "1111100000")) (2 * 5)) !! j = Some cj ->
          glyphs !! i = Some gi -> glyphs !! j = Some gj ->
          (gi = gj <-> ci = cj)).
Proof.
  apply (print_pentomino_output 11 (py "1111100000") 2 5).
  - reflexivity.
  - simpl. lia.
  - vm_compute. lia.
Defined.

(** ** Fitness on any decoded population *)

Lemma dict_get_None (d : dict) (key : pystr) :
  dict_get d key = None <-> key ∉ dict_keys d.
Proof.
  unfold dict_keys. induction d as [|[key' v'] d IH]; simpl.
  - split; [intros _; apply not_elem_of_nil | done].
  - case_bool_decide as Heq.
    + split; [done |]. intros Hnot. exfalso. apply Hnot. rewrite Heq. left.
    + rewrite IH, not_elem_of_cons. split; [by split | tauto].
Qed.

Lemma dict_set_present (d : dict) (key : pystr) (old v : Z) :
  dict_get d key = Some old ->
  dict_keys (dict_set d key v) = dict_keys d
  /\ sumZ (dict_values (dict_set d key v)) = sumZ (dict_values d) - old + v
  /\ forall P : Z -> Prop, Forall P (dict_values d) -> P v ->
       Forall P (dict_values (dict_set d key v)).
Proof.
  unfold dict_keys, dict_values, sumZ. induction d as [|[key' v'] d IH]; [done |].
  cbn [dict_get dict_set]. case_bool_decide as Heq.
  - intros [= ->]. rewrite !fmap_cons. cbn [foldr fst snd].
    split; [done |]. split; [lia |].
    intros P HP Hv. apply Forall_cons in HP as [_ HP]. by apply Forall_cons.
  - intros Hget. destruct (IH Hget) as (Hk & Hs & HF).
    rewrite !fmap_cons. cbn [foldr fst snd].
    split; [by f_equal |]. split; [lia |].
    intros P HP Hv. apply Forall_cons in HP as [Hv' HP]. apply Forall_cons.
    split; [done | by apply HF].
Qed.

Lemma dict_set_absent (d : dict) (key : pystr) (v : Z) :
  dict_get d key = None ->
  dict_keys (dict_set d key v) = dict_keys d ++ [key]
  /\ sumZ (dict_values (dict_set d key v)) = sumZ (dict_values d) + v
  /\ forall P : Z -> Prop, Forall P (dict_values d) -> P v ->
       Forall P (dict_values (dict_set d key v)).
Proof.
  unfold dict_keys, dict_values, sumZ. induction d as [|[key' v'] d IH].
  - intros _. simpl. split; [done |]. split; [lia |]. intros P _ Hv. by apply Forall_singleton.
  - cbn [dict_get dict_set]. case_bool_decide as Heq; [done |].
    intros Hget. destruct (IH Hget) as (Hk & Hs & HF).
    rewrite !fmap_cons. cbn [foldr fst snd].
    split; [simpl; by f_equal |]. split; [lia |].
    intros P HP Hv. apply Forall_cons in HP as [Hv' HP]. apply Forall_cons.
    split; [done | by apply HF].
Qed.

(** One more cell keeps the two dictionaries in step. *)
Lemma tally_inv (cells seen : Z) (st : dict * dict) (node : Node) (count : Z) :
  1 <= count <= cells ->
  table_inv cells seen st -> table_inv cells (seen + 1) (tally st node count).
Proof.
  intros Hcount. destruct st as [cc tc]. intros (Hkeys & Hsum & Hall). simpl in *.
  unfold tally, table_inv.
  destruct (dict_get tc (value node)) as [told|] eqn:Ht.
  - destruct (dict_get cc (value node)) as [cold|] eqn:Hc.
    + destruct (dict_set_present tc _ told (told + 1) Ht) as (Hk2 & Hs2 & _).
      destruct (dict_set_present cc _ cold count Hc) as (Hk1 & _ & HF1).
      destruct (Z.abs (count - 5) <? Z.abs (cold - 5)); simpl;
        (split; [congruence |]); (split; [lia |]); [by apply HF1 | done].
    + apply dict_get_None in Hc. rewrite Hkeys in Hc. apply dict_get_None in Hc. congruence.
  - destruct (dict_get cc (value node)) as [cold|] eqn:Hc.
    + apply dict_get_None in Ht. rewrite <- Hkeys in Ht. apply dict_get_None in Ht. congruence.
    + destruct (dict_set_absent tc _ 1 Ht) as (Hk2 & Hs2 & _).
      destruct (dict_set_absent cc _ count Hc) as (Hk1 & _ & HF1). simpl.
      split; [congruence |]. split; [lia |]. by apply HF1.
Qed.

Section Tables.
Variables (self self' : Pentomino) (w : Z) (bs : list pystr).
Hypothesis Hm : 0 < m self.
Hypothesis Hn : 0 < n self.
Hypothesis Hdec : decoded self w bs self'.

Lemma decoded_dims : m self' = m self /\ n self' = n self /\ k self' = k self.
Proof. destruct Hdec as [(Hm' & Hn' & _ & Hk' & _) _]. done. Qed.

(** The body of the cell loops, for a cell of a grid of the population. *)
Lemma count_cell_spec (fuel : nat) (i row col : Z) (st : dict * dict) :
  0 <= i < len bs ->
  inside self row col ->
  (Z.to_nat (m self * n self) < fuel)%nat ->
  exists node count,
    count_cell fuel self' i row st col = Ok (tally st node count)
    /\ 1 <= count <= m self * n self.
Proof.
  intros Hi Hin Hfuel. pose proof (decoded_length _ _ _ _ Hdec) as Hl.
  destruct (lookup_lt_is_Some_2 (population self') (Z.to_nat i)) as [g Hg];
    [unfold len in Hi; lia |].
  pose proof (decoded_linked_up _ _ _ _ _ _ Hdec Hg) as Hup.
  destruct (Hup (row, col) Hin) as (node & Hnode & _).
  destruct (bfs_spec self g Hup (row, col) node fuel Hin Hnode)
    as (comp & Hbfs & _ & _ & Hsize); [lia |].
  exists node, (len comp). split; [| unfold len; lia].
  unfold count_cell. rewrite (getitem_lookup _ _ _ (proj1 Hi) Hg). cbn [obind].
  simpl in Hnode. unfold cell, node_at in Hnode. destruct Hin as [Hr Hc].
  destruct (Z.leb_spec 0 row); [| lia]. destruct (Z.leb_spec 0 col); [| lia].
  simpl in Hnode. destruct (g !! Z.to_nat row) as [line|] eqn:Hline; [| done].
  rewrite (getitem_lookup _ _ _ (proj1 Hr) Hline). cbn [obind].
  rewrite (getitem_lookup _ _ _ (proj1 Hc) Hnode). cbn [obind].
  by rewrite Hbfs.
Qed.

(** The cell loops of [fitness] for one candidate. *)
Lemma count_tables_spec (fuel : nat) (i : Z) :
  0 <= i < len bs ->
  (Z.to_nat (m self * n self) < fuel)%nat ->
  exists tables,
    count_tables fuel self' i = Ok tables
    /\ table_inv (m self * n self) (m self * n self) tables.
Proof.
  intros Hi Hfuel. destruct decoded_dims as (Hm' & Hn' & _).
  unfold count_tables. rewrite Hm', Hn'.
  destruct (for_range_inv
    (fun row st => table_inv (m self * n self) (row * m self) st) (n self)
    (fun st row => for_each (range 0 (m self)) (count_cell fuel self' i row) st)
    ([], [])) as (tables & Hrun & Hinv); [lia | | |].
  - split; [done |]. split; [done |]. apply Forall_nil_2.
  - intros row st Hrow Hst.
    destruct (for_range_inv
      (fun col st => table_inv (m self * n self) (row * m self + col) st) (m self)
      (count_cell fuel self' i row) st) as (st' & Hrun & Hinv); [lia | | |].
    + by rewrite Z.add_0_r.
    + intros col st0 Hcol Hst0.
      destruct (count_cell_spec fuel i row col st0 Hi) as (node & count & -> & Hcount);
        [done | done |].
      eexists. split; [done |].
      replace (row * m self + (col + 1)) with (row * m self + col + 1) by lia.
      by apply tally_inv.
    + exists st'. split; [done |].
      by replace ((row + 1) * m self) with (row * m self + m self) by lia.
  - exists tables. split; [done |].
    by replace (n self * m self) with (m self * n self) in Hinv by lia.
Qed.

End Tables.

Lemma closeness_fold_le (vals : list Z) :
  forall acc : Q,
    (fold_left (fun sm x => sm + (1 - inject_Z (Z.abs (5 - x)) / 5)) vals acc
     <= acc + inject_Z (len vals))%Q.
Proof.
  induction vals as [|x vals IH]; intros acc.
  - simpl. change (inject_Z (len [])) with 0%Q. lra.
  - cbn [fold_left]. eapply Qle_trans; [apply IH |].
    assert (0 <= inject_Z (Z.abs (5 - x)))%Q as Habs.
    { change 0%Q with (inject_Z 0). rewrite <- Zle_Qle. lia. }
    assert (inject_Z (len (x :: vals)) = inject_Z (len vals) + 1)%Q as ->.
    { unfold len. simpl length. rewrite Nat2Z.inj_succ, <- Z.add_1_r. apply inject_Z_plus. }
    unfold Qdiv. change (/ 5)%Q with (1 # 5)%Q. lra.
Qed.

Lemma closeness_le (d : dict) : (closeness d <= inject_Z (len d))%Q.
Proof.
  unfold closeness. eapply Qle_trans; [apply closeness_fold_le |].
  unfold dict_values, len. rewrite length_fmap. lra.
Qed.

(** The score of a candidate whose dictionaries are not empty. *)
Lemma score_of_spec (penalty : Q) (tables : dict * dict) :
  tables.1 <> [] -> tables.2 <> [] ->
  exists score,
    score_of penalty tables = Ok score
    /\ ((0 <= penalty)%Q -> (score <= 1 + penalty)%Q).
Proof.
  intros H1 H2.
  assert (forall d : dict, d <> [] ->
            exists avg, average (closeness d) d = Ok avg /\ (avg <= 1)%Q) as Havg.
  { intros d Hd. unfold average.
    assert (0 < len d) as Hlen by (destruct d; [done | unfold len; simpl; lia]).
    destruct (Z.eqb_spec (len d) 0); [lia |]. eexists. split; [done |].
    apply Qle_shift_div_r.
    - change 0%Q with (inject_Z 0). rewrite <- Zlt_Qlt. done.
    - pose proof (closeness_le d). lra. }
  destruct (Havg _ H1) as (avgc & Hc & Hc1). destruct (Havg _ H2) as (avgt & Ht & Ht1).
  unfold score_of. rewrite Hc. cbn [obind]. rewrite Ht. cbn [obind].
  eexists. split; [done |]. intros Hp. nra.
Qed.

Lemma table_inv_nonempty (cells seen : Z) (tables : dict * dict) :
  0 < seen -> table_inv cells seen tables -> tables.1 <> [] /\ tables.2 <> [].
Proof.
  intros Hseen (Hkeys & Hsum & _).
  assert (tables.2 <> []) as H2 by (intros H0; rewrite H0 in Hsum; simpl in Hsum; lia).
  split; [| done]. intros H1. rewrite H1 in Hkeys.
  unfold dict_keys in Hkeys. simpl in Hkeys. symmetry in Hkeys.
  by apply fmap_nil_inv in Hkeys.
Qed.

Lemma range_split (a hi : Z) : 0 <= a <= hi -> range 0 hi = range 0 a ++ range a hi.
Proof.
  intros Ha. replace hi with (a + (hi - a)) at 1 by lia.
  rewrite range_app by lia. f_equal. unfold range. rewrite <- list_fmap_compose.
  rewrite Z.sub_0_r. apply list_fmap_ext. intros _ j _. simpl. lia.
Qed.

Lemma range_head (lo hi : Z) : lo < hi -> exists tl, range lo hi = lo :: tl.
Proof.
  intros Hlt. unfold range.
  replace (Z.to_nat (hi - lo)) with (S (Z.to_nat (hi - lo - 1))) by lia.
  simpl. rewrite Z.add_0_r. eauto.
Qed.

Section Scores.
Variables (self self' : Pentomino) (w : Z) (bs : list pystr) (fuel : nat) (penalty : Q).
Hypothesis Hm : 0 < m self.
Hypothesis Hn : 0 < n self.
Hypothesis Hdec : decoded self w bs self'.
Hypothesis Hfuel : (Z.to_nat (m self * n self) < fuel)%nat.

(** The candidate loop of [fitness], as far as there are grids. *)
Lemma fitness_loop (j : Z) :
  0 <= j <= len bs ->
  exists scores,
    for_each (range 0 j)
      (fun scores i =>
         do tables <- count_tables fuel self' i;
         do sc <- score_of penalty tables;
         Ok (scores ++ [sc]))
      []
    = Ok scores
    /\ len scores = j
    /\ ((0 <= penalty)%Q -> Forall (fun s => (s <= 1 + penalty)%Q) scores).
Proof.
  intros Hj.
  apply (for_range_inv
    (fun j scores => len scores = j
       /\ ((0 <= penalty)%Q -> Forall (fun s => (s <= 1 + penalty)%Q) scores)));
    [lia | by split | ].
  intros i scores Hi [Hlen Hall].
  destruct (count_tables_spec self self' w bs Hm Hn Hdec fuel i) as (tables & -> & Hinv);
    [lia | done |].
  destruct (table_inv_nonempty (m self * n self) (m self * n self) tables) as [H1 H2];
    [nia | done |].
  destruct (score_of_spec penalty tables H1 H2) as (sc & Hsc & Hbound).
  cbn [obind]. rewrite Hsc. cbn [obind]. eexists. split; [done |].
  split; [rewrite len_app; unfold len in *; simpl; lia |].
  intros Hp. apply Forall_app. split; [by apply Hall |]. apply Forall_singleton. by apply Hbound.
Qed.

Lemma count_tables_past_end (i : Z) :
  len bs <= i -> count_tables fuel self' i = Raise IndexError.
Proof.
  intros Hi. destruct (decoded_dims self self' w bs Hdec) as (Hm' & Hn' & _).
  unfold count_tables. rewrite Hm', Hn'.
  destruct (range_head 0 (n self) Hn) as [rows ->].
  destruct (range_head 0 (m self) Hm) as [cols ->].
  cbn [for_each]. unfold count_cell at 1.
  rewrite getitem_past_end; [done |].
  left. unfold len in *. by rewrite (decoded_length _ _ _ _ Hdec).
Qed.

Lemma fitness_spec :
  (0 <= k self <= len bs ->
     exists scores,
       fitness fuel self' penalty = Ok scores
       /\ len scores = k self
       /\ ((0 <= penalty)%Q -> Forall (fun s => (s <= 1 + penalty)%Q) scores))
  /\ (len bs < k self -> fitness fuel self' penalty = Raise IndexError).
Proof.
  destruct (decoded_dims self self' w bs Hdec) as (_ & _ & Hk').
  unfold fitness. rewrite Hk'. split; intros Hk.
  - by apply fitness_loop.
  - pose proof (len_nonneg bs) as Hl.
    rewrite (range_split (len bs)) by lia. rewrite for_each_app.
    destruct (fitness_loop (len bs)) as (scores & -> & _); [lia |]. cbn [obind].
    destruct (range_head (len bs) (k self) Hk) as [tl ->]. cbn [for_each].
    by rewrite count_tables_past_end.
Qed.

End Scores.

(** X14. After [set_population] on a board with cells, [fitness] returns
    one score for every candidate when [k] is at most the number of grids;
    when [k] is larger, as it is once a generation was bred from an odd [k],
    the candidate loop reads past the last grid and [fitness] ends with an
    [IndexError]. *)
Theorem fitness_one_score_each (self : Pentomino) (bs : list pystr) (w : Z)
    (fuel : nat) (penalty : Q) :
  0 < m self -> 0 < n self -> bitsize self = Ok w ->
  (Z.to_nat (m self * n self) < fuel)%nat ->
  exists self',
    set_population self bs = Ok self'
    /\ (0 <= k self <= len bs ->
          exists scores, fitness fuel self' penalty = Ok scores /\ len scores = k self)
    /\ (len bs < k self -> fitness fuel self' penalty = Raise IndexError).
Proof.
  intros Hm Hn Hw Hfuel.
  destruct (set_population_spec self bs w ltac:(lia) ltac:(lia) Hw) as (self' & Hrun & Hdec).
  exists self'. split; [done |].
  destruct (fitness_spec self self' w bs fuel penalty Hm Hn Hdec Hfuel) as [Hok Herr].
  split; [| done]. intros Hk. destruct (Hok Hk) as (scores & Hs & Hl & _). eauto.
Qed.

Lemma fitness_one_score_each_witness :
  exists self',
    set_population P25 [py "1111100000"] = Ok self'
    /\ (0 <= k P25 <= len [py "1111100000"] ->
          exists scores, fitness 11 self' (1 # 5) = Ok scores /\ len scores = k P25)
    /\ (len [py "1111100000"] < k P25 -> fitness 11 self' (1 # 5) = Raise IndexError).
Proof.
  apply (fitness_one_score_each P25 [py "1111100000"] 1 11 (1 # 5)).
  - simpl. lia.
  - simpl. lia.
  - reflexivity.
  - simpl. lia.
Defined.

(** X15. For a penalty weight that is not negative, no score [fitness]
    returns exceeds [1 + penalty]: both averages are at most 1, since no
    identifier contributes more than 1 to either. *)
Theorem fitness_at_most_one_plus_penalty (self : Pentomino) (bs : list pystr) (w : Z)
    (fuel : nat) (penalty : Q) :
  0 < m self -> 0 < n self -> bitsize self = Ok w ->
  (Z.to_nat (m self * n self) < fuel)%nat ->
  0 <= k self <= len bs ->
  (0 <= penalty)%Q ->
  exists self' scores,
    set_population self bs = Ok self'
    /\ fitness fuel self' penalty = Ok scores
    /\ Forall (fun s => (s <= 1 + penalty)%Q) scores.
Proof.
  intros Hm Hn Hw Hfuel Hk Hp.
  destruct (set_population_spec self bs w ltac:(lia) ltac:(lia) Hw) as (self' & Hrun & Hdec).
  destruct (fitness_spec self self' w bs fuel penalty Hm Hn Hdec Hfuel) as [Hok _].
  destruct (Hok Hk) as (scores & Hs & _ & Hall). exists self', scores. auto.
Qed.

Lemma fitness_at_most_one_plus_penalty_witness :
  exists self' scores,
    set_population P25 [py "1111110000"] = Ok self'
    /\ fitness 11 self' (1 # 5) = Ok scores
    /\ Forall (fun s => (s <= 1 + (1 # 5))%Q) scores.
Proof.
  apply (fitness_at_most_one_plus_penalty P25 [py "1111110000"] 1 11 (1 # 5)).
  - simpl. lia.
  - simpl. lia.
  - reflexivity.
  - simpl. lia.
  - vm_compute. split; discriminate.
  - vm_compute. discriminate.
Defined.

(** X16. For every candidate, the two dictionaries [fitness] fills have
    the same keys in the same order; [total_counts] counts every cell of the
    board exactly once, so its values add up to [m * n]; and every component
    size kept in [connected_counts] lies between 1 and [m * n]. *)
Theorem fitness_tables (self : Pentomino) (bs : list pystr) (w : Z)
    (fuel : nat) (i : Z) :
  0 < m self -> 0 < n self -> bitsize self = Ok w ->
  (Z.to_nat (m self * n self) < fuel)%nat ->
  0 <= i < len bs ->
  exists self' connected_counts total_counts,
    set_population self bs = Ok self'
    /\ count_tables fuel self' i = Ok (connected_counts, total_counts)
    /\ dict_keys connected_counts = dict_keys total_counts
    /\ sumZ (dict_values total_counts) = m self * n self
    /\ Forall (fun x => 1 <= x <= m self * n self) (dict_values connected_counts).
Proof.
  intros Hm Hn Hw Hfuel Hi.
  destruct (set_population_spec self bs w ltac:(lia) ltac:(lia) Hw) as (self' & Hrun & Hdec).
  destruct (count_tables_spec self self' w bs Hm Hn Hdec fuel i Hi Hfuel)
    as ([cc tc] & Htab & Hkeys & Hsum & Hall).
  exists self', cc, tc. done.
Qed.

Lemma fitness_tables_witness :
  exists self' connected_counts total_counts,
    set_population P25 [py "1111110000"] = Ok self'
    /\ count_tables 11 self' 0 = Ok (connected_counts, total_counts)
    /\ dict_keys connected_counts = dict_keys total_counts
    /\ sumZ (dict_values total_counts) = m P25 * n P25
    /\ Forall (fun x => 1 <= x <= m P25 * n P25) (dict_values connected_counts).
Proof.
  apply (fitness_tables P25 [py "1111110000"] 1 11 0).
  - simpl. lia.
  - simpl. lia.
  - reflexivity.
  - simpl. lia.
  - vm_compute. split; [discriminate | reflexivity].
Defined.

(** ** The bit width *)

Lemma bitsize_ceil_log2_fifth (self : Pentomino) :
  bitsize self = ceil_log2_fifth (m self * n self).
Proof. reflexivity. Qed.

(** X17. For a board of at least five and fewer than [5 * 2 ^ 29] cells,
    the areas at which the float logarithm of the code gives the width the
    exact one gives, [bitsize] is the least number of bits [w] for which
    [2 ^ w] identifiers are enough for [m * n / 5] pieces:
    [m * n <= 5 * 2 ^ w], and no smaller width does. *)
Theorem bitsize_least (self : Pentomino) :
  5 <= m self * n self < 5 * 2 ^ 29 ->
  exists w,
    bitsize self = Ok w
    /\ 0 <= w
    /\ m self * n self <= 5 * 2 ^ w
    /\ (forall v, 0 <= v -> m self * n self <= 5 * 2 ^ v -> w <= v).
Proof.
  intros Harea. unfold bitsize.
  destruct (Z.leb_spec (m self * n self) 0); [lia |].
  destruct (Z.leb_spec 5 (m self * n self)); [| lia].
  set (area := m self * n self) in *. set (a := (area + 4) / 5).
  assert (area <= 5 * a < area + 5) as Ha.
  { unfold a. pose proof (Z.mul_div_le (area + 4) 5 ltac:(lia)).
    pose proof (Z.mul_succ_div_gt (area + 4) 5 ltac:(lia)). lia. }
  exists (Z.log2_up a). split; [done |]. split; [apply Z.log2_up_nonneg |].
  destruct (Z.eq_dec a 1) as [-> | Hne].
  - change (Z.log2_up 1) with 0. split; [simpl; lia |]. intros v Hv _. done.
  - destruct (Z.log2_up_spec a ltac:(lia)) as [Hlow Hup]. split; [lia |].
    intros v Hv Hfit. destruct (Z.le_gt_cases (Z.log2_up a) v) as [| Hlt]; [done |].
    exfalso.
    assert (2 ^ v <= 2 ^ Z.pred (Z.log2_up a)) by (apply Z.pow_le_mono_r; lia).
    lia.
Qed.

Lemma bitsize_least_witness :
  exists w,
    bitsize (mkPentomino 10 3 500 [] []) = Ok w
    /\ 0 <= w
    /\ m (mkPentomino 10 3 500 [] []) * n (mkPentomino 10 3 500 [] []) <= 5 * 2 ^ w
    /\ (forall v, 0 <= v ->
          m (mkPentomino 10 3 500 [] []) * n (mkPentomino 10 3 500 [] []) <= 5 * 2 ^ v ->
          w <= v).
Proof. apply (bitsize_least (mkPentomino 10 3 500 [] [])). simpl. lia. Defined.

(** ** The random bit strings and the constructor *)

Lemma random_bits_app (g : Rng) (from c1 c2 : nat) :
  random_bits g from (c1 + c2) = random_bits g from c1 ++ random_bits g (from + c1) c2.
Proof. unfold random_bits. by rewrite seq_app, fmap_app. Qed.

Lemma random_bit_loop (w : Z) (b : pystr) (g : Rng) :
  for_each (range 0 w) random_bit (b, g)
  = Ok (b ++ random_bits g (taken g) (Z.to_nat w),
        mkRng (draws g) (taken g + Z.to_nat w)).
Proof.
  destruct (Z.le_gt_cases 0 w) as [Hw | Hw].
  - destruct (for_range_inv
      (fun j st => st = (b ++ random_bits g (taken g) (Z.to_nat j),
                         mkRng (draws g) (taken g + Z.to_nat j)))
      w random_bit (b, g)) as (st & Hrun & Hst); [done | | |].
    + simpl. rewrite app_nil_r, Nat.add_0_r. by destruct g.
    + intros j st Hj ->. eexists. split; [| reflexivity].
      unfold random_bit, random. simpl.
      replace (Z.to_nat (j + 1)) with (Z.to_nat j + 1)%nat by lia.
      rewrite random_bits_app, app_assoc. unfold random_bits. simpl.
      replace (S (taken g + Z.to_nat j)) with (taken g + (Z.to_nat j + 1))%nat by lia.
      by destruct (Qlt_bool (draws g (taken g + Z.to_nat j)) (1 # 2)).
    + etrans; [exact Hrun |]. by rewrite Hst.
  - rewrite range_nil by lia. replace (Z.to_nat w) with O by lia. simpl.
    rewrite app_nil_r, Nat.add_0_r. by destruct g.
Qed.

Lemma init_random_representation_run (m0 n0 w : Z) (g : Rng) :
  ceil_log2_fifth (m0 * n0) = Ok w ->
  init_random_representation m0 n0 g
  = Ok (random_bits g (taken g) (Z.to_nat (m0 * n0) * Z.to_nat w),
        mkRng (draws g) (taken g + Z.to_nat (m0 * n0) * Z.to_nat w)).
Proof.
  intros Hw. unfold init_random_representation. rewrite Hw. cbn [obind].
  assert (0 <= m0 * n0) as Harea.
  { unfold ceil_log2_fifth in Hw. destruct (Z.leb_spec (m0 * n0) 0); [done | lia]. }
  destruct (for_range_inv
    (fun j st => st = (random_bits g (taken g) (Z.to_nat j * Z.to_nat w),
                       mkRng (draws g) (taken g + Z.to_nat j * Z.to_nat w)))
    (m0 * n0) (fun st _ => for_each (range 0 w) random_bit st) ([], g))
    as (st & Hrun & Hst); [done | | |].
  - simpl. rewrite Nat.add_0_r. by destruct g.
  - intros j st Hj ->. eexists. split; [| reflexivity].
    rewrite random_bit_loop. simpl.
    replace (Z.to_nat (j + 1) * Z.to_nat w)%nat
      with (Z.to_nat j * Z.to_nat w + Z.to_nat w)%nat by lia.
    rewrite random_bits_app. do 3 f_equal. lia.
  - etrans; [exact Hrun |]. by rewrite Hst.
Qed.




Lemma populate_grid_dims (b : pystr) (w : Z) (s1 s2 : Pentomino) :
  m s1 = m s2 -> n s1 = n s2 -> populate_grid b w s1 = populate_grid b w s2.
Proof. intros Hm Hn. unfold populate_grid. by rewrite Hm, Hn. Qed.

Lemma populate_dims (w : Z) (s1 s2 : Pentomino) (bs : list pystr) :
  m s1 = m s2 -> n s1 = n s2 -> populate w s1 bs = populate w s2 bs.
Proof.
  intros Hm Hn. rewrite !populate_spec. apply list_fmap_ext.
  intros _ b _. by apply populate_grid_dims.
Qed.

(** [set_population] looks at the dimensions of the object, not at its
    population. *)
Lemma set_population_fields (s1 s2 : Pentomino) (bs : list pystr) :
  m s1 = m s2 -> n s1 = n s2 -> k s1 = k s2 -> bitstrings s1 = bitstrings s2 ->
  set_population s1 bs = set_population s2 bs.
Proof.
  intros Hm Hn Hk Hb. unfold set_population.
  assert (set_pop s1 [] = set_pop s2 []) as -> by (unfold set_pop; congruence). done.
Qed.

Lemma random_strings_snoc (g : Rng) (bits cnt : nat) :
  forall from,
    random_strings g from bits (S cnt)
    = random_strings g from bits cnt ++ [random_bits g (from + cnt * bits) bits].
Proof.
  induction cnt as [|cnt IH]; intros from.
  - simpl. by rewrite Nat.add_0_r.
  - change (random_strings g from bits (S (S cnt)))
      with (random_bits g from bits :: random_strings g (from + bits) bits (S cnt)).
    rewrite IH. simpl. by rewrite Nat.add_assoc.
Qed.

Lemma length_random_strings (g : Rng) (bits cnt : nat) :
  forall from, length (random_strings g from bits cnt) = cnt.
Proof. induction cnt as [|cnt IH]; intros from; simpl; [done | by rewrite IH]. Qed.

(** The first loop of the constructor: [j] candidates drawn and populated. *)
Lemma Pentomino_init_populate (m0 n0 k0 w : Z) (g : Rng) :
  0 <= k0 ->
  ceil_log2_fifth (m0 * n0) = Ok w ->
  for_each (range 0 k0)
    (init_candidate m0 n0 w)
    (mkPentomino m0 n0 k0 [] [], g)
  = Ok (mkPentomino m0 n0 k0
          (populate w (mkPentomino m0 n0 k0 [] [])
             (random_strings g (taken g) (Z.to_nat (m0 * n0) * Z.to_nat w) (Z.to_nat k0)))
          (random_strings g (taken g) (Z.to_nat (m0 * n0) * Z.to_nat w) (Z.to_nat k0)),
        mkRng (draws g)
          (taken g + Z.to_nat k0 * (Z.to_nat (m0 * n0) * Z.to_nat w))).
Proof.
  intros Hk Hw. set (bits := (Z.to_nat (m0 * n0) * Z.to_nat w)%nat).
  destruct (for_range_inv
    (fun j st =>
       st = (mkPentomino m0 n0 k0
               (populate w (mkPentomino m0 n0 k0 [] [])
                  (random_strings g (taken g) bits (Z.to_nat j)))
               (random_strings g (taken g) bits (Z.to_nat j)),
             mkRng (draws g) (taken g + Z.to_nat j * bits)))
    k0
    (init_candidate m0 n0 w)
    (mkPentomino m0 n0 k0 [] [], g)) as (st & Hrun & Hst); [done | | |].
  - simpl. rewrite Nat.add_0_r. by destruct g.
  - intros j st Hj ->. eexists. split; [| reflexivity].
    unfold init_candidate.
    rewrite (init_random_representation_run m0 n0 w _ Hw). cbn [obind]. fold bits.
    unfold set_pop, set_bitstrings. simpl.
    replace (Z.to_nat (j + 1)) with (S (Z.to_nat j)) by lia.
    rewrite random_strings_snoc. rewrite !populate_spec, fmap_app. simpl.
    do 3 f_equal. lia.
  - etrans; [exact Hrun |]. by rewrite Hst.
Qed.

(** The constructor, run: the strings it stores and the population it
    builds. *)
Lemma Pentomino_init_run (m0 n0 k0 : Z) (g : Rng) :
  0 < m0 -> 0 < n0 -> 0 <= k0 ->
  exists w self' g',
    ceil_log2_fifth (m0 * n0) = Ok w
    /\ Pentomino_init m0 n0 k0 g = Ok (self', g')
    /\ m self' = m0 /\ n self' = n0 /\ k self' = k0
    /\ bitstrings self'
       = random_strings g (taken g) (Z.to_nat (m0 * n0) * Z.to_nat w) (Z.to_nat k0)
    /\ len (population self') = k0
    /\ set_population self' (bitstrings self') = Ok self'
    /\ draws g' = draws g
    /\ taken g' = (taken g + Z.to_nat k0 * (Z.to_nat (m0 * n0) * Z.to_nat w))%nat.
Proof.
  intros Hm Hn Hk.
  assert (exists w, ceil_log2_fifth (m0 * n0) = Ok w) as [w Hw].
  { unfold ceil_log2_fifth. destruct (Z.leb_spec (m0 * n0) 0); [nia |].
    destruct (5 <=? m0 * n0); eauto. }
  set (bs := random_strings g (taken g) (Z.to_nat (m0 * n0) * Z.to_nat w) (Z.to_nat k0)).
  set (self0 := mkPentomino m0 n0 k0 [] bs).
  destruct (set_population_spec self0 bs w ltac:(simpl; lia) ltac:(simpl; lia) Hw)
    as (self' & Hrun & Hdec).
  pose proof (decoded_length _ _ _ _ Hdec) as Hlen.
  destruct Hdec as [(Hm' & Hn' & _ & Hk' & Hb') _]. simpl in Hm', Hn', Hk', Hb'.
  assert (length bs = Z.to_nat k0) as Hbs by apply length_random_strings.
  exists w, self'. eexists. split; [done |]. split.
  - unfold Pentomino_init. rewrite bitsize_ceil_log2_fifth. simpl (m _ * n _). rewrite Hw.
    cbn [obind]. rewrite (Pentomino_init_populate m0 n0 k0 w g Hk Hw). cbn [obind].
    fold bs. unfold set_population in Hrun.
    rewrite bitsize_ceil_log2_fifth in Hrun. simpl (m _ * n _) in Hrun. rewrite Hw in Hrun.
    cbn [obind] in Hrun.
    replace (range 0 (len bs)) with (range 0 k0) in Hrun
      by (unfold range, len; rewrite Hbs; do 2 f_equal; lia).
    assert (set_pop (set_pop self0 []) (populate w (set_pop self0 []) bs)
            = mkPentomino m0 n0 k0 (populate w (mkPentomino m0 n0 k0 [] []) bs) bs) as Hstart.
    { unfold set_pop at 1. cbn [m n k bitstrings set_pop self0].
      f_equal; by apply populate_dims. }
    rewrite Hstart in Hrun. rewrite Hrun. reflexivity.
  - repeat (split; [done |]).
    split; [unfold len; rewrite Hlen, Hbs; lia |].
    split; [| done].
    rewrite Hb'. by rewrite (set_population_fields self' self0 bs).
Qed.



(** * The driver *)

Lemma bitsize_total (self : Pentomino) :
  0 < m self -> 0 < n self -> exists w, bitsize self = Ok w.
Proof.
  intros Hm Hn. unfold bitsize. cbv zeta.
  destruct (Z.leb_spec (m self * n self) 0); [nia |].
  destruct (5 <=? m self * n self); eauto.
Qed.

Lemma bred_decoded (L : nat) (cnt : Z) (p : Pentomino) (w : Z) :
  bred L cnt p -> bitsize p = Ok w -> decoded p w (bitstrings p) p.
Proof.
  intros (Hm & Hn & _ & _ & Heq) Hw.
  destruct (set_population_spec p (bitstrings p) w ltac:(lia) ltac:(lia) Hw)
    as (p' & Hrun & Hdec).
  rewrite Heq in Hrun. by injection Hrun as <-.
Qed.

Lemma drawn_from_splice (pool : list pystr) (a b : pystr) (q : nat) :
  a ∈ pool -> b ∈ pool -> (q <= length a)%nat ->
  drawn_from pool (take q a ++ drop q b).
Proof.
  intros Ha Hb Hq i ch Hi.
  destruct (decide (i < q)%nat) as [Hlt | Hge].
  - exists a. split; [done |].
    rewrite lookup_app_l in Hi by (rewrite length_take; lia).
    by rewrite lookup_take_lt in Hi by done.
  - exists b. split; [done |].
    rewrite lookup_app_r in Hi by (rewrite length_take; lia).
    rewrite length_take, lookup_drop in Hi.
    by replace (q + (i - q `min` length a))%nat with i in Hi by lia.
Qed.

Lemma crossover_pair (p : Pentomino) (L : nat) (i j : Z) (randint : Z -> Z -> Z) :
  Forall (fun b => length b = L) (bitstrings p) ->
  0 <= i < len (bitstrings p) -> 0 <= j < len (bitstrings p) ->
  (forall lo hi, lo <= hi -> lo <= randint lo hi <= hi) ->
  exists c1 c2,
    crossover p [i; j] randint = Ok [c1; c2]
    /\ length c1 = L /\ length c2 = L
    /\ drawn_from (bitstrings p) c1 /\ drawn_from (bitstrings p) c2.
Proof.
  intros Hall Hi Hj Hr. unfold len in Hi, Hj.
  destruct (lookup_lt_is_Some_2 (bitstrings p) (Z.to_nat i)) as [mom Hmom]; [lia |].
  destruct (lookup_lt_is_Some_2 (bitstrings p) (Z.to_nat j)) as [dad Hdad]; [lia |].
  pose proof (Forall_lookup_1 _ _ _ _ Hall Hmom) as Lm.
  pose proof (Forall_lookup_1 _ _ _ _ Hall Hdad) as Ld. simpl in Lm, Ld.
  pose proof (Hr 0 (len mom) (len_nonneg mom)) as Hq.
  exists (take (Z.to_nat (randint 0 (len mom))) mom ++ drop (Z.to_nat (randint 0 (len mom))) dad),
         (take (Z.to_nat (randint 0 (len mom))) dad ++ drop (Z.to_nat (randint 0 (len mom))) mom).
  split.
  { apply crossover_unfold; [apply getitem_lookup; [lia | done] .. | lia]. }
  set (q := randint 0 (len mom)) in *. unfold len in Hq.
  repeat split.
  - rewrite length_app, length_take, length_drop. lia.
  - rewrite length_app, length_take, length_drop. lia.
  - apply drawn_from_splice; [by eapply list_elem_of_lookup_2 .. | lia].
  - apply drawn_from_splice; [by eapply list_elem_of_lookup_2 .. | lia].
Qed.

Lemma breed_loop (fuel : nat) (randints : nat -> Z -> Z -> Z) (p : Pentomino) (L : nat)
    (scores : list Q) (g : Rng) (c : nat) (cnt : Z) :
  0 <= cnt ->
  (0 < cnt -> scores <> []) ->
  len scores = len (bitstrings p) ->
  Forall (fun b => length b = L) (bitstrings p) ->
  (forall i, (0 <= draws g i)%Q /\ (draws g i < 1)%Q) ->
  (forall j lo hi, lo <= hi -> lo <= randints j lo hi <= hi) ->
  (length scores < fuel)%nat ->
  exists children,
    for_each (range 0 cnt) (breed_pair fuel randints p scores (sumQ scores)) ([], g, c)
    = Ok (children, mkRng (draws g) (taken g + Z.to_nat (2 * cnt)), (c + Z.to_nat cnt)%nat)
    /\ len children = 2 * cnt
    /\ Forall (fun b => length b = L) children
    /\ Forall (drawn_from (bitstrings p)) children.
Proof.
  intros Hcnt Hne Hlen Hall Hdraw Hrand Hfuel.
  destruct (for_range_inv
    (fun j (st : list pystr * Rng * nat) =>
       st.1.2 = mkRng (draws g) (taken g + Z.to_nat (2 * j))
       /\ st.2 = (c + Z.to_nat j)%nat
       /\ len st.1.1 = 2 * j
       /\ Forall (fun b => length b = L) st.1.1
       /\ Forall (drawn_from (bitstrings p)) st.1.1)
    cnt (breed_pair fuel randints p scores (sumQ scores)) ([], g, c) Hcnt)
    as ([[children g'] c'] & Hrun & Hg & Hc & Hl & HL & Hd).
  - simpl. repeat split; try constructor; try lia.
    destruct g; simpl; f_equal; lia.
  - intros j [[ch g1] c1] Hj (Hg1 & Hc1 & Hl1 & HL1 & Hd1). simpl in Hg1, Hc1, Hl1, HL1, Hd1.
    subst g1 c1. unfold breed_pair. rewrite selection_unfold. cbn [draws taken].
    assert (scores <> []) as Hs by (apply Hne; lia).
    destruct (roulette_in_bounds fuel scores (draws g (taken g + Z.to_nat (2 * j))) Hs
                (proj1 (Hdraw _)) (proj2 (Hdraw _)) Hfuel) as (i1 & H1 & Hi1).
    destruct (roulette_in_bounds fuel scores (draws g (S (taken g + Z.to_nat (2 * j)))) Hs
                (proj1 (Hdraw _)) (proj2 (Hdraw _)) Hfuel) as (i2 & H2 & Hi2).
    rewrite H1. cbn [obind]. rewrite H2. cbn [obind].
    destruct (crossover_pair p L i1 i2 (randints (c + Z.to_nat j)%nat) Hall
                ltac:(lia) ltac:(lia) (Hrand _)) as (c1 & c2 & Hx & L1 & L2 & D1 & D2).
    rewrite Hx. cbn [obind]. eexists. split; [reflexivity |]. simpl.
    split; [f_equal; lia |]. split; [lia |].
    split; [rewrite len_app; unfold len in *; simpl; lia |].
    split; apply Forall_app; split; try done; by repeat constructor.
  - simpl in Hg, Hc, Hl, HL, Hd. subst g' c'. by exists children.
Qed.

(** One generation, its report apart: the strings are replaced by the
    children of [k ÷ 2] pairs, unchanged by [mutation], and the population
    by their decoding. *)
Lemma generation_spec (fuel : nat) (randints : nat -> Z -> Z -> Z)
    (str_int : Z -> pystr) (str_float : Q -> pystr) (m0 n0 c0 : Z) (L : nat) (st : Run) :
  bred L (k (obj st)) (obj st) ->
  (c0 mod 10 = 0 ->
   forall scores, len scores = k (obj st) ->
     exists printed,
       report fuel str_int str_float (obj st) m0 n0 c0 scores (out st) = Ok printed) ->
  (forall i, (0 <= draws (src st) i)%Q /\ (draws (src st) i < 1)%Q) ->
  (forall j lo hi, lo <= hi -> lo <= randints j lo hi <= hi) ->
  (Z.to_nat (m (obj st) * n (obj st)) < fuel)%nat ->
  (Z.to_nat (k (obj st)) < fuel)%nat ->
  exists st',
    generation fuel randints str_int str_float m0 n0 (k (obj st)) c0 st = Ok st'
    /\ bred L (2 * (k (obj st) ÷ 2)) (obj st')
    /\ m (obj st') = m (obj st) /\ n (obj st') = n (obj st) /\ k (obj st') = k (obj st)
    /\ Forall (drawn_from (bitstrings (obj st))) (bitstrings (obj st'))
    /\ (c0 mod 10 <> 0 -> out st' = out st)
    /\ draws (src st') = draws (src st)
    /\ cuts st' = (cuts st + Z.to_nat (k (obj st) ÷ 2))%nat.
Proof.
  intros Hbred Hc Hdraw Hrand Hfuel Hfk.
  destruct st as [p g c printed]. cbn [obj src cuts out] in *.
  pose proof Hbred as (Hm & Hn & Hlen & HL & Heq).
  pose proof (len_nonneg (bitstrings p)) as Hk0.
  destruct (bitsize_total p Hm Hn) as [w Hw].
  pose proof (bred_decoded _ _ _ _ Hbred Hw) as Hdec.
  destruct (fitness_spec p p w (bitstrings p) fuel (1 # 5) Hm Hn Hdec Hfuel) as [Hok _].
  destruct Hok as (scores & Hfit & Hsc & _); [lia |].
  unfold generation. cbn [obj src cuts out]. rewrite Hfit. cbn [obind].
  assert (exists printed',
            (if c0 mod 10 =? 0
             then report fuel str_int str_float p m0 n0 c0 scores printed
             else Ok printed) = Ok printed'
            /\ (c0 mod 10 <> 0 -> printed' = printed)) as (printed' & -> & Hout).
  { destruct (Z.eqb_spec (c0 mod 10) 0) as [H0 | Hne]; [| eauto].
    destruct (Hc H0 scores Hsc) as [printed' ->]. exists printed'. split; [done |].
    intros Hne. done. }
  cbn [obind]. fold (sumQ scores).
  destruct (breed_loop fuel randints p L scores g c (k p ÷ 2))
    as (children & Hrun & Hcl & HcL & Hcd).
  - apply Z.quot_pos; lia.
  - intros Hpos ->. change (len (@nil Q)) with 0 in Hsc. rewrite <- Hsc in Hpos. done.
  - lia.
  - done.
  - done.
  - done.
  - unfold len in Hsc. lia.
  - rewrite Hrun. cbn [obind].
    unfold mutation. cbn [bitstrings set_bitstrings]. rewrite mutation_outer_spec. cbn [obind].
    destruct (set_population_spec (set_bitstrings p children) children w
                ltac:(simpl; lia) ltac:(simpl; lia) Hw) as (p' & Hset & Hdec').
    rewrite Hset. cbn [obind]. eexists. split; [reflexivity |]. cbn [obj src cuts out].
    destruct Hdec' as [(Hm' & Hn' & _ & Hk' & Hb') _]. simpl in Hm', Hn', Hk', Hb'.
    rewrite Hb'. split; [| done].
    unfold bred. rewrite Hm', Hn', Hb'. repeat (split; [done || lia |]).
    rewrite <- Hset. by apply set_population_fields.
Qed.

(** [max] keeps an element of the list that no element exceeds. *)
Lemma fold_max_spec (rest : list Q) :
  forall best,
    let r := fold_left (fun best x => if Qlt_bool best x then x else best) rest best in
    (r = best \/ r ∈ rest) /\ (best <= r)%Q /\ Forall (fun x => (x <= r)%Q) rest.
Proof.
  induction rest as [|x rest IH]; intros best; cbn zeta; simpl.
  - split; [by left |]. split; [apply Qle_refl | constructor].
  - destruct (IH (if Qlt_bool best x then x else best)) as (Hin & Hle & Hall).
    cbn zeta in Hin, Hle, Hall.
    set (r := fold_left _ rest _) in *.
    destruct (Qlt_bool best x) eqn:Hcmp.
    + apply Qlt_bool_true in Hcmp. split; [| split].
      * right. destruct Hin as [-> | Hin]; [left | by right].
      * apply Qlt_le_weak. eapply Qlt_le_trans; done.
      * by constructor.
    + apply Qlt_bool_false in Hcmp. split; [| split].
      * destruct Hin as [-> | Hin]; [by left | right; by right].
      * done.
      * constructor; [| done]. eapply Qle_trans; done.
Qed.

(** [index] finds the first element that compares equal. *)
Lemma index_of_spec (s : Q) (scores : list Q) :
  (exists x, x ∈ scores /\ (x == s)%Q) ->
  exists i x,
    index_of s scores = Ok (Z.of_nat i)
    /\ scores !! i = Some x /\ (x == s)%Q
    /\ (forall j y, (j < i)%nat -> scores !! j = Some y -> ~ (y == s)%Q).
Proof.
  induction scores as [|y scores IH]; intros (x & Hin & Hx); [by apply elem_of_nil in Hin |].
  cbn [index_of]. destruct (Qeq_bool y s) eqn:Hy.
  - apply Qeq_bool_iff in Hy. exists O, y. repeat split; try done. intros j z Hj. lia.
  - assert (~ (y == s)%Q) as Hne by (intros H; apply Qeq_bool_iff in H; congruence).
    apply elem_of_cons in Hin as [-> | Hin]; [done |].
    destruct IH as (i & z & -> & Hi & Hz & Hfirst); [eauto |].
    exists (S i), z. cbn [obind]. split; [f_equal; lia |]. repeat split; try done.
    intros [|j] u Hj Hu; simpl in Hu; [by injection Hu as <- |].
    apply (Hfirst j); [lia | done].
Qed.

(** The candidate the report shows: the first one whose score is the
    largest. *)
Lemma max_index_spec (scores : list Q) :
  scores <> [] ->
  exists s i x,
    py_max scores = Ok s
    /\ index_of s scores = Ok (Z.of_nat i)
    /\ scores !! i = Some x /\ (x == s)%Q
    /\ Forall (fun y => (y <= s)%Q) scores
    /\ (forall j y, (j < i)%nat -> scores !! j = Some y -> (y < s)%Q).
Proof.
  destruct scores as [|s0 rest]; [done |]. intros _. cbn [py_max].
  destruct (fold_max_spec rest s0) as (Hin & Hle & Hall). cbn zeta in Hin, Hle, Hall.
  set (s := fold_left _ rest s0) in *.
  assert (Forall (fun y => (y <= s)%Q) (s0 :: rest)) as Hall' by by constructor.
  destruct (index_of_spec s (s0 :: rest)) as (i & x & Hidx & Hi & Hx & Hfirst).
  { exists s. split; [| reflexivity]. destruct Hin as [-> | Hin]; [left | by right]. }
  exists s, i, x. repeat split; try done.
  intros j y Hj Hy. pose proof (Forall_lookup_1 _ _ _ _ Hall' Hy) as Hys. simpl in Hys.
  apply Qle_lteq in Hys as [Hlt | Heq]; [done |]. by destruct (Hfirst j y Hj Hy).
Qed.

Lemma length_bit_words (w : nat) : length (bit_words w) = (2 ^ w)%nat.
Proof.
  induction w as [|w IH]; [done |].
  cbn [bit_words]. rewrite length_app, !length_fmap, IH. simpl. lia.
Qed.

Lemma elem_of_bit_words (b : pystr) : binary b -> b ∈ bit_words (length b).
Proof.
  induction 1 as [|ch b [-> | ->] _ IH]; cbn [bit_words length].
  - by left.
  - apply elem_of_app. left. by apply list_elem_of_fmap_2.
  - apply elem_of_app. right. by apply list_elem_of_fmap_2.
Qed.

(** A binary string of [cells] chunks of [w] bits shows at most [2 ^ w]
    different chunks. *)
Lemma distinct_chunks_bound (b : pystr) (w : Z) (cells : nat) :
  0 < w -> binary b -> length b = (cells * Z.to_nat w)%nat ->
  (distinct_chunks b w <= 2 ^ Z.to_nat w)%nat.
Proof.
  intros Hw Hbin Hlen. unfold distinct_chunks.
  rewrite <- length_bit_words. apply submseteq_length, NoDup_submseteq.
  { apply NoDup_remove_dups. }
  intros x Hx. rewrite elem_of_remove_dups in Hx. unfold chunks in Hx.
  apply list_elem_of_fmap in Hx as (j & -> & Hj). apply elem_of_range in Hj.
  assert (j * w < len b) as Hlt by (apply chunk_count_spec; lia).
  assert (length (chunk b w j) = Z.to_nat w) as Hl.
  { unfold chunk. rewrite length_take, length_drop. unfold len in Hlt.
    rewrite Z2Nat.inj_mul by lia.
    assert (Z.to_nat j < cells)%nat as Hjc.
    { apply Nat2Z.inj_lt. rewrite Z2Nat.id by lia.
      apply (Z.mul_lt_mono_pos_r w); [done |]. rewrite Hlen in Hlt. lia. }
    assert ((Z.to_nat j + 1) * Z.to_nat w <= cells * Z.to_nat w)%nat as Hle
      by (apply Nat.mul_le_mono_r; lia).
    lia. }
  rewrite <- Hl. apply elem_of_bit_words. unfold chunk, binary.
  by apply Forall_take, Forall_drop.
Qed.

(** With at most 8 distinct chunks of positive width the printer runs to
    its end. *)
Lemma print_pentomino_runs (fuel : nat) (bitstring : pystr) (m0 n0 : Z) :
  0 < Z.quot (len bitstring) (m0 * n0) ->
  (length bitstring < fuel)%nat ->
  (distinct_chunks bitstring (Z.quot (len bitstring) (m0 * n0)) <= 8)%nat ->
  exists printed, print_pentomino fuel bitstring m0 n0 = Ok printed.
Proof.
  set (bitsize := Z.quot (len bitstring) (m0 * n0)). intros Hw Hfuel Hdist.
  assert (m0 * n0 <> 0) as Harea.
  { intros H0. unfold bitsize in Hw. rewrite (Z.quot_0_r_ext _ _ H0) in Hw. lia. }
  assert (m0 <> 0) as Hm0 by nia.
  pose proof (chunk_count_bound bitstring bitsize Hw) as Hcnt.
  set (cnt := Z.to_nat (chunk_count bitstring bitsize)).
  set (pents := first_seen (chunks bitstring bitsize) []).
  destruct (first_seen_spec (chunks bitstring bitsize) [] NoDup_nil_2) as [Hnd Hel].
  fold pents in Hnd, Hel.
  rewrite <- length_first_seen in Hdist. fold pents in Hdist.
  unfold print_pentomino. destruct (Z.eqb_spec (m0 * n0) 0); [done |]. fold bitsize.
  pose proof (collect_pents_spec bitstring bitsize cnt fuel 0 [] Hw) as Hc.
  rewrite drop_0 in Hc. change (Z.of_nat 0 * bitsize) with 0 in Hc.
  rewrite Hc by (unfold cnt, len in *; lia). cbn [obind]. fold pents.
  apply (print_cells_ok bitstring bitsize m0 pents Hw Hm0 cnt fuel 0 []);
    [unfold cnt; lia | unfold cnt, len in *; lia | | done].
  intros idx Hidx. apply Hel. by right.
Qed.

(** The printer prints nothing for the empty string. *)
Lemma print_pentomino_empty (fuel : nat) (m0 n0 : Z) :
  m0 * n0 <> 0 -> print_pentomino fuel [] m0 n0 = Ok [].
Proof.
  intros Harea. unfold print_pentomino. destruct (Z.eqb_spec (m0 * n0) 0); [done |].
  by destruct fuel.
Qed.

(** The report of a generation runs to its end on a population of binary
    strings of at most three bits a cell. *)
Lemma report_runs (fuel : nat) (str_int : Z -> pystr) (str_float : Q -> pystr)
    (p : Pentomino) (c0 : Z) (scores : list Q) (printed : list pystr) (L wn : nat) :
  bred L (k p) p -> len scores = k p -> 0 < k p ->
  Forall binary (bitstrings p) ->
  L = (Z.to_nat (m p * n p) * wn)%nat -> (wn <= 3)%nat -> (L < fuel)%nat ->
  exists printed',
    report fuel str_int str_float p (m p) (n p) c0 scores printed = Ok printed'.
Proof.
  intros (Hm & Hn & Hlen & HL & _) Hsc Hk Hbin HLw Hwn Hfuel.
  destruct (max_index_spec scores) as (s & i & x & Hmax & Hidx & Hi & _).
  { intros ->. change (len (@nil Q)) with 0 in Hsc. lia. }
  unfold report. rewrite Hmax. cbn [obind]. rewrite Hidx. cbn [obind].
  apply lookup_lt_Some in Hi.
  destruct (lookup_lt_is_Some_2 (bitstrings p) i) as [best Hbest];
    [unfold len in *; lia |].
  rewrite (getitem_lookup _ _ best) by (rewrite ?Nat2Z.id; done || lia). cbn [obind].
  pose proof (Forall_lookup_1 _ _ _ _ HL Hbest) as Lb. simpl in Lb.
  pose proof (Forall_lookup_1 _ _ _ _ Hbin Hbest) as Bb. simpl in Bb.
  assert (exists board, print_pentomino fuel best (m p) (n p) = Ok board) as [board ->].
  { destruct wn as [|wn].
    - assert (best = []) as -> by (apply length_zero_iff_nil; lia).
      rewrite print_pentomino_empty by nia. eauto.
    - assert (Z.quot (len best) (m p * n p) = Z.of_nat (S wn)) as Hq.
      { unfold len. rewrite Lb, HLw.
        replace (Z.of_nat (Z.to_nat (m p * n p) * S wn)) with (Z.of_nat (S wn) * (m p * n p))
          by nia.
        apply Z.quot_mul. nia. }
      apply print_pentomino_runs; rewrite ?Hq; [lia | lia |].
      etrans; [apply (distinct_chunks_bound best _ (Z.to_nat (m p * n p))); [lia | done |] |].
      + rewrite Lb, HLw. lia.
      + rewrite Nat2Z.id. destruct wn as [|[|[|wn]]]; simpl; lia. }
  cbn [obind]. eauto.
Qed.

Lemma drawn_from_self (pool : list pystr) : Forall (drawn_from pool) pool.
Proof. apply Forall_forall. intros c Hc i ch Hi. eauto. Qed.

Lemma drawn_from_trans (pool mid : list pystr) (c : pystr) :
  Forall (drawn_from pool) mid -> drawn_from mid c -> drawn_from pool c.
Proof.
  intros Hmid Hc i ch Hi. destruct (Hc i ch Hi) as (parent & Hin & Hp).
  rewrite Forall_forall in Hmid. by apply (Hmid parent Hin).
Qed.

Lemma drawn_from_binary (pool : list pystr) (c : pystr) :
  Forall binary pool -> drawn_from pool c -> binary c.
Proof.
  intros Hpool Hc. apply Forall_lookup. intros i ch Hi.
  destruct (Hc i ch Hi) as (parent & Hin & Hp).
  rewrite Forall_forall in Hpool. by apply (Forall_lookup_1 _ _ _ _ (Hpool parent Hin) Hp).
Qed.

Section Driver.
Variables (fuel : nat) (randints : nat -> Z -> Z -> Z)
  (str_int : Z -> pystr) (str_float : Q -> pystr)
  (m0 n0 k0 : Z) (L wn : nat) (pool : list pystr) (draws0 : nat -> Q).
Hypothesis Hk0 : 0 <= k0.
Hypothesis Heven : Z.even k0 = true.
Hypothesis Hdraw : forall i, (0 <= draws0 i)%Q /\ (draws0 i < 1)%Q.
Hypothesis Hrand : forall j lo hi, lo <= hi -> lo <= randints j lo hi <= hi.
Hypothesis Hfuel : (Z.to_nat (m0 * n0) < fuel)%nat.
Hypothesis Hfk : (Z.to_nat k0 < fuel)%nat.
Hypothesis HL : L = (Z.to_nat (m0 * n0) * wn)%nat.

(** A generation of an even population, with or without report. *)
Lemma generation_steady (c0 : Z) (st : Run) :
  steady m0 n0 k0 L pool draws0 st ->
  (c0 mod 10 = 0 -> 0 < k0 /\ (wn <= 3)%nat /\ Forall binary pool /\ (L < fuel)%nat) ->
  exists st',
    generation fuel randints str_int str_float m0 n0 k0 c0 st = Ok st'
    /\ steady m0 n0 k0 L pool draws0 st'
    /\ cuts st' = (cuts st + Z.to_nat (k0 ÷ 2))%nat.
Proof.
  intros (Hbred & Hm & Hn & Hk & Hpool & Hd) Hrep.
  assert (2 * (k0 ÷ 2) = k0) as Hhalf.
  { apply Z.even_spec in Heven as [a ->]. rewrite (Z.mul_comm 2 a), Z.quot_mul; lia. }
  destruct (generation_spec fuel randints str_int str_float m0 n0 c0 L st)
    as (st' & Hrun & Hbred' & Hm' & Hn' & Hk' & Hdrawn & _ & Hd' & Hcuts).
  - by rewrite Hk.
  - intros H0 scores Hsc. destruct (Hrep H0) as (Hkpos & Hwn & Hbin & HLf).
    rewrite <- Hm, <- Hn. apply (report_runs _ _ _ _ _ _ _ L wn); rewrite ?Hk, ?Hm, ?Hn; try done.
    + by rewrite <- Hk.
    + eapply Forall_impl; [exact Hpool |]. intros c. by apply drawn_from_binary.
  - by rewrite Hd.
  - done.
  - by rewrite Hm, Hn.
  - by rewrite Hk.
  - rewrite Hk in *. rewrite Hhalf in Hbred'. exists st'. split; [done |]. split; [| done].
    unfold steady. rewrite Hm', Hn', Hk', Hd'. repeat (split; [done |]). split; [| done].
    eapply Forall_impl; [exact Hdrawn |]. intros c. by apply drawn_from_trans.
Qed.

(** [d] generations of an even population, from counter [c0] on. *)
Lemma main_loop_steps (g0 : Z) (d : nat) :
  forall (c0 : Z) (gens : nat) (st : Run),
    c0 + Z.of_nat d <= g0 -> (d <= gens)%nat ->
    steady m0 n0 k0 L pool draws0 st ->
    (forall c, c0 <= c < c0 + Z.of_nat d -> c mod 10 = 0 ->
       0 < k0 /\ (wn <= 3)%nat /\ Forall binary pool /\ (L < fuel)%nat) ->
    exists st',
      main_loop gens fuel randints str_int str_float m0 n0 k0 g0 c0 st
      = main_loop (gens - d) fuel randints str_int str_float m0 n0 k0 g0
          (c0 + Z.of_nat d) st'
      /\ steady m0 n0 k0 L pool draws0 st'
      /\ cuts st' = (cuts st + d * Z.to_nat (k0 ÷ 2))%nat.
Proof.
  induction d as [|d IH]; intros c0 gens st Hc Hg Hst Hrep.
  - exists st. rewrite Nat.sub_0_r. change (Z.of_nat 0) with 0. rewrite Z.add_0_r.
    split; [done |]. split; [done | lia].
  - destruct gens as [|gens]; [lia |]. cbn [main_loop].
    destruct (Z.ltb_spec c0 g0); [| lia].
    destruct (generation_steady c0 st Hst) as (st1 & -> & Hst1 & Hc1).
    { apply Hrep. lia. }
    cbn [obind].
    destruct (IH (c0 + 1) gens st1) as (st' & Hrun & Hst' & Hc');
      [lia | lia | done | intros c Hcc; apply Hrep; lia |].
    exists st'. rewrite Hrun.
    replace (c0 + Z.of_nat (S d)) with (c0 + 1 + Z.of_nat d) by lia.
    split; [done |]. split; [done | lia].
Qed.

End Driver.

Lemma length_random_bits (g : Rng) (from cnt : nat) : length (random_bits g from cnt) = cnt.
Proof. unfold random_bits. by rewrite length_fmap, length_seq. Qed.

Lemma binary_random_bits (g : Rng) (from cnt : nat) : binary (random_bits g from cnt).
Proof.
  unfold random_bits, binary. apply Forall_fmap, Forall_forall. intros i _. simpl.
  destruct (Qlt_bool _ _); eauto.
Qed.

Lemma random_strings_shape (g : Rng) (bits cnt : nat) :
  forall from,
    Forall (fun b => length b = bits) (random_strings g from bits cnt)
    /\ Forall binary (random_strings g from bits cnt).
Proof.
  induction cnt as [|cnt IH]; intros from; cbn [random_strings]; [by split |].
  destruct (IH (from + bits)%nat) as [Hl Hb]. split; constructor; try done.
  - apply length_random_bits.
  - apply binary_random_bits.
Qed.

(** The constructor leaves the driver in a steady state. *)
Lemma Pentomino_init_steady (m0 n0 k0 : Z) (g : Rng) :
  0 < m0 -> 0 < n0 -> 0 <= k0 ->
  exists w p g',
    ceil_log2_fifth (m0 * n0) = Ok w
    /\ Pentomino_init m0 n0 k0 g = Ok (p, g')
    /\ steady m0 n0 k0 (Z.to_nat (m0 * n0) * Z.to_nat w)
         (random_strings g (taken g) (Z.to_nat (m0 * n0) * Z.to_nat w) (Z.to_nat k0))
         (draws g) (mkRun p g' 0 []).
Proof.
  intros Hm Hn Hk.
  destruct (Pentomino_init_run m0 n0 k0 g Hm Hn Hk)
    as (w & p & g' & Hw & Hrun & Hm' & Hn' & Hk' & Hbs & _ & Heq & Hd & _).
  exists w, p, g'. split; [done |]. split; [done |].
  destruct (random_strings_shape g (Z.to_nat (m0 * n0) * Z.to_nat w) (Z.to_nat k0) (taken g))
    as [Hlen _].
  unfold steady, bred. cbn [obj src]. rewrite Hm', Hn', Hk', Hbs.
  repeat split; try done.
  - unfold len. rewrite length_random_strings. lia.
  - by rewrite <- Hbs.
  - apply drawn_from_self.
Qed.

Lemma main_loop_done (gens fuel : nat) (randints : nat -> Z -> Z -> Z)
    (str_int : Z -> pystr) (str_float : Q -> pystr) (m0 n0 k0 g0 c0 : Z) (st : Run) :
  g0 <= c0 ->
  main_loop gens fuel randints str_int str_float m0 n0 k0 g0 c0 st = Ok st.
Proof. intros Hc. destruct gens; cbn [main_loop]; by destruct (Z.ltb_spec c0 g0); [lia |]. Qed.

(** The widths [bitsize] gives for boards of at most 40 cells. *)
Lemma ceil_log2_fifth_small (area w : Z) :
  area <= 40 -> ceil_log2_fifth area = Ok w -> w <= 3.
Proof.
  unfold ceil_log2_fifth. intros Ha.
  destruct (Z.leb_spec area 0); [done |]. destruct (Z.leb_spec 5 area); intros [= <-].
  - change 3 with (Z.log2_up 8). apply Z.log2_up_le_mono.
    pose proof (Z.div_mod (area + 4) 5 ltac:(lia)).
    pose proof (Z.mod_pos_bound (area + 4) 5 ltac:(lia)). lia.
  - pose proof (Z.log2_nonneg (5 / area)). lia.
Qed.



(** X20. A generation that does not report, on an object that holds [k]
    strings of [L] characters and their decoding, with draws in [0, 1) and
    cut points within their bounds, runs to its end. It leaves
    [2 * (k ÷ 2)] strings of [L] characters, one fewer than [k] when [k] is
    odd, and the population decoded from them. Every character of a new
    string stands at the same position in one of the old strings: the
    children are as [crossover] made them, [mutation] has changed nothing.
    Nothing is printed and [random.randint] is called once a pair. *)
Theorem generation_breeds (fuel : nat) (randints : nat -> Z -> Z -> Z)
    (str_int : Z -> pystr) (str_float : Q -> pystr) (m0 n0 c0 : Z) (L : nat) (st : Run) :
  bred L (k (obj st)) (obj st) ->
  c0 mod 10 <> 0 ->
  (forall i, (0 <= draws (src st) i)%Q /\ (draws (src st) i < 1)%Q) ->
  (forall j lo hi, lo <= hi -> lo <= randints j lo hi <= hi) ->
  (Z.to_nat (m (obj st) * n (obj st)) < fuel)%nat ->
  (Z.to_nat (k (obj st)) < fuel)%nat ->
  exists st',
    generation fuel randints str_int str_float m0 n0 (k (obj st)) c0 st = Ok st'
    /\ k (obj st') = k (obj st)
    /\ len (bitstrings (obj st')) = 2 * (k (obj st) ÷ 2)
    /\ Forall (fun b => length b = L) (bitstrings (obj st'))
    /\ set_population (obj st') (bitstrings (obj st')) = Ok (obj st')
    /\ Forall (drawn_from (bitstrings (obj st))) (bitstrings (obj st'))
    /\ out st' = out st
    /\ cuts st' = (cuts st + Z.to_nat (k (obj st) ÷ 2))%nat.
Proof.
  intros Hbred Hc Hdraw Hrand Hfuel Hfk.
  destruct (generation_spec fuel randints str_int str_float m0 n0 c0 L st)
    as (st' & Hrun & (_ & _ & Hlen & HL & Heq) & _ & _ & Hk & Hdrawn & Hout & _ & Hcuts);
    try done.
  exists st'. repeat (split; [done |]). split; [by apply Hout | done].
Qed.

Lemma generation_breeds_witness :
  exists st',
    generation 11 (fun _ _ hi => hi) (fun _ => []) (fun _ => []) 2 5
      (k (obj (mkRun P25_pair (mkRng (fun _ => 1 # 2) 0) 0 []))) 1
      (mkRun P25_pair (mkRng (fun _ => 1 # 2) 0) 0 []) = Ok st'
    /\ k (obj st') = k (obj (mkRun P25_pair (mkRng (fun _ => 1 # 2) 0) 0 []))
    /\ len (bitstrings (obj st'))
       = 2 * (k (obj (mkRun P25_pair (mkRng (fun _ => 1 # 2) 0) 0 [])) ÷ 2)
    /\ Forall (fun b => length b = 10%nat) (bitstrings (obj st'))
    /\ set_population (obj st') (bitstrings (obj st')) = Ok (obj st')
    /\ Forall (drawn_from (bitstrings (obj (mkRun P25_pair (mkRng (fun _ => 1 # 2) 0) 0 []))))
         (bitstrings (obj st'))
    /\ out st' = out (mkRun P25_pair (mkRng (fun _ => 1 # 2) 0) 0 [])
    /\ cuts st'
       = (cuts (mkRun P25_pair (mkRng (fun _ => 1 # 2) 0) 0 [])
          + Z.to_nat (k (obj (mkRun P25_pair (mkRng (fun _ => 1 # 2) 0) 0 [])) ÷ 2))%nat.
Proof.
  apply (generation_breeds 11 (fun _ _ hi => hi) (fun _ => []) (fun _ => []) 2 5 1 10
           (mkRun P25_pair (mkRng (fun _ => 1 # 2) 0) 0 [])).
  - unfold bred. simpl. repeat split; try lia.
    + repeat constructor.
  - vm_compute. discriminate.
  - intros i. simpl. split; vm_compute; congruence.
  - intros j lo hi Hle. lia.
  - simpl. lia.
  - simpl. lia.
Defined.

(** X21. The report of a generation shows the first candidate with the
    largest score: no score exceeds the score it prints, every candidate
    before the one it shows scores less, and the board it prints is the one
    of the bit string at that position. *)
Theorem report_first_best (fuel : nat) (str_int : Z -> pystr) (str_float : Q -> pystr)
    (p : Pentomino) (m0 n0 c0 : Z) (scores : list Q) (printed : list pystr) :
  scores <> [] ->
  exists s i x,
    scores !! i = Some x /\ (x == s)%Q
    /\ Forall (fun y => (y <= s)%Q) scores
    /\ (forall j y, (j < i)%nat -> scores !! j = Some y -> (y < s)%Q)
    /\ report fuel str_int str_float p m0 n0 c0 scores printed
       = (do best <- getitem (bitstrings p) (Z.of_nat i);
          do board <- print_pentomino fuel best m0 n0;
          Ok ((printed ++ [py "c: " ++ str_int c0; newline])
                ++ [py "Score: " ++ str_float s; newline] ++ board ++ [newline])).
Proof.
  intros Hne.
  destruct (max_index_spec scores Hne) as (s & i & x & Hmax & Hidx & Hi & Hx & Hall & Hfirst).
  exists s, i, x. repeat (split; [done |]).
  unfold report. rewrite Hmax. cbn [obind]. rewrite Hidx. cbn [obind].
  destruct (getitem (bitstrings p) (Z.of_nat i)); cbn [obind]; try done.
  destruct (print_pentomino fuel a m0 n0); cbn [obind]; try done.
  by rewrite <- !app_assoc.
Qed.

Lemma report_first_best_witness :
  exists s i x,
    [1 # 2; 3 # 4; 6 # 8] !! i = Some x /\ (x == s)%Q
    /\ Forall (fun y => (y <= s)%Q) [1 # 2; 3 # 4; 6 # 8]
    /\ (forall j y, (j < i)%nat -> [1 # 2; 3 # 4; 6 # 8] !! j = Some y -> (y < s)%Q)
    /\ report 11 (fun _ => []) (fun _ => []) P25_pair 2 5 10 [1 # 2; 3 # 4; 6 # 8] []
       = (do best <- getitem (bitstrings P25_pair) (Z.of_nat i);
          do board <- print_pentomino 11 best 2 5;
          Ok (([] ++ [py "c: " ++ []; newline])
                ++ [py "Score: " ++ []; newline] ++ board ++ [newline])).
Proof.
  apply (report_first_best 11 (fun _ => []) (fun _ => []) P25_pair 2 5 10
           [1 # 2; 3 # 4; 6 # 8] []).
  discriminate.
Defined.





(** X24. On a board of at most 40 cells, with an even population size of
    at least two, draws in [0, 1) and cut points within their bounds, [main]
    runs all its generations and every report to the end. The object it
    leaves holds [k] bit strings of the length the constructor gave them and
    the population decoded from them, and every bit of every string stands
    at the same position in one of the constructor's random strings: where
    all of those agree on a position, no generation ever changes it.
    [random.randint] has been called [k / 2] times a generation. The call
    at the end of the script, [main(10, 3, 500, 301)], is of this kind. *)
Theorem main_runs (gens fuel : nat) (randints : nat -> Z -> Z -> Z)
    (str_int : Z -> pystr) (str_float : Q -> pystr) (m0 n0 k0 g0 : Z) (g : Rng) :
  0 < m0 -> 0 < n0 -> m0 * n0 <= 40 ->
  0 < k0 -> Z.even k0 = true ->
  (forall i, (0 <= draws g i)%Q /\ (draws g i < 1)%Q) ->
  (forall j lo hi, lo <= hi -> lo <= randints j lo hi <= hi) ->
  (Z.to_nat (g0 - 1) <= gens)%nat ->
  (3 * Z.to_nat (m0 * n0) < fuel)%nat -> (Z.to_nat k0 < fuel)%nat ->
  exists w r,
    ceil_log2_fifth (m0 * n0) = Ok w
    /\ main gens fuel randints str_int str_float m0 n0 k0 g0 g = Ok r
    /\ m (obj r) = m0 /\ n (obj r) = n0 /\ k (obj r) = k0
    /\ len (bitstrings (obj r)) = k0
    /\ Forall (fun b => length b = (Z.to_nat (m0 * n0) * Z.to_nat w)%nat) (bitstrings (obj r))
    /\ set_population (obj r) (bitstrings (obj r)) = Ok (obj r)
    /\ Forall (drawn_from
                 (random_strings g (taken g) (Z.to_nat (m0 * n0) * Z.to_nat w) (Z.to_nat k0)))
         (bitstrings (obj r))
    /\ cuts r = (Z.to_nat (g0 - 1) * Z.to_nat (k0 ÷ 2))%nat.
Proof.
  intros Hm Hn Harea Hk Heven Hdraw Hrand Hgens Hfuel Hfk.
  destruct (Pentomino_init_steady m0 n0 k0 g Hm Hn ltac:(lia))
    as (w & p & g' & Hw & Hinit & Hst).
  pose proof (ceil_log2_fifth_small _ _ Harea Hw) as Hw3.
  set (L := (Z.to_nat (m0 * n0) * Z.to_nat w)%nat) in *.
  set (pool := random_strings g (taken g) L (Z.to_nat k0)) in *.
  assert (L < fuel)%nat as HLf by (unfold L; nia).
  assert (exists r,
            main_loop gens fuel randints str_int str_float m0 n0 k0 g0 1 (mkRun p g' 0 [])
            = Ok r
            /\ steady m0 n0 k0 L pool (draws g) r
            /\ cuts r = (Z.to_nat (g0 - 1) * Z.to_nat (k0 ÷ 2))%nat)
    as (r & Hrun & (Hbred & Hm' & Hn' & Hk' & Hpool & _) & Hcuts).
  { destruct (Z.le_gt_cases g0 1) as [Hle | Hgt].
    - exists (mkRun p g' 0 []). rewrite main_loop_done by done.
      split; [done |]. split; [done |]. replace (Z.to_nat (g0 - 1)) with O by lia. done.
    - destruct (main_loop_steps fuel randints str_int str_float m0 n0 k0 L (Z.to_nat w)
                  pool (draws g) ltac:(lia) Heven Hdraw Hrand ltac:(lia) Hfk eq_refl g0
                  (Z.to_nat (g0 - 1)) 1 gens (mkRun p g' 0 []))
        as (r & Hrun & Hst' & Hcuts); [lia | done | done | |].
      + intros c _ _. repeat split; [done | lia | | done].
        apply random_strings_shape.
      + exists r. rewrite Hrun, main_loop_done by lia. done. }
  exists w, r. split; [done |]. split; [unfold main; by rewrite Hinit |].
  destruct Hbred as (_ & _ & Hlen & HL & Heq). done.
Qed.

Lemma main_runs_witness :
  exists w r,
    ceil_log2_fifth (10 * 3) = Ok w
    /\ main 300 501 (fun _ _ hi => hi) (fun _ => []) (fun _ => []) 10 3 500 301
         (mkRng (fun i => if Nat.even i then 1 # 4 else 3 # 4) 0) = Ok r
    /\ m (obj r) = 10 /\ n (obj r) = 3 /\ k (obj r) = 500
    /\ len (bitstrings (obj r)) = 500
    /\ Forall (fun b => length b = (Z.to_nat (10 * 3) * Z.to_nat w)%nat) (bitstrings (obj r))
    /\ set_population (obj r) (bitstrings (obj r)) = Ok (obj r)
    /\ Forall (drawn_from
                 (random_strings (mkRng (fun i => if Nat.even i then 1 # 4 else 3 # 4) 0)
                    (taken (mkRng (fun i => if Nat.even i then 1 # 4 else 3 # 4) 0))
                    (Z.to_nat (10 * 3) * Z.to_nat w) (Z.to_nat 500)))
         (bitstrings (obj r))
    /\ cuts r = (Z.to_nat (301 - 1) * Z.to_nat (500 ÷ 2))%nat.
Proof.
  apply (main_runs 300 501 (fun _ _ hi => hi) (fun _ => []) (fun _ => []) 10 3 500 301
           (mkRng (fun i => if Nat.even i then 1 # 4 else 3 # 4) 0)).
  - lia.
  - lia.
  - lia.
  - lia.
  - reflexivity.
  - intros i. simpl. destruct (Nat.even i); split; vm_compute; congruence.
  - intros j lo hi Hle. lia.
  - lia.
  - lia.
  - lia.
Defined.


(** * Solutions and the largest score *)

Lemma dict_get_set (d : dict) (key key' : pystr) (v : Z) :
  dict_get (dict_set d key v) key'
  = if bool_decide (key = key') then Some v else dict_get d key'.
Proof.
  induction d as [|[k0 v0] d IH]; cbn [dict_set dict_get].
  - by repeat case_bool_decide.
  - destruct (decide (k0 = key)) as [-> | Hne].
    + rewrite (bool_decide_eq_true_2 (key = key)) by done. cbn [dict_get].
      by case_bool_decide.
    + rewrite (bool_decide_eq_false_2 (k0 = key)) by done. cbn [dict_get].
      rewrite IH. repeat case_bool_decide; congruence.
Qed.

Lemma dict_get_value (d : dict) (key : pystr) (x : Z) :
  dict_get d key = Some x -> x ∈ dict_values d.
Proof.
  unfold dict_values. induction d as [|[k0 v0] d IH]; [done |]. cbn [dict_get].
  rewrite fmap_cons. case_bool_decide.
  - intros [= ->]. left.
  - intros Hget. right. by apply IH.
Qed.

Lemma dict_value_get (d : dict) (x : Z) :
  NoDup (dict_keys d) -> x ∈ dict_values d -> exists key, dict_get d key = Some x.
Proof.
  unfold dict_values, dict_keys. induction d as [|[k0 v0] d IH]; intros Hnd Hx.
  - by apply elem_of_nil in Hx.
  - rewrite fmap_cons in Hnd. rewrite fmap_cons in Hx. apply NoDup_cons in Hnd as [Hk0 Hnd].
    apply elem_of_cons in Hx as [-> | Hx].
    + exists k0. cbn [dict_get]. by rewrite bool_decide_eq_true_2.
    + destruct (IH Hnd Hx) as [key Hkey]. exists key. cbn [dict_get].
      case_bool_decide as Heq; [| done]. subst key. exfalso. apply Hk0.
      assert (dict_get d k0 <> None) as Hsome by congruence.
      rewrite dict_get_None in Hsome. by apply dec_stable in Hsome.
Qed.

Lemma dict_set_keys (d : dict) (key : pystr) (v : Z) :
  NoDup (dict_keys d) -> NoDup (dict_keys (dict_set d key v)).
Proof.
  intros Hnd. destruct (dict_get d key) as [old|] eqn:Hget.
  - destruct (dict_set_present d key old v Hget) as [-> _]. done.
  - destruct (dict_set_absent d key v Hget) as [-> _].
    apply NoDup_app. split; [done |]. split; [| apply NoDup_singleton].
    intros x Hx ->%list_elem_of_singleton. by apply dict_get_None in Hget.
Qed.

(** One more cell. *)
Lemma tally_tables (self : Pentomino) (g : Grid) (ps : list ref) (st : dict * dict)
    (p : ref) (node : Node) (x : Z) :
  cell g p.1 p.2 = Some node -> piece_size self g p x ->
  tables_of self g ps st -> tables_of self g (ps ++ [p]) (tally st node x).
Proof.
  intros Hnode Hsize. destruct st as [cc tc]. intros (Hn1 & Hn2 & Htc & Hcc & Hnone).
  cbn [fst snd] in *.
  assert (value_at g p = value node) as Hv by (unfold value_at; by rewrite Hnode).
  set (cc' := match dict_get cc (value node) with
              | Some old => if Z.abs (x - 5) <? Z.abs (old - 5)
                            then dict_set cc (value node) x else cc
              | None => dict_set cc (value node) x
              end).
  set (tc' := match dict_get tc (value node) with
              | Some old => dict_set tc (value node) (old + 1)
              | None => dict_set tc (value node) 1
              end).
  change (tally (cc, tc) node x) with (cc', tc'). unfold tables_of. cbn [fst snd].
  assert (forall v, carrying g v (ps ++ [p])
                    = carrying g v ps ++ (if decide (value node = v) then [p] else [])) as Hcar.
  { intros v. unfold carrying. rewrite filter_app. f_equal.
    rewrite filter_cons, filter_nil, Hv. by destruct (decide (value node = v)). }
  split; [| split; [| split; [| split]]].
  - unfold cc'. destruct (dict_get cc (value node)); [| by apply dict_set_keys].
    destruct (_ <? _); [by apply dict_set_keys | done].
  - unfold tc'. destruct (dict_get tc (value node)); by apply dict_set_keys.
  - intros v y. rewrite Hcar, len_app.
    assert (dict_get tc' v
            = if bool_decide (value node = v)
              then Some (len (carrying g (value node) ps) + 1) else dict_get tc v) as ->.
    { unfold tc'. destruct (dict_get tc (value node)) as [old|] eqn:Hold.
      - apply Htc in Hold as [-> _]. by rewrite dict_get_set.
      - rewrite dict_get_set. case_bool_decide; [| done].
        destruct (decide (0 < len (carrying g (value node) ps))) as [Hpos | Hzero].
        + assert (dict_get tc (value node) = Some (len (carrying g (value node) ps))) as Hs
            by by apply Htc.
          congruence.
        + pose proof (len_nonneg (carrying g (value node) ps)). do 2 f_equal. lia. }
    pose proof (len_nonneg (carrying g v ps)) as Hl.
    case_bool_decide as Heq.
    + subst v. rewrite decide_True by done. change (len [p]) with 1.
      split; [intros [= <-]; lia | intros [-> _]; done].
    + rewrite decide_False by done. change (len (@nil ref)) with 0. rewrite Z.add_0_r.
      apply Htc.
  - intros v y Hget.
    assert (dict_get cc v = Some y \/ (v = value node /\ y = x)) as [Hold | [-> ->]].
    { unfold cc' in Hget. destruct (dict_get cc (value node)) as [old|] eqn:Hold.
      - destruct (_ <? _); [| by left]. rewrite dict_get_set in Hget.
        case_bool_decide; [right | left]; [| done]. by injection Hget as <-.
      - rewrite dict_get_set in Hget.
        case_bool_decide; [right | left]; [| done]. by injection Hget as <-. }
    + destruct (Hcc v y Hold) as (p' & Hp' & Hv' & Hs'). exists p'.
      split; [apply elem_of_app; by left | done].
    + exists p. split; [apply elem_of_app; right; left | done].
  - intros v Hget p' Hp'.
    assert (v <> value node /\ dict_get cc v = None) as [Hne Hold].
    { unfold cc' in Hget. destruct (dict_get cc (value node)) as [old|] eqn:Hold.
      - destruct (_ <? _).
        + rewrite dict_get_set in Hget. case_bool_decide; [done |]. split; [congruence | done].
        + split; [congruence | done].
      - rewrite dict_get_set in Hget. case_bool_decide; [done |]. split; [congruence | done]. }
    apply elem_of_app in Hp' as [Hp' | ->%list_elem_of_singleton].
    + by apply Hnone.
    + congruence.
Qed.

Lemma NoDup_range (lo hi : Z) : NoDup (range lo hi).
Proof.
  unfold range. apply NoDup_fmap_2; [| apply NoDup_seq]. intros i j Hij. lia.
Qed.

Lemma elem_of_all_cells (self : Pentomino) (p : ref) :
  p ∈ all_cells self <-> inside self p.1 p.2.
Proof.
  unfold all_cells, inside. rewrite <- list_cprod_list_prod, list_elem_of_cprod.
  rewrite !elem_of_range. lia.
Qed.

Lemma NoDup_all_cells (self : Pentomino) : NoDup (all_cells self).
Proof.
  unfold all_cells. generalize (NoDup_range 0 (n self)).
  induction (range 0 (n self)) as [|row rows IH]; intros Hnd; [constructor |].
  apply NoDup_cons in Hnd as [Hrow Hnd]. cbn [list_prod]. apply NoDup_app.
  split; [| split; [| by apply IH]].
  - apply (NoDup_fmap_2 (pair row)), NoDup_range.
  - intros p Hp Hp'. apply list_elem_of_fmap in Hp as (col & -> & _).
    rewrite <- list_cprod_list_prod in Hp'. apply list_elem_of_cprod in Hp' as [Hin _]. done.
Qed.

Lemma reach_value (self : Pentomino) (g : Grid) (p q : ref) :
  rtc (linked self g) p q ->
  value_at g q = value_at g p /\ (inside self p.1 p.2 -> inside self q.1 q.2).
Proof.
  induction 1 as [|p p' q (_ & Hin & _ & a & b & Ha & Hb & Hv) _ [IHv IHin]]; [done |].
  split; [| auto]. rewrite IHv. unfold value_at. by rewrite Ha, Hb.
Qed.

Lemma piece_size_unique (self : Pentomino) (g : Grid) (p : ref) (x y : Z) :
  piece_size self g p x -> piece_size self g p y -> x = y.
Proof.
  intros (c1 & Hn1 & H1 & ->) (c2 & Hn2 & H2 & ->). unfold len. f_equal.
  apply Permutation_length, NoDup_Permutation; try done.
  intros q. by rewrite H1, H2.
Qed.

Lemma piece_size_reach (self : Pentomino) (g : Grid) (p q : ref) (x : Z) :
  rtc (linked self g) p q -> piece_size self g p x -> piece_size self g q x.
Proof.
  intros Hpq (comp & Hnd & Hcomp & ->). exists comp. split; [done |]. split; [| done].
  intros r0. rewrite Hcomp. split; intros Hr.
  - etrans; [by apply reachable_sym | done].
  - etrans; done.
Qed.

(** The dictionaries of a whole grid hold nothing but fives exactly when
    the grid is a solution. *)
Lemma tables_solved (self : Pentomino) (g : Grid) (tables : dict * dict) :
  tables_of self g (all_cells self) tables ->
  (Forall (fun x => x = 5) (dict_values tables.1)
   /\ Forall (fun x => x = 5) (dict_values tables.2))
  <-> solved self g.
Proof.
  destruct tables as [cc tc]. intros (Hn1 & Hn2 & Htc & Hcc & Hnone). cbn [fst snd] in *.
  rewrite !Forall_forall. split.
  - intros [H1 H2] p Hp.
    assert (p ∈ carrying g (value_at g p) (all_cells self)) as Hcar.
    { apply list_elem_of_filter. split; [done | by apply elem_of_all_cells]. }
    assert (length (carrying g (value_at g p) (all_cells self)) = 5%nat) as Hfive.
    { assert (0 < len (carrying g (value_at g p) (all_cells self))) as Hpos.
      { destruct (carrying g _ _); [by apply elem_of_nil in Hcar | unfold len; simpl; lia]. }
      assert (dict_get tc (value_at g p)
              = Some (len (carrying g (value_at g p) (all_cells self)))) as Hget
        by by apply Htc.
      apply dict_get_value, H2 in Hget. unfold len in Hget. lia. }
    destruct (dict_get cc (value_at g p)) as [x|] eqn:Hget.
    2:{ exfalso. by apply (Hnone _ Hget p); [apply elem_of_all_cells |]. }
    destruct (Hcc _ _ Hget) as (p' & Hp' & Hv' & comp & Hnd & Hcomp & Hx).
    apply dict_get_value, H1 in Hget. subst x. apply elem_of_all_cells in Hp'.
    assert (comp ≡ₚ carrying g (value_at g p) (all_cells self)) as Hperm.
    { apply submseteq_length_Permutation; [| unfold len in Hx; lia].
      apply NoDup_submseteq; [done |]. intros q Hq. apply Hcomp, reach_value in Hq as [Hv Hin].
      apply list_elem_of_filter. split; [congruence | by apply elem_of_all_cells, Hin]. }
    assert (forall q, inside self q.1 q.2 -> value_at g q = value_at g p ->
                      rtc (linked self g) p' q) as Hall.
    { intros q Hq Hvq. apply Hcomp. rewrite Hperm. apply list_elem_of_filter.
      split; [done | by apply elem_of_all_cells]. }
    assert (rtc (linked self g) p' p) as Hreach by by apply Hall.
    split.
    + apply (piece_size_reach _ _ p'); [done |]. by exists comp.
    + intros q Hq Hvq. etrans; [by apply reachable_sym | by apply Hall].
  - intros Hsol. split; intros x Hx.
    + destruct (dict_value_get _ _ Hn1 Hx) as [v Hget].
      destruct (Hcc _ _ Hget) as (p & Hp & _ & Hsize).
      apply elem_of_all_cells in Hp. destruct (Hsol p Hp) as [Hfive _].
      by apply (piece_size_unique self g p).
    + destruct (dict_value_get _ _ Hn2 Hx) as [v Hget].
      apply Htc in Hget as [-> Hpos].
      destruct (carrying g v (all_cells self)) as [|p rest] eqn:Hcar;
        [unfold len in Hpos; simpl in Hpos; lia |].
      assert (p ∈ carrying g v (all_cells self)) as Hp by (rewrite Hcar; left).
      apply list_elem_of_filter in Hp as [Hv Hp]. apply elem_of_all_cells in Hp.
      destruct (Hsol p Hp) as [(comp & Hnd & Hcomp & Hfive) Hall].
      rewrite <- Hcar. rewrite Hfive. unfold len. f_equal.
      apply Permutation_length, NoDup_Permutation;
        [apply NoDup_filter, NoDup_all_cells | done |].
      intros q. unfold carrying. rewrite Hcomp, list_elem_of_filter, elem_of_all_cells. split.
      * intros [Hvq Hq]. apply Hall; [done | congruence].
      * intros Hq. apply reach_value in Hq as [Hvq Hq]. split; [congruence | auto].
Qed.

Lemma list_prod_snoc {A B} (l : list A) (x : A) (k : list B) :
  list_prod (l ++ [x]) k = list_prod l k ++ (pair x <$> k).
Proof.
  induction l as [|y l IH]; simpl.
  - by rewrite app_nil_r.
  - by rewrite IH, app_assoc.
Qed.

Lemma tables_of_nil (self : Pentomino) (g : Grid) : tables_of self g [] ([], []).
Proof.
  unfold tables_of. cbn [fst snd dict_get dict_keys fmap list_fmap].
  split; [constructor |]. split; [constructor |]. split; [| split].
  - intros v x. split; [done |]. intros [-> Hpos]. done.
  - done.
  - intros v _ p Hp. by apply elem_of_nil in Hp.
Qed.

Section Pieces.
Variables (self self' : Pentomino) (w : Z) (bs : list pystr) (i : nat) (g : Grid).
Hypothesis Hm : 0 < m self.
Hypothesis Hn : 0 < n self.
Hypothesis Hdec : decoded self w bs self'.
Hypothesis Hg : population self' !! i = Some g.

(** The body of the cell loops, with the piece it measures. *)
Lemma count_cell_piece (fuel : nat) (row col : Z) (st : dict * dict) :
  inside self row col ->
  (Z.to_nat (m self * n self) < fuel)%nat ->
  exists node x,
    count_cell fuel self' (Z.of_nat i) row st col = Ok (tally st node x)
    /\ cell g row col = Some node
    /\ piece_size self g (row, col) x.
Proof.
  intros Hin Hfuel.
  pose proof (decoded_linked_up _ _ _ _ _ _ Hdec Hg) as Hup.
  destruct (Hup (row, col) Hin) as (node & Hnode & _).
  destruct (bfs_spec self g Hup (row, col) node fuel Hin Hnode)
    as (comp & Hbfs & Hnd & Hcomp & _); [lia |].
  exists node, (len comp). split; [| split; [done | by exists comp]].
  unfold count_cell. rewrite (getitem_lookup _ _ g) by (rewrite ?Nat2Z.id; done || lia).
  cbn [obind].
  simpl in Hnode. unfold cell, node_at in Hnode. destruct Hin as [Hr Hc].
  destruct (Z.leb_spec 0 row); [| lia]. destruct (Z.leb_spec 0 col); [| lia].
  simpl in Hnode. destruct (g !! Z.to_nat row) as [line|] eqn:Hline; [| done].
  rewrite (getitem_lookup _ _ _ (proj1 Hr) Hline). cbn [obind].
  rewrite (getitem_lookup _ _ _ (proj1 Hc) Hnode). cbn [obind].
  by rewrite Hbfs.
Qed.

(** The cell loops of [fitness] for grid [g]. *)
Lemma count_tables_piece (fuel : nat) :
  (Z.to_nat (m self * n self) < fuel)%nat ->
  exists tables,
    count_tables fuel self' (Z.of_nat i) = Ok tables
    /\ tables_of self g (all_cells self) tables.
Proof.
  intros Hfuel. destruct (decoded_dims self self' w bs Hdec) as (Hm' & Hn' & _).
  unfold count_tables. rewrite Hm', Hn'. unfold all_cells.
  apply (for_range_inv
    (fun row st => tables_of self g (list_prod (range 0 row) (range 0 (m self))) st)
    (n self)
    (fun st row => for_each (range 0 (m self)) (count_cell fuel self' (Z.of_nat i) row) st)
    ([], [])); [lia | rewrite range_nil by lia; apply tables_of_nil |].
  intros row st Hrow Hst.
  destruct (for_range_inv
    (fun col st => tables_of self g
       (list_prod (range 0 row) (range 0 (m self)) ++ (pair row <$> range 0 col)) st)
    (m self) (count_cell fuel self' (Z.of_nat i) row) st) as (st' & Hrun & Hinv); [lia | | |].
  - rewrite (range_nil 0 0) by lia. rewrite fmap_nil, app_nil_r. done.
  - intros col st0 Hcol Hst0.
    destruct (count_cell_piece fuel row col st0) as (node & x & -> & Hnode & Hsize);
      [done | done |].
    eexists. split; [done |].
    rewrite range_snoc, fmap_app, app_assoc by lia.
    by apply (tally_tables self g _ st0 (row, col)).
  - exists st'. split; [done |]. by rewrite range_snoc, list_prod_snoc by lia.
Qed.

End Pieces.

Lemma gap_nonneg (vals : list Z) : 0 <= gap vals.
Proof.
  unfold gap, sumZ. induction vals as [|x vals IH]; [done |].
  rewrite fmap_cons. cbn [foldr]. lia.
Qed.

Lemma gap_zero (vals : list Z) : gap vals = 0 <-> Forall (fun x => x = 5) vals.
Proof.
  induction vals as [|x vals IH]; [by split |].
  pose proof (gap_nonneg vals) as Hg. rewrite Forall_cons, <- IH.
  unfold gap, sumZ in *. rewrite fmap_cons. cbn [foldr]. lia.
Qed.

Lemma closeness_fold_gap (vals : list Z) :
  forall acc : Q,
    (fold_left (fun sm x => sm + (1 - inject_Z (Z.abs (5 - x)) / 5)) vals acc
     == acc + inject_Z (len vals) - inject_Z (gap vals) / 5)%Q.
Proof.
  induction vals as [|x vals IH]; intros acc.
  - simpl. change (inject_Z (len [])) with 0%Q. change (inject_Z (gap [])) with 0%Q.
    unfold Qdiv. change (/ 5)%Q with (1 # 5)%Q. lra.
  - cbn [fold_left]. rewrite IH.
    assert (inject_Z (len (x :: vals)) = inject_Z (len vals) + 1)%Q as ->.
    { unfold len. simpl length. rewrite Nat2Z.inj_succ, <- Z.add_1_r. apply inject_Z_plus. }
    assert (inject_Z (gap (x :: vals)) = inject_Z (Z.abs (5 - x)) + inject_Z (gap vals))%Q
      as ->.
    { unfold gap, sumZ. rewrite fmap_cons. cbn [foldr]. apply inject_Z_plus. }
    unfold Qdiv. change (/ 5)%Q with (1 # 5)%Q. lra.
Qed.

(** An average of [fitness] is 1 exactly when all entries are 5. *)
Lemma average_one (d : dict) (avg : Q) :
  d <> [] -> average (closeness d) d = Ok avg ->
  (avg <= 1)%Q /\ ((avg == 1)%Q <-> Forall (fun x => x = 5) (dict_values d)).
Proof.
  intros Hd. unfold average.
  assert (0 < len d) as Hlen by (destruct d; [done | unfold len; simpl; lia]).
  destruct (Z.eqb_spec (len d) 0); [lia |]. intros [= <-].
  assert (0 < inject_Z (len d))%Q as HL.
  { change 0%Q with (inject_Z 0). by rewrite <- Zlt_Qlt. }
  pose proof (closeness_fold_gap (dict_values d) 0) as Hc. fold (closeness d) in Hc.
  assert (len (dict_values d) = len d) as Hlv
    by (unfold dict_values, len; by rewrite length_fmap).
  rewrite Hlv in Hc.
  pose proof (gap_nonneg (dict_values d)) as Hg.
  assert (0 <= inject_Z (gap (dict_values d)))%Q as HG.
  { change 0%Q with (inject_Z 0). by rewrite <- Zle_Qle. }
  rewrite <- gap_zero.
  set (G := inject_Z (gap (dict_values d))) in *. set (Ld := inject_Z (len d)) in *.
  unfold Qdiv in Hc. change (/ 5)%Q with (1 # 5)%Q in Hc.
  assert (closeness d / Ld * Ld == closeness d)%Q as Hmul.
  { rewrite Qmult_comm. apply Qmult_div_r. lra. }
  set (a := (closeness d / Ld)%Q) in *.
  split; [| split].
  - nra.
  - intros Ha. rewrite Ha in Hmul. apply (inject_Z_injective _ 0). fold G.
    change (inject_Z 0) with 0%Q. lra.
  - intros H0. apply (inject_Z_injective _ 0) in H0. fold G in H0.
    change (inject_Z 0) with 0%Q in H0. nra.
Qed.

(** When both dictionaries hold nothing but fives the score is
    [1 + penalty]. *)
Lemma score_of_fives (penalty : Q) (tables : dict * dict) (s : Q) :
  tables.1 <> [] -> tables.2 <> [] ->
  Forall (fun x => x = 5) (dict_values tables.1) ->
  Forall (fun x => x = 5) (dict_values tables.2) ->
  score_of penalty tables = Ok s ->
  (s == 1 + penalty)%Q.
Proof.
  intros H1 H2 F1 F2. unfold score_of.
  destruct (average (closeness tables.1) tables.1) as [avgc| | |] eqn:Hc; try done.
  destruct (average (closeness tables.2) tables.2) as [avgt| | |] eqn:Ht; try done.
  cbn [obind]. intros [= <-].
  destruct (average_one _ _ H1 Hc) as [_ Hc1]. destruct (average_one _ _ H2 Ht) as [_ Ht1].
  apply Hc1 in F1. apply Ht1 in F2. rewrite F1, F2. lra.
Qed.

Section Candidates.
Variables (self self' : Pentomino) (w : Z) (bs : list pystr) (fuel : nat) (penalty : Q).
Hypothesis Hm : 0 < m self.
Hypothesis Hn : 0 < n self.
Hypothesis Hdec : decoded self w bs self'.
Hypothesis Hfuel : (Z.to_nat (m self * n self) < fuel)%nat.

(** Every score [fitness] returns is the score of the dictionaries of its
    candidate. *)
Lemma fitness_scores :
  0 <= k self <= len bs ->
  exists scores,
    fitness fuel self' penalty = Ok scores
    /\ len scores = k self
    /\ forall i s, scores !! i = Some s ->
         exists tables,
           count_tables fuel self' (Z.of_nat i) = Ok tables
           /\ score_of penalty tables = Ok s.
Proof.
  intros Hk. destruct (decoded_dims self self' w bs Hdec) as (_ & _ & Hk').
  unfold fitness. rewrite Hk'.
  apply (for_range_inv
    (fun j scores =>
       len scores = j
       /\ forall i s, scores !! i = Some s ->
            exists tables,
              count_tables fuel self' (Z.of_nat i) = Ok tables
              /\ score_of penalty tables = Ok s)
    (k self)
    (fun scores i =>
       do tables <- count_tables fuel self' i;
       do sc <- score_of penalty tables;
       Ok (scores ++ [sc]))
    []); [lia | by split | ].
  intros j scores Hj [Hlen Hall].
  destruct (count_tables_spec self self' w bs Hm Hn Hdec fuel j) as (tables & Htab & Hinv);
    [lia | done |].
  destruct (table_inv_nonempty (m self * n self) (m self * n self) tables) as [H1 H2];
    [nia | done |].
  destruct (score_of_spec penalty tables H1 H2) as (sc & Hsc & _).
  rewrite Htab. cbn [obind]. rewrite Hsc. cbn [obind]. eexists. split; [done |].
  split; [rewrite len_app; unfold len in *; simpl; lia |].
  intros i s Hi. apply lookup_app_Some in Hi as [Hi | [Hge Hi]]; [by apply Hall |].
  apply list_lookup_singleton_Some in Hi as [Hi <-].
  exists tables. replace (Z.of_nat i) with j by (unfold len in Hlen; lia). done.
Qed.

End Candidates.

(** X25. For every candidate, the two dictionaries [fitness] fills hold
    nothing but fives, every kept component size and every count, exactly
    when the candidate is a solution: around every cell of its grid, the
    cells that carry the same value are five and hang together. A solution
    gets the score [1 + penalty]. *)
Theorem fitness_largest_on_solutions (self : Pentomino) (bs : list pystr) (w : Z)
    (fuel : nat) (penalty : Q) :
  0 < m self -> 0 < n self -> bitsize self = Ok w ->
  (Z.to_nat (m self * n self) < fuel)%nat ->
  0 <= k self <= len bs ->
  exists self' scores,
    set_population self bs = Ok self'
    /\ fitness fuel self' penalty = Ok scores
    /\ len scores = k self
    /\ forall i s g,
         scores !! i = Some s -> population self' !! i = Some g ->
         exists connected_counts total_counts,
           count_tables fuel self' (Z.of_nat i) = Ok (connected_counts, total_counts)
           /\ ((Forall (fun x => x = 5) (dict_values connected_counts)
                /\ Forall (fun x => x = 5) (dict_values total_counts))
               <-> solved self g)
           /\ (solved self g -> (s == 1 + penalty)%Q).
Proof.
  intros Hm Hn Hw Hfuel Hk.
  destruct (set_population_spec self bs w ltac:(lia) ltac:(lia) Hw) as (self' & Hrun & Hdec).
  destruct (fitness_scores self self' w bs fuel penalty Hm Hn Hdec Hfuel Hk)
    as (scores & Hfit & Hlen & Hall).
  exists self', scores. repeat (split; [done |]).
  intros i s g Hs Hg. destruct (Hall i s Hs) as (tables & Htab & Hsc).
  destruct (count_tables_piece self self' w bs i g Hm Hn Hdec Hg fuel Hfuel)
    as (tables' & Htab' & Hof).
  assert (tables' = tables) as -> by congruence.
  destruct (count_tables_spec self self' w bs Hm Hn Hdec fuel (Z.of_nat i))
    as (tables' & Htab'' & Hinv); [| done |].
  { apply lookup_lt_Some in Hg. rewrite (decoded_length _ _ _ _ Hdec) in Hg.
    unfold len. lia. }
  assert (tables' = tables) as -> by congruence.
  destruct (table_inv_nonempty (m self * n self) (m self * n self) tables) as [H1 H2];
    [nia | done |].
  pose proof (tables_solved self g tables Hof) as Hiff.
  destruct tables as [cc tc]. exists cc, tc. split; [done |]. split; [done |].
  intros Hsol. apply Hiff in Hsol as [F1 F2].
  by apply (score_of_fives penalty (cc, tc) s).
Qed.

Lemma fitness_largest_on_solutions_witness :
  exists self' scores,
    set_population P25 [py "1111100000"] = Ok self'
    /\ fitness 11 self' (1 # 5) = Ok scores
    /\ len scores = k P25
    /\ forall i s g,
         scores !! i = Some s -> population self' !! i = Some g ->
         exists connected_counts total_counts,
           count_tables 11 self' (Z.of_nat i) = Ok (connected_counts, total_counts)
           /\ ((Forall (fun x => x = 5) (dict_values connected_counts)
                /\ Forall (fun x => x = 5) (dict_values total_counts))
               <-> solved P25 g)
           /\ (solved P25 g -> (s == 1 + (1 # 5))%Q).
Proof.
  apply (fitness_largest_on_solutions P25 [py "1111100000"] 1 11 (1 # 5)).
  - simpl. lia.
  - simpl. lia.
  - reflexivity.
  - simpl. lia.
  - unfold len. simpl. lia.
Defined.
